(** * Page replacement simulator: a shallow embedding and its properties

    The development follows [PageReplacementSimulator] (the engine behind the
    visualizer): the constructor with its reference-string parser, the four
    replacement policies (FIFO, LRU, Optimal, Clock), the step processor
    [processPage], [simulate] and [getStatistics]; and the drawing methods
    of [PageReplacementVisualizer].

    Modelling conventions.
    - A JavaScript Number that stands for a page is [NaN] or [Int z].  The
      value [-0] is identified with [0]: every operation the engine applies
      to a page ([includes], [indexOf], [!==], property keys, truthiness of a
      flag) treats the two alike.  Integers are kept exact; the engine is
      meant for page numbers far below 2^53.
    - Strings are sequences of one-byte code units.
    - A plain object used as a dictionary is a [gmap] keyed by the page (the
      property key is the page's decimal spelling, which is injective on
      [JsNumber]).
    - [undefined] results (an empty [shift()], an out-of-range read) are
      [None]. *)

From Stdlib Require Import ZArith QArith Ascii String List Lia Sorting.Sorted.
From stdpp Require Import base gmap strings list fin_maps fin_sets sorting.

Set Warnings "-clear-no-such-hyp".

Local Open Scope string_scope.
Local Open Scope list_scope.
Local Open Scope Z_scope.

(** ** JavaScript numbers *)

Inductive JsNumber : Type :=
  | NaN
  | Int (z : Z).

#[global] Instance JsNumber_eq_dec : EqDecision JsNumber.
Proof. solve_decision. Defined.

Definition JsNumber_to_option (n : JsNumber) : option Z :=
  match n with NaN => None | Int z => Some z end.

Definition JsNumber_of_option (o : option Z) : JsNumber :=
  match o with None => NaN | Some z => Int z end.

#[global] Instance JsNumber_countable : Countable JsNumber.
Proof.
  apply (inj_countable' JsNumber_to_option JsNumber_of_option).
  intros []; reflexivity.
Defined.

Definition is_int (n : JsNumber) : Prop :=
  match n with NaN => False | Int _ => True end.

#[global] Instance is_int_dec n : Decision (is_int n).
Proof. destruct n; simpl; apply _. Defined.

(** [a === b] on numbers: [NaN] is not equal to itself. *)
Definition strict_eqb (a b : JsNumber) : bool :=
  match a, b with
  | Int x, Int y => Z.eqb x y
  | _, _ => false
  end.

(** SameValueZero, the comparison of [Array.prototype.includes]. *)
Definition same_value_zero (a b : JsNumber) : bool :=
  match a, b with
  | NaN, NaN => true
  | Int x, Int y => Z.eqb x y
  | _, _ => false
  end.

(** ** The reference-string parser: [split(",")], [trim()], [Number.parseInt] *)

Definition char_code (c : ascii) : Z := Z.of_nat (nat_of_ascii c).

(** WhiteSpace and LineTerminator code units below 256: TAB, LF, VT, FF, CR,
    SP and NBSP. *)
Definition is_white_space (c : ascii) : bool :=
  let n := char_code c in
  ((9 <=? n) && (n <=? 13)) || (n =? 32) || (n =? 160).

Fixpoint trim_start_chars (l : list ascii) : list ascii :=
  match l with
  | [] => []
  | c :: l' => if is_white_space c then trim_start_chars l' else l
  end.

Definition trim_chars (l : list ascii) : list ascii :=
  rev (trim_start_chars (rev (trim_start_chars l))).

(** [s.split(",")]: the pieces between commas; the empty string has one
    (empty) piece. *)
Fixpoint split_comma_chars (l : list ascii) : list (list ascii) :=
  match l with
  | [] => [[]]
  | c :: l' =>
      if Ascii.eqb c ","%char then [] :: split_comma_chars l'
      else match split_comma_chars l' with
           | [] => [[c]]
           | t :: ts => (c :: t) :: ts
           end
  end.

(** Value of a digit in the given radix, if it is one. *)
Definition digit_value (radix : Z) (c : ascii) : option Z :=
  let n := char_code c in
  let v := if (48 <=? n) && (n <=? 57) then Some (n - 48)
           else if (97 <=? n) && (n <=? 122) then Some (n - 87)
           else if (65 <=? n) && (n <=? 90) then Some (n - 55)
           else None in
  match v with
  | Some d => if d <? radix then Some d else None
  | None => None
  end.

(** The longest prefix of radix digits, accumulated left to right; [None]
    when the prefix is empty. *)
Fixpoint parse_digits (radix : Z) (acc : option Z) (l : list ascii) : option Z :=
  match l with
  | [] => acc
  | c :: l' =>
      match digit_value radix c with
      | Some d => parse_digits radix (Some (default 0 acc * radix + d)) l'
      | None => acc
      end
  end.

(** [Number.parseInt(s)] with the radix left undefined: leading white space
    is skipped, a sign is read, a [0x]/[0X] prefix switches to radix 16, and
    the longest digit prefix is converted; without a digit the result is
    [NaN].  The digits are converted to the integer they spell, which is
    what JavaScript returns for safe integers (below [2 ^ 53] in
    magnitude); beyond them JavaScript returns the nearest double, and
    properties that depend on the value of a parsed number are stated for
    safe integers. *)
Definition parseInt_chars (l : list ascii) : JsNumber :=
  let s := trim_start_chars l in
  let '(sign, s) :=
    match s with
    | c :: s' =>
        if Ascii.eqb c "-"%char then (-1, s')
        else if Ascii.eqb c "+"%char then (1, s')
        else (1, s)
    | [] => (1, s)
    end in
  let '(radix, s) :=
    match s with
    | c0 :: cx :: s' =>
        if Ascii.eqb c0 "0"%char && (Ascii.eqb cx "x"%char || Ascii.eqb cx "X"%char)
        then (16, s') else (10, s)
    | _ => (10, s)
    end in
  match parse_digits radix None s with
  | Some v => Int (sign * v)
  | None => NaN
  end.

Definition parseInt (s : string) : JsNumber :=
  parseInt_chars (list_ascii_of_string s).

(** [referenceString.split(",").map((x) => Number.parseInt(x.trim()))] *)
Definition parse_reference_string (s : string) : list JsNumber :=
  map (fun t => parseInt_chars (trim_chars t))
      (split_comma_chars (list_ascii_of_string s)).

(** ** Data model *)

(** An index of the reference string, or [Number.POSITIVE_INFINITY]. *)
Inductive ExtNat : Type :=
  | Fin (n : nat)
  | Infinity.

(** [a > b] *)
Definition ext_gtb (a b : ExtNat) : bool :=
  match a, b with
  | Fin x, Fin y => Nat.ltb y x
  | Fin _, Infinity => false
  | Infinity, Fin _ => true
  | Infinity, Infinity => false
  end.

(** [this.dataStructures].  [initializeAlgorithm] gives the object one of
    four shapes, chosen by the (immutable) [algorithm] string, or leaves it
    empty; every later [switch (this.algorithm)] therefore selects the branch
    of the shape that is present (lemma [dataStructures_shape] below), and
    the model dispatches on the shape. *)
Inductive DataStructures : Type :=
  | DsFifo (queue : list JsNumber)
  | DsLru (recencyList : list JsNumber)
  | DsOptimal (futureReferences : gmap JsNumber (list nat))
  | DsClock (referenceFlags : gmap JsNumber bool) (clockPointer : JsNumber)
  | DsEmpty.

(** What [JSON.parse(JSON.stringify(...))] makes of [this.dataStructures]:
    a [NaN] number is written as [null]. *)
Inductive DataStructuresJson : Type :=
  | JsonFifo (queue : list (option Z))
  | JsonLru (recencyList : list (option Z))
  | JsonOptimal (futureReferences : gmap JsNumber (list nat))
  | JsonClock (referenceFlags : gmap JsNumber bool) (clockPointer : option Z)
  | JsonEmpty.

Definition json_number (n : JsNumber) : option Z :=
  match n with NaN => None | Int z => Some z end.

Definition json_clone (ds : DataStructures) : DataStructuresJson :=
  match ds with
  | DsFifo queue => JsonFifo (map json_number queue)
  | DsLru recencyList => JsonLru (map json_number recencyList)
  | DsOptimal futureReferences => JsonOptimal futureReferences
  | DsClock referenceFlags clockPointer =>
      JsonClock referenceFlags (json_number clockPointer)
  | DsEmpty => JsonEmpty
  end.

(** One entry of [this.history]. *)
Module Entry.
Record t : Type := mk {
  step : nat;
  page : JsNumber;
  isHit : bool;
  frames : list JsNumber;
  dataStructures : DataStructuresJson;
}.
End Entry.

Record Simulator : Type := mkSimulator {
  referenceString : list JsNumber;
  numFrames : Z;
  algorithm : string;
  frames : list JsNumber;
  pageFaults : nat;
  pageHits : nat;
  history : list Entry.t;
  dataStructures : DataStructures;
}.

(** ** Construction *)

(** [calculateFutureReferences]: the loop over [i], started at index [i]
    with the map built so far. *)
Fixpoint calculateFutureReferences_from (i : nat) (pages : list JsNumber)
    (futureRefs : gmap JsNumber (list nat)) : gmap JsNumber (list nat) :=
  match pages with
  | [] => futureRefs
  | page :: rest =>
      calculateFutureReferences_from (S i) rest
        (<[page := default [] (futureRefs !! page) ++ [i]]> futureRefs)
  end.

Definition calculateFutureReferences (refs : list JsNumber)
    : gmap JsNumber (list nat) :=
  calculateFutureReferences_from 0 refs ∅.

Definition initializeAlgorithm (algorithm : string) (refs : list JsNumber)
    : DataStructures :=
  if String.eqb algorithm "fifo" then DsFifo []
  else if String.eqb algorithm "lru" then DsLru []
  else if String.eqb algorithm "optimal" then
    DsOptimal (calculateFutureReferences refs)
  else if String.eqb algorithm "clock" then DsClock ∅ (Int 0)
  else DsEmpty.

(** The constructor after the reference string has been parsed. *)
Definition make_simulator (refs : list JsNumber) (numFrames : Z)
    (algorithm : string) : Simulator :=
  {| referenceString := refs;
     numFrames := numFrames;
     algorithm := algorithm;
     frames := [];
     pageFaults := 0;
     pageHits := 0;
     history := [];
     dataStructures := initializeAlgorithm algorithm refs |}.

Definition constructor_ (referenceString : string) (numFrames : Z)
    (algorithm : string) : Simulator :=
  make_simulator (parse_reference_string referenceString) numFrames algorithm.

(** The outcome of evaluating an expression: a value, or a thrown error
    (named by its kind). *)
Inductive Completion (A : Type) : Type :=
  | Normal (a : A)
  | Throw (error : string).
Arguments Normal {A} a.
Arguments Throw {A} error.

(** [new PageReplacementSimulator(referenceString, numFrames, algorithm)]
    for a string [referenceString]: no statement of the constructor or of
    [initializeAlgorithm] throws. *)
Definition new_PageReplacementSimulator (referenceString : string)
    (numFrames : Z) (algorithm : string) : Completion Simulator :=
  Normal (constructor_ referenceString numFrames algorithm).

(** ** Victim selection *)

(** [futureIndices.find((idx) => idx > currentStep) || Number.POSITIVE_INFINITY] *)
Definition next_index (futureIndices : list nat) (currentStep : nat) : ExtNat :=
  match List.find (fun idx => Nat.ltb currentStep idx) futureIndices with
  | Some O => Infinity
  | Some (S n) => Fin (S n)
  | None => Infinity
  end.

(** The [for ... of this.frames] loop of [selectOptimalPage]. *)
Fixpoint selectOptimalPage_loop (pages : list JsNumber)
    (futureReferences : gmap JsNumber (list nat)) (currentStep : nat)
    (farthestPage : option JsNumber) (farthestIndex : ExtNat)
    : option JsNumber :=
  match pages with
  | [] => farthestPage
  | page :: rest =>
      let futureIndices := default [] (futureReferences !! page) in
      let nextIndex := next_index futureIndices currentStep in
      if ext_gtb nextIndex farthestIndex
      then selectOptimalPage_loop rest futureReferences currentStep
             (Some page) nextIndex
      else selectOptimalPage_loop rest futureReferences currentStep
             farthestPage farthestIndex
  end.

Definition selectOptimalPage (frames : list JsNumber)
    (futureReferences : gmap JsNumber (list nat)) (currentStep : nat)
    : option JsNumber :=
  selectOptimalPage_loop frames futureReferences currentStep
    (head frames) (Fin currentStep).

(** [this.frames[pointer]]: [undefined] outside the array.  (The pointer is
    [0], a remainder of a non-negative number, or [NaN]; it is never
    negative.) *)
Definition frame_at (frames : list JsNumber) (pointer : JsNumber)
    : option JsNumber :=
  match pointer with
  | Int z => if 0 <=? z then frames !! Z.to_nat z else None
  | NaN => None
  end.

(** [(pointer + 1) % this.frames.length] *)
Definition advance_pointer (pointer : JsNumber) (len : nat) : JsNumber :=
  match pointer, len with
  | Int z, S _ => Int (Z.rem (z + 1) (Z.of_nat len))
  | _, _ => NaN
  end.

(** The [while (true)] loop of [selectClockPage]; one unit of fuel pays for
    one inspected slot.  [None] means the fuel ran out. *)
Fixpoint selectClockPage_loop (fuel : nat) (frames : list JsNumber)
    (referenceFlags : gmap JsNumber bool) (clockPointer : JsNumber)
    : option (option JsNumber * gmap JsNumber bool * JsNumber) :=
  match fuel with
  | O => None
  | S fuel' =>
      let next := advance_pointer clockPointer (length frames) in
      match frame_at frames clockPointer with
      | Some page =>
          if default false (referenceFlags !! page)
          then selectClockPage_loop fuel' frames
                 (<[page := false]> referenceFlags) next
          else Some (Some page, referenceFlags, next)
      | None =>
          (* [referenceFlags[undefined]] is [undefined] *)
          Some (None, referenceFlags, next)
      end
  end.

(** A slot whose flag the scan has cleared is clear when the pointer comes
    back to it, so the loop ends at the latest on its return to the slot it
    started from: one more unit of fuel than there are frames is always
    enough (lemma [selectClockPage_loop_total]); the fallback is never
    used. *)
Definition selectClockPage (frames : list JsNumber)
    (referenceFlags : gmap JsNumber bool) (clockPointer : JsNumber)
    : option JsNumber * gmap JsNumber bool * JsNumber :=
  default (None, referenceFlags, clockPointer)
    (selectClockPage_loop (S (length frames)) frames
       referenceFlags clockPointer).

(** [selectPageToReplace]: the victim ([None] for [undefined]) and the data
    structures as the selection leaves them. *)
Definition selectPageToReplace (ds : DataStructures) (frames : list JsNumber)
    (currentStep : nat) : option JsNumber * DataStructures :=
  match ds with
  | DsFifo queue => (head queue, DsFifo (tail queue))
  | DsLru recencyList => (head recencyList, DsLru (tail recencyList))
  | DsOptimal futureReferences =>
      (selectOptimalPage frames futureReferences currentStep, ds)
  | DsClock referenceFlags clockPointer =>
      let '(page, flags, pointer) :=
        selectClockPage frames referenceFlags clockPointer in
      (page, DsClock flags pointer)
  | DsEmpty => (None, ds)
  end.

(** ** The step processor *)

Definition updateDataStructures (ds : DataStructures) (pageNumber : JsNumber)
    (isHit : bool) : DataStructures :=
  match ds with
  | DsFifo queue => if isHit then ds else DsFifo (queue ++ [pageNumber])
  | DsLru recencyList =>
      DsLru (List.filter (fun p => negb (strict_eqb p pageNumber)) recencyList
               ++ [pageNumber])
  | DsClock referenceFlags clockPointer =>
      DsClock (<[pageNumber := true]> referenceFlags) clockPointer
  | DsOptimal _ | DsEmpty => ds
  end.

(** [this.frames.includes(pageNumber)] *)
Definition includes (frames : list JsNumber) (pageNumber : JsNumber) : bool :=
  existsb (same_value_zero pageNumber) frames.

(** [this.frames.indexOf(v)]; [None] stands for [-1]. *)
Fixpoint indexOf_from (i : nat) (frames : list JsNumber) (v : JsNumber)
    : option nat :=
  match frames with
  | [] => None
  | x :: rest => if strict_eqb x v then Some i else indexOf_from (S i) rest v
  end.

Definition indexOf (frames : list JsNumber) (v : option JsNumber) : option nat :=
  match v with
  | Some v => indexOf_from 0 frames v
  | None => None
  end.

(** [this.frames[index] = pageNumber]: with [index = -1] the assignment
    creates the property ["-1"], which is no element of the array. *)
Definition store_frame (frames : list JsNumber) (index : option nat)
    (pageNumber : JsNumber) : list JsNumber :=
  match index with
  | Some i => <[i := pageNumber]> frames
  | None => frames
  end.

Definition record_step (s : Simulator) (pageNumber : JsNumber)
    (stepIndex : nat) (isHit : bool) : Simulator :=
  {| referenceString := referenceString s;
     numFrames := numFrames s;
     algorithm := algorithm s;
     frames := frames s;
     pageFaults := pageFaults s;
     pageHits := pageHits s;
     history := history s ++
       [ Entry.mk stepIndex pageNumber isHit (frames s)
           (json_clone (dataStructures s)) ];
     dataStructures := dataStructures s |}.

Definition processPage (s : Simulator) (pageNumber : JsNumber)
    (stepIndex : nat) : Simulator :=
  let isHit := includes (frames s) pageNumber in
  let s1 :=
    if isHit then
      {| referenceString := referenceString s;
         numFrames := numFrames s;
         algorithm := algorithm s;
         frames := frames s;
         pageFaults := pageFaults s;
         pageHits := S (pageHits s);
         history := history s;
         dataStructures :=
           updateDataStructures (dataStructures s) pageNumber true |}
    else
      let '(frames1, ds1) :=
        if Z.of_nat (length (frames s)) <? numFrames s
        then (frames s ++ [pageNumber], dataStructures s)
        else
          let '(pageToReplace, ds) :=
            selectPageToReplace (dataStructures s) (frames s) stepIndex in
          let index := indexOf (frames s) pageToReplace in
          (store_frame (frames s) index pageNumber, ds) in
      {| referenceString := referenceString s;
         numFrames := numFrames s;
         algorithm := algorithm s;
         frames := frames1;
         pageFaults := S (pageFaults s);
         pageHits := pageHits s;
         history := history s;
         dataStructures := updateDataStructures ds1 pageNumber false |} in
  record_step s1 pageNumber stepIndex isHit.

(** ** Simulation and statistics *)

(** The loop of [simulate] from index [i], over the references that remain. *)
Fixpoint simulate_from (i : nat) (pages : list JsNumber) (s : Simulator)
    : Simulator :=
  match pages with
  | [] => s
  | page :: rest => simulate_from (S i) rest (processPage s page i)
  end.

Definition simulate (s : Simulator) : Simulator :=
  simulate_from 0 (referenceString s) s.

(** The state of the engine when [simulate] has processed [k] references. *)
Definition after_steps (k : nat) (s : Simulator) : Simulator :=
  simulate_from 0 (take k (referenceString s)) s.

(** ** Double arithmetic of the hit ratio

    [getStatistics] divides two counters, multiplies by 100 and prints the
    product with [toFixed(2)], all on IEEE 754 doubles.  The counters are
    bounded by the length of a JavaScript array, hence exact doubles, and
    the quotient and the product lie in the normal range, where a double is
    the rational rounded to 53 significant bits, to the nearest and to the
    even one of two nearest. *)

(** A non-negative double, [mantissa * 2 ^ exponent]. *)
Record Double : Type := mkDouble { mantissa : Z; exponent : Z }.

(** The integer nearest to [num / den], the even one of two equally near. *)
Definition nearest_even (num den : Z) : Z :=
  let q := num / den in
  let r := num mod den in
  if 2 * r <? den then q
  else if den <? 2 * r then q + 1
  else if Z.even q then q else q + 1.

(** The exponent [e] with [2 ^ e <= a / b < 2 ^ (e + 1)], for positive [a]
    and [b]. *)
Definition binade (a b : Z) : Z :=
  let d := Z.log2 a - Z.log2 b in
  if (if 0 <=? d then b * 2 ^ d <=? a else b <=? a * 2 ^ (- d))
  then d else d - 1.

(** The double nearest to [a / b] (round to nearest, ties to even, 53
    significant bits), for [0 <= a] and [0 < b]. *)
Definition to_double (a b : Z) : Double :=
  if a =? 0 then mkDouble 0 0
  else
    let e := binade a b in
    let k := 52 - e in
    mkDouble (if 0 <=? k then nearest_even (a * 2 ^ k) b
              else nearest_even a (b * 2 ^ (- k)))
             (e - 52).

(** [x * n] for a double [x] and a non-negative integer [n] that is itself a
    double: the exact product, rounded. *)
Definition double_times (x : Double) (n : Z) : Double :=
  if 0 <=? exponent x
  then to_double (mantissa x * n * 2 ^ exponent x) 1
  else to_double (mantissa x * n) (2 ^ (- exponent x)).

(** [x.toFixed(2)], as the number of hundredths it spells: the integer
    [n] with [n / 100] nearest to [x], the larger one of two. *)
Definition toFixed2 (x : Double) : Z :=
  let a := if 0 <=? exponent x then mantissa x * 100 * 2 ^ exponent x
           else mantissa x * 100 in
  let b := if 0 <=? exponent x then 1 else 2 ^ (- exponent x) in
  (2 * a + b) / (2 * b).

(** [hitRatio]: the number [0], or the text of [toFixed(2)], given by the
    number of hundredths it spells. *)
Inductive HitRatio : Type :=
  | RatioZero
  | RatioFixed2 (hundredths : Z).

Module Statistics.
Record t : Type := mk {
  pageFaults : nat;
  pageHits : nat;
  hitRatio : HitRatio;
  totalReferences : nat;
}.
End Statistics.

Definition getStatistics (s : Simulator) : Statistics.t :=
  let total := (pageFaults s + pageHits s)%nat in
  Statistics.mk (pageFaults s) (pageHits s)
    (if Nat.ltb 0 total
     then RatioFixed2
            (toFixed2
               (double_times
                  (to_double (Z.of_nat (pageHits s)) (Z.of_nat total)) 100))
     else RatioZero)
    total.

(** ** Printing numbers and the canvas visualizer *)

(** The character of a decimal digit. *)
Definition digit_char (d : Z) : ascii := ascii_of_nat (Z.to_nat (48 + d)).

(** The decimal digits of a non-negative integer in front of [acc]; the
    fuel bounds the number of digits. *)
Fixpoint decimal_digits (fuel : nat) (n : Z) (acc : list ascii) : list ascii :=
  match fuel with
  | O => acc
  | S fuel' =>
      let acc' := digit_char (n mod 10) :: acc in
      if n <? 10 then acc' else decimal_digits fuel' (n / 10) acc'
  end.

(** [String(n)] for a number of the model: [NaN], or an integer in plain
    decimal.  JavaScript prints safe integers (below [2 ^ 53] in magnitude)
    this way; beyond them it prints the shortest digits that identify the
    double, in exponent form from 10^21 on.  Properties that depend on the
    digits are stated for safe integers; the others only name the text. *)
Definition number_to_chars (n : JsNumber) : list ascii :=
  match n with
  | NaN => list_ascii_of_string "NaN"
  | Int z =>
      let digits := decimal_digits (S (Z.to_nat (Z.log2 (Z.abs z)))) (Z.abs z) [] in
      if z <? 0 then "-"%char :: digits else digits
  end.

(** [pieces.join(sep)] *)
Fixpoint join_chars (sep : list ascii) (pieces : list (list ascii))
    : list ascii :=
  match pieces with
  | [] => []
  | [x] => x
  | x :: rest => x ++ sep ++ join_chars sep rest
  end.

(** [numbers.join(", ")], the way [getExecutionTrace] prints the reference
    string and the frames of a step. *)
Definition join_numbers (l : list JsNumber) : string :=
  string_of_list_ascii
    (join_chars (list_ascii_of_string ", ") (map number_to_chars l)).

(** A call on the 2D drawing context, or an assignment to one of its
    properties.  Coordinates are JavaScript numbers; the ones the visualizer
    computes are integers and halves of integers, kept here as rationals. *)
Inductive CanvasOp : Type :=
  | SetFillStyle (color : string)
  | SetStrokeStyle (color : string)
  | SetLineWidth (width : Z)
  | SetFont (font : string)
  | SetTextAlign (align : string)
  | SetTextBaseline (baseline : string)
  | FillRect (x y w h : Q)
  | StrokeRect (x y w h : Q)
  | FillText (text : string) (x y : Q).

(** [this.colors] *)
Module colors.
Definition frameEmpty : string := "#334155".
Definition frameOccupied : string := "#3b82f6".
Definition frameHit : string := "#10b981".
Definition frameFault : string := "#ef4444".
Definition text : string := "#f1f5f9".
Definition border : string := "#475569".
End colors.

(** [String(n)] as a string. *)
Definition number_to_string (n : JsNumber) : string :=
  string_of_list_ascii (number_to_chars n).

(** [highlightType === kind], for a [highlightType] that is [null] or a
    string. *)
Definition highlight_is (highlightType : option string) (kind : string)
    : bool :=
  match highlightType with
  | Some t => String.eqb t kind
  | None => false
  end.

(** [page === highlightPage], for a [highlightPage] that is [null] or a
    number. *)
Definition is_highlight_page (page : JsNumber)
    (highlightPage : option JsNumber) : bool :=
  match highlightPage with
  | Some h => strict_eqb page h
  | None => false
  end.

(** The [frameColor] of [drawFrames] for the content [page] of a slot
    ([None] when the slot is [undefined]). *)
Definition frameColor (page : option JsNumber) (highlightType : option string)
    (highlightPage : option JsNumber) : string :=
  match page with
  | None => colors.frameEmpty
  | Some pg =>
      if highlight_is highlightType "hit" && is_highlight_page pg highlightPage
      then colors.frameHit
      else if highlight_is highlightType "fault"
              && is_highlight_page pg highlightPage
      then colors.frameFault
      else colors.frameOccupied
  end.

(** [startX] of [drawFrames]: the row of [numFrames] boxes of width 80 with
    gaps of 20 is centred in the canvas. *)
Definition frames_startX (width : Z) (numFrames : Z) : Q :=
  (inject_Z width - inject_Z (numFrames * 80 + (numFrames - 1) * 20)) / 2.

(** [x] in round [i] of the loop of [drawFrames]. *)
Definition frame_x (width : Z) (numFrames : Z) (i : nat) : Q :=
  frames_startX width numFrames + inject_Z (Z.of_nat i) * inject_Z (80 + 20).

(** One round of the loop of [drawFrames]. *)
Definition drawFrame_ops (width : Z) (frames : list JsNumber) (numFrames : Z)
    (highlightType : option string) (highlightPage : option JsNumber)
    (i : nat) : list CanvasOp :=
  let x := frame_x width numFrames i in
  let y := inject_Z 80 in
  let page := frames !! i in
  [ SetFillStyle (frameColor page highlightType highlightPage);
    FillRect x y (inject_Z 80) (inject_Z 100);
    SetStrokeStyle colors.border;
    SetLineWidth 2;
    StrokeRect x y (inject_Z 80) (inject_Z 100);
    SetFillStyle colors.text;
    SetFont "bold 24px sans-serif";
    SetTextAlign "center";
    SetTextBaseline "middle" ]
  ++ match page with
     | Some pg =>
         [ FillText (number_to_string pg)
             (x + inject_Z 80 / 2)%Q (y + inject_Z 100 / 2)%Q ]
     | None =>
         [ SetFillStyle "#64748b";
           FillText "-" (x + inject_Z 80 / 2)%Q (y + inject_Z 100 / 2)%Q ]
     end
  ++ [ SetFillStyle "#94a3b8";
       SetFont "12px sans-serif";
       SetTextBaseline "top";
       FillText ("Frame " ++ number_to_string (Int (Z.of_nat i)))
         (x + inject_Z 80 / 2)%Q (y + inject_Z 100 + inject_Z 10)%Q ].

(** [drawFrames(frames, numFrames, highlightType, highlightPage)] on a
    canvas of the given width and height: the calls it makes, in order. *)
Definition drawFrames (width height : Z) (frames : list JsNumber)
    (numFrames : Z) (highlightType : option string)
    (highlightPage : option JsNumber) : list CanvasOp :=
  [ SetFillStyle "#0f172a";
    FillRect 0 0 (inject_Z width) (inject_Z height);
    SetFillStyle "#f1f5f9";
    SetFont "bold 18px sans-serif";
    SetTextAlign "center";
    FillText "Page Frames" (inject_Z width / 2)%Q (inject_Z 30) ]
  ++ concat (map (drawFrame_ops width frames numFrames highlightType
                    highlightPage)
               (seq 0 (Z.to_nat numFrames))).

(** [displayCount = Math.min(referenceString.length, 15)] *)
Definition displayCount (referenceString : list JsNumber) : nat :=
  Nat.min (length referenceString) 15.

Definition reference_startX (width : Z) (count : nat) : Q :=
  (inject_Z width
   - inject_Z (Z.of_nat count * 40 + (Z.of_nat count - 1) * 10)) / 2.

(** The [bgColor] of item [i] of the reference strip. *)
Definition bgColor (i : nat) (currentStep : Z) : string :=
  if Z.of_nat i =? currentStep then "#3b82f6"
  else if Z.of_nat i <? currentStep then "#475569"
  else "#334155".

(** [x] in round [i] of the loop of [drawReferenceString]. *)
Definition reference_x (width : Z) (count : nat) (i : nat) : Q :=
  reference_startX width count + inject_Z (Z.of_nat i) * inject_Z (40 + 10).

(** One round of the loop of [drawReferenceString]; [page] is
    [referenceString[i]], which exists because [i < displayCount]. *)
Definition drawReference_ops (width : Z) (count : nat) (currentStep : Z)
    (i : nat) (page : JsNumber) : list CanvasOp :=
  let x := reference_x width count i in
  let y := inject_Z 250 in
  [ SetFillStyle (bgColor i currentStep);
    FillRect x y (inject_Z 40) (inject_Z 40);
    SetStrokeStyle colors.border;
    SetLineWidth 1;
    StrokeRect x y (inject_Z 40) (inject_Z 40);
    SetFillStyle colors.text;
    SetFont "bold 16px sans-serif";
    SetTextAlign "center";
    SetTextBaseline "middle";
    FillText (number_to_string page)
      (x + inject_Z 40 / 2)%Q (y + inject_Z 40 / 2)%Q ].

(** [drawReferenceString(referenceString, currentStep)] *)
Definition drawReferenceString (width : Z) (referenceString : list JsNumber)
    (currentStep : Z) : list CanvasOp :=
  let count := displayCount referenceString in
  [ SetFillStyle "#94a3b8";
    SetFont "12px sans-serif";
    SetTextAlign "center";
    FillText "Reference String" (inject_Z width / 2)%Q
      (inject_Z 250 - inject_Z 30)%Q ]
  ++ concat (imap (drawReference_ops width count currentStep)
               (take count referenceString)).

(** [draw(frames, numFrames, referenceString, currentStep, highlightType,
    highlightPage)] *)
Definition draw (width height : Z) (frames : list JsNumber) (numFrames : Z)
    (referenceString : list JsNumber) (currentStep : Z)
    (highlightType : option string) (highlightPage : option JsNumber)
    : list CanvasOp :=
  drawFrames width height frames numFrames highlightType highlightPage
  ++ drawReferenceString width referenceString currentStep.

(** * Vocabulary of the properties *)

(** ** Frame bound *)

(** The live frames and every recorded snapshot hold at most [F] pages. *)
Definition frames_bounded (F : Z) (s : Simulator) : Prop :=
  Z.of_nat (length (frames s)) ≤ F ∧
  Forall (fun e => Z.of_nat (length (Entry.frames e)) ≤ F) (history s).

(** ** Reference input *)

(** The tokens of a reference input, as [split(",")] produces them. *)
Definition tokens (input : string) : list (list ascii) :=
  split_comma_chars (list_ascii_of_string input).

(** The characters [0] to [9]. *)
Definition is_decimal_digit (c : ascii) : bool :=
  (48 <=? char_code c) && (char_code c <=? 57).

(** The text without one leading [-] or [+]. *)
Definition strip_sign (l : list ascii) : list ascii :=
  match l with
  | c :: l' =>
      if Ascii.eqb c "-"%char || Ascii.eqb c "+"%char then l' else l
  | [] => []
  end.

(** A token that spells an integer once surrounding white space is removed:
    an optional sign followed by one or more decimal digits. *)
Definition is_integer_token (t : list ascii) : bool :=
  match strip_sign (trim_chars t) with
  | [] => false
  | c :: l => forallb is_decimal_digit (c :: l)
  end.

(** The integer such a token spells. *)
Definition token_value (t : list ascii) : Z :=
  let s := trim_chars t in
  let sign := match s with
              | c :: _ => if Ascii.eqb c "-"%char then -1 else 1
              | [] => 1
              end in
  sign * fold_left (fun acc c => acc * 10 + (char_code c - 48))
           (strip_sign s) 0.

(** A token whose trimmed text starts (after an optional sign) with a
    decimal digit. *)
Definition has_leading_digit (t : list ascii) : bool :=
  match strip_sign (trim_chars t) with
  | [] => false
  | c :: _ => is_decimal_digit c
  end.

(** ** Configuration *)

(** The selectors [initializeAlgorithm] knows. *)
Definition known_algorithm (algorithm : string) : Prop :=
  algorithm ∈ ["fifo"; "lru"; "optimal"; "clock"].

#[global] Instance known_algorithm_dec a : Decision (known_algorithm a).
Proof. unfold known_algorithm. apply _. Defined.

(** ** Invariants of the step processor *)

(** Every recorded step has an index below [i]. *)
Definition steps_below (i : nat) (h : list Entry.t) : Prop :=
  Forall (fun e => (Entry.step e < i)%nat) h.

(** What holds of the frame set whatever the policy, as long as the pages
    referenced are integers. *)
Record frames_inv (F : Z) (i : nat) (s : Simulator) : Prop := {
  inv_numFrames : numFrames s = F;
  inv_NoDup : NoDup (frames s);
  inv_int : Forall is_int (frames s);
  inv_length : Z.of_nat (length (frames s)) ≤ F;
  inv_steps : steps_below i (history s);
}.

(** The step index of the last history entry that satisfies [f]. *)
Definition last_step_where (f : Entry.t → bool) (h : list Entry.t)
    : option nat :=
  Entry.step <$> last (List.filter f h).

(** The step of the latest fault on page [p]: when the resident copy of [p]
    was brought in. *)
Definition inserted_at (h : list Entry.t) (p : JsNumber) : option nat :=
  last_step_where
    (fun e => negb (Entry.isHit e) && bool_decide (Entry.page e = p)) h.

(** The step of the latest reference to page [p], hit or fault. *)
Definition last_access (h : list Entry.t) (p : JsNumber) : option nat :=
  last_step_where (fun e => bool_decide (Entry.page e = p)) h.

(** [a] has an earlier time than [b]. *)
Definition earlier (t : JsNumber → option nat) (a b : JsNumber) : Prop :=
  ∃ ta tb, t a = Some ta ∧ t b = Some tb ∧ (ta < tb)%nat.

(** FIFO: the queue holds the resident pages, once each, in the order of
    their insertion. *)
Definition fifo_inv (s : Simulator) : Prop :=
  ∃ queue, dataStructures s = DsFifo queue ∧
    NoDup queue ∧ (∀ x, x ∈ queue ↔ x ∈ frames s) ∧
    StronglySorted (earlier (inserted_at (history s))) queue ∧
    Forall (fun a => is_Some (inserted_at (history s) a)) queue.

(** LRU: the recency list holds the resident pages, once each, in the order
    of their latest access. *)
Definition lru_inv (s : Simulator) : Prop :=
  ∃ recencyList, dataStructures s = DsLru recencyList ∧
    NoDup recencyList ∧ (∀ x, x ∈ recencyList ↔ x ∈ frames s) ∧
    StronglySorted (earlier (last_access (history s))) recencyList ∧
    Forall (fun a => is_Some (last_access (history s) a)) recencyList.

(** Clock: the pointer is a slot number below the frame count. *)
Definition clock_inv (F : Z) (s : Simulator) : Prop :=
  numFrames s = F ∧ Z.of_nat (length (frames s)) ≤ F ∧
  ∃ (flags : gmap JsNumber bool) (zn : nat),
    dataStructures s = DsClock flags (Int (Z.of_nat zn)) ∧ Z.of_nat zn < F.

(** ** Next occurrences *)

(** [a <= b] and [a < b] on indices extended with infinity. *)
Definition ext_le (a b : ExtNat) : Prop :=
  match a, b with
  | Fin x, Fin y => (x ≤ y)%nat
  | _, Infinity => True
  | Infinity, Fin _ => False
  end.

Definition ext_lt (a b : ExtNat) : Prop :=
  match a, b with
  | Fin x, Fin y => (x < y)%nat
  | Fin _, Infinity => True
  | Infinity, _ => False
  end.

(** [a + 1] *)
Definition ext_succ (a : ExtNat) : ExtNat :=
  match a with Fin n => Fin (S n) | Infinity => Infinity end.

(** Position of the first occurrence of [p] in [l]; [Infinity] if there is
    none. *)
Fixpoint first_occurrence (p : JsNumber) (l : list JsNumber) : ExtNat :=
  match l with
  | [] => Infinity
  | x :: l' =>
      if decide (x = p) then Fin 0 else ext_succ (first_occurrence p l')
  end.

(** The specification's notion: the least index greater than [i] at which
    page [p] occurs in the reference sequence, [Infinity] when the page does
    not recur. *)
Definition next_occurrence (refs : list JsNumber) (i : nat) (p : JsNumber)
    : ExtNat :=
  match first_occurrence p (drop (S i) refs) with
  | Fin d => Fin (S i + d)
  | Infinity => Infinity
  end.

(** Case analysis on every extended index in the context. *)
Ltac ext_cases :=
  repeat match goal with
  | a : ExtNat |- _ => destruct a
  end; simpl in *; try done; try lia.

(** The indices the future-reference table lists for a page. *)
Fixpoint occurrences_from (i : nat) (pages : list JsNumber) (p : JsNumber)
    : list nat :=
  match pages with
  | [] => []
  | x :: rest =>
      (if decide (x = p) then [i] else []) ++ occurrences_from (S i) rest p
  end.

(** The scan of [selectOptimalPage] over the frames that remain, with the
    best candidate so far. *)
Fixpoint first_max (nx : JsNumber → ExtNat) (best : JsNumber)
    (l : list JsNumber) : JsNumber :=
  match l with
  | [] => best
  | q :: rest =>
      if ext_gtb (nx q) (nx best) then first_max nx q rest
      else first_max nx best rest
  end.

(** ** Demand paging *)

(** [demand_run F X rs n]: some demand-paging strategy with [F] frames,
    started with the resident set [X], serves the references [rs] with [n]
    faults.  A fault loads the page into a free frame if there is one and
    otherwise evicts a resident page of the strategy's choice. *)
Inductive demand_run (F : nat) : gset JsNumber → list JsNumber → nat → Prop :=
  | run_done X : demand_run F X [] 0
  | run_hit X r rs n :
      r ∈ X → demand_run F X rs n → demand_run F X (r :: rs) n
  | run_load X r rs n :
      r ∉ X → (size X < F)%nat → demand_run F ({[r]} ∪ X) rs n →
      demand_run F X (r :: rs) (S n)
  | run_evict X r rs n v :
      r ∉ X → (F ≤ size X)%nat → v ∈ X →
      demand_run F ({[r]} ∪ (X ∖ {[v]})) rs n →
      demand_run F X (r :: rs) (S n).

(** The set of resident pages of a simulator state. *)
Definition resident (s : Simulator) : gset JsNumber := list_to_set (frames s).

(** The fields present in [dataStructures] are those of the selector. *)
Definition shape_matches (algorithm : string) (ds : DataStructures) : Prop :=
  match ds with
  | DsFifo _ => algorithm = "fifo"
  | DsLru _ => algorithm = "lru"
  | DsOptimal _ => algorithm = "optimal"
  | DsClock _ _ => algorithm = "clock"
  | DsEmpty => ¬ known_algorithm algorithm
  end.

(** ** Vocabulary of the further properties *)

(** The number of commas in a text. *)
Fixpoint count_commas (l : list ascii) : nat :=
  match l with
  | [] => 0
  | c :: l' => (if Ascii.eqb c ","%char then 1 else 0) + count_commas l'
  end.

(** On a full frame set the policy's victim is a resident page. *)
Definition victim_resident (F : Z) (s : Simulator) : Prop :=
  Z.of_nat (length (frames s)) = F →
  ∀ j : nat,
  ∃ v, (selectPageToReplace (dataStructures s) (frames s) j).1 = Some v ∧
       v ∈ frames s.

(** The pages met so far, each listed once, in the order of first
    occurrence: [note_page] adds a page that is new. *)
Definition note_page (seen : list JsNumber) (p : JsNumber) : list JsNumber :=
  if decide (p ∈ seen) then seen else seen ++ [p].

Definition distinct_pages (l : list JsNumber) : list JsNumber :=
  fold_left note_page l [].

(** Every page of [seen] has a flag entry, and the flag of [last] is set. *)
Definition clock_flags_inv (seen : list JsNumber) (last : option JsNumber)
    (s : Simulator) : Prop :=
  ∃ (flags : gmap JsNumber bool) (ptr : JsNumber),
    dataStructures s = DsClock flags ptr ∧
    (∀ q, q ∈ seen → is_Some (flags !! q)) ∧
    (∀ p, last = Some p → flags !! p = Some true).

(** Moving page [p] to the most-recent end of a recency order. *)
Definition touch (stack : list JsNumber) (p : JsNumber) : list JsNumber :=
  List.filter (fun q => negb (strict_eqb q p)) stack ++ [p].

(** All pages referenced in [l], each once, from the least to the most
    recently referenced. *)
Definition recency_stack (l : list JsNumber) : list JsNumber :=
  fold_left touch l [].

(** The recency list of an LRU state is the most recent end of [stack],
    cut to the frame count. *)
Definition lru_stack_inv (F : Z) (stack : list JsNumber) (s : Simulator)
    : Prop :=
  NoDup stack ∧
  ∃ older recencyList,
    dataStructures s = DsLru recencyList ∧
    stack = older ++ recencyList ∧
    (older = [] ∨ Z.of_nat (length recencyList) = F).

(** The three invariants of an LRU run, together. *)
Definition lru_run_inv (F : Z) (i : nat) (stack : list JsNumber)
    (s : Simulator) : Prop :=
  frames_inv F i s ∧ lru_inv s ∧ lru_stack_inv F stack s.

(** A JavaScript safe integer (or [NaN]): the numbers for which the model
    of [String(n)] and of [parseInt] is exact. *)
Definition safe_number (n : JsNumber) : Prop :=
  match n with NaN => True | Int z => Z.abs z < 2 ^ 53 end.

(** The digit-by-digit value [parseInt] accumulates. *)
Definition decimal_step (acc : Z) (c : ascii) : Z := acc * 10 + (char_code c - 48).

(** What a sequence of calls paints: filled rectangles, with the fill style
    in force when [fillRect] is called. *)
Record Box : Type := mkBox {
  box_color : string;
  box_x : Q;
  box_y : Q;
  box_w : Q;
  box_h : Q;
}.

Fixpoint filled_boxes (fillStyle : string) (ops : list CanvasOp) : list Box :=
  match ops with
  | [] => []
  | SetFillStyle c :: rest => filled_boxes c rest
  | FillRect x y w h :: rest =>
      mkBox fillStyle x y w h :: filled_boxes fillStyle rest
  | _ :: rest => filled_boxes fillStyle rest
  end.

(** The texts a sequence of calls writes, with the fill style in force when
    [fillText] is called. *)
Record Label : Type := mkLabel {
  label_color : string;
  label_text : string;
  label_x : Q;
  label_y : Q;
}.

Fixpoint filled_texts (fillStyle : string) (ops : list CanvasOp)
    : list Label :=
  match ops with
  | [] => []
  | SetFillStyle c :: rest => filled_texts c rest
  | FillText t x y :: rest =>
      mkLabel fillStyle t x y :: filled_texts fillStyle rest
  | _ :: rest => filled_texts fillStyle rest
  end.

(** The box of slot [i] of the frame row. *)
Definition frame_box (width : Z) (frames : list JsNumber) (numFrames : Z)
    (highlightType : option string) (highlightPage : option JsNumber)
    (i : nat) : Box :=
  mkBox (frameColor (frames !! i) highlightType highlightPage)
    (frame_x width numFrames i) (inject_Z 80) (inject_Z 80) (inject_Z 100).

(** The box of item [i] of the reference strip. *)
Definition reference_box (width : Z) (count : nat) (currentStep : Z)
    (i : nat) : Box :=
  mkBox (bgColor i currentStep) (reference_x width count i) (inject_Z 250)
    (inject_Z 40) (inject_Z 40).

(** The background rectangle. *)
Definition background (width height : Z) : Box :=
  mkBox "#0f172a" 0 0 (inject_Z width) (inject_Z height).

(** A box painted in one of the two highlight colours. *)
Definition highlighted (b : Box) : Prop :=
  box_color b = colors.frameHit \/ box_color b = colors.frameFault.

(** What slot [i] of the frame row shows: the page, or a grey dash. *)
Definition frame_content (width : Z) (frames : list JsNumber) (numFrames : Z)
    (i : nat) : Label :=
  let x := (frame_x width numFrames i + inject_Z 80 / 2)%Q in
  let y := (inject_Z 80 + inject_Z 100 / 2)%Q in
  match frames !! i with
  | Some pg => mkLabel colors.text (number_to_string pg) x y
  | None => mkLabel "#64748b" "-" x y
  end.

(** The caption under slot [i]. *)
Definition frame_caption (width : Z) (numFrames : Z) (i : nat) : Label :=
  mkLabel "#94a3b8" ("Frame " ++ number_to_string (Int (Z.of_nat i)))
    (frame_x width numFrames i + inject_Z 80 / 2)%Q
    (inject_Z 80 + inject_Z 100 + inject_Z 10)%Q.

(** [x ≤ N], for a double [x] and an integer [N]. *)
Definition double_le (x : Double) (N : Z) : Prop :=
  if 0 <=? exponent x then mantissa x * 2 ^ exponent x ≤ N
  else mantissa x ≤ N * 2 ^ (- exponent x).

(** * Properties *)

(** ** Basic facts about the primitive operations *)

Lemma same_value_zero_true (a b : JsNumber) :
  same_value_zero a b = true ↔ a = b.
Proof.
  destruct a, b; simpl; split; try congruence.
  - intros H. apply Z.eqb_eq in H. congruence.
  - intros [= ->]. apply Z.eqb_refl.
Qed.

Lemma includes_true (fs : list JsNumber) (p : JsNumber) :
  includes fs p = true ↔ p ∈ fs.
Proof.
  unfold includes. rewrite existsb_exists. split.
  - intros (x & Hx & Heq). apply same_value_zero_true in Heq. subst.
    by apply list_elem_of_In.
  - intros Hp. exists p. split; [by apply list_elem_of_In|].
    by apply same_value_zero_true.
Qed.

Lemma includes_false (fs : list JsNumber) (p : JsNumber) :
  includes fs p = false ↔ p ∉ fs.
Proof.
  rewrite <- includes_true. destruct (includes fs p); split; congruence.
Qed.

Lemma strict_eqb_int (x : JsNumber) (z : Z) :
  strict_eqb x (Int z) = true ↔ x = Int z.
Proof.
  destruct x; simpl; split; try congruence.
  - intros H. apply Z.eqb_eq in H. congruence.
  - intros [= ->]. apply Z.eqb_refl.
Qed.

Lemma strict_eqb_NaN_r (x : JsNumber) : strict_eqb x NaN = false.
Proof. by destruct x. Qed.

(** ** Projections of one step *)

Section ProcessPageFields.
Variables (s : Simulator) (p : JsNumber) (i : nat).

Lemma processPage_referenceString :
  referenceString (processPage s p i) = referenceString s.
Proof.
  unfold processPage. destruct (includes (frames s) p); simpl; [done|].
  destruct (_ <? _); simpl; [done|].
  by destruct (selectPageToReplace _ _ _).
Qed.

Lemma processPage_numFrames :
  numFrames (processPage s p i) = numFrames s.
Proof.
  unfold processPage. destruct (includes (frames s) p); simpl; [done|].
  destruct (_ <? _); simpl; [done|].
  by destruct (selectPageToReplace _ _ _).
Qed.

Lemma processPage_algorithm :
  algorithm (processPage s p i) = algorithm s.
Proof.
  unfold processPage. destruct (includes (frames s) p); simpl; [done|].
  destruct (_ <? _); simpl; [done|].
  by destruct (selectPageToReplace _ _ _).
Qed.

Lemma processPage_pageHits :
  pageHits (processPage s p i) =
  if includes (frames s) p then S (pageHits s) else pageHits s.
Proof.
  unfold processPage. destruct (includes (frames s) p); simpl; [done|].
  destruct (_ <? _); simpl; [done|].
  by destruct (selectPageToReplace _ _ _).
Qed.

Lemma processPage_pageFaults :
  pageFaults (processPage s p i) =
  if includes (frames s) p then pageFaults s else S (pageFaults s).
Proof.
  unfold processPage. destruct (includes (frames s) p); simpl; [done|].
  destruct (_ <? _); simpl; [done|].
  by destruct (selectPageToReplace _ _ _).
Qed.

Lemma processPage_frames :
  frames (processPage s p i) =
  if includes (frames s) p then frames s
  else if Z.of_nat (length (frames s)) <? numFrames s
       then frames s ++ [p]
       else store_frame (frames s)
              (indexOf (frames s)
                 (selectPageToReplace (dataStructures s) (frames s) i).1) p.
Proof.
  unfold processPage. destruct (includes (frames s) p); simpl; [done|].
  destruct (_ <? _); simpl; [done|].
  by destruct (selectPageToReplace _ _ _).
Qed.

Lemma processPage_dataStructures :
  dataStructures (processPage s p i) =
  if includes (frames s) p
  then updateDataStructures (dataStructures s) p true
  else if Z.of_nat (length (frames s)) <? numFrames s
       then updateDataStructures (dataStructures s) p false
       else updateDataStructures
              (selectPageToReplace (dataStructures s) (frames s) i).2 p false.
Proof.
  unfold processPage. destruct (includes (frames s) p); simpl; [done|].
  destruct (_ <? _); simpl; [done|].
  by destruct (selectPageToReplace _ _ _).
Qed.

Lemma processPage_history :
  history (processPage s p i) =
  history s ++
    [ Entry.mk i p (includes (frames s) p) (frames (processPage s p i))
        (json_clone (dataStructures (processPage s p i))) ].
Proof.
  unfold processPage. destruct (includes (frames s) p); simpl; [done|].
  destruct (_ <? _); simpl; [done|].
  by destruct (selectPageToReplace _ _ _).
Qed.
End ProcessPageFields.

Lemma store_frame_length (fs : list JsNumber) (ix : option nat) (p : JsNumber) :
  length (store_frame fs ix p) = length fs.
Proof. destruct ix; simpl; [apply length_insert|done]. Qed.

(** ** The loop of [simulate] *)

Lemma simulate_from_app (i : nat) (l1 l2 : list JsNumber) (s : Simulator) :
  simulate_from i (l1 ++ l2) s =
  simulate_from (i + length l1) l2 (simulate_from i l1 s).
Proof.
  revert i s. induction l1 as [|p l1 IH]; intros i s; simpl.
  - by rewrite Nat.add_0_r.
  - rewrite IH. f_equal. lia.
Qed.

(** An invariant indexed by the step counter is carried through the loop. *)
Lemma simulate_from_invariant (Q : JsNumber → Prop)
    (P : nat → Simulator → Prop) :
  (∀ i s p, Q p → P i s → P (S i) (processPage s p i)) →
  ∀ pages i s, Forall Q pages → P i s →
    P (i + length pages)%nat (simulate_from i pages s).
Proof.
  intros Hstep pages. induction pages as [|p pages IH]; intros i s HQ HP; simpl.
  - by rewrite Nat.add_0_r.
  - inversion HQ; subst.
    replace (i + S (length pages))%nat with (S i + length pages)%nat by lia.
    apply IH; [done|]. by apply Hstep.
Qed.

Lemma simulate_from_referenceString (pages : list JsNumber) (i : nat)
    (s : Simulator) :
  referenceString (simulate_from i pages s) = referenceString s.
Proof.
  revert i s. induction pages as [|p pages IH]; intros i s; simpl; [done|].
  by rewrite IH, processPage_referenceString.
Qed.

Lemma simulate_from_numFrames (pages : list JsNumber) (i : nat)
    (s : Simulator) :
  numFrames (simulate_from i pages s) = numFrames s.
Proof.
  revert i s. induction pages as [|p pages IH]; intros i s; simpl; [done|].
  by rewrite IH, processPage_numFrames.
Qed.

Lemma simulate_from_algorithm (pages : list JsNumber) (i : nat)
    (s : Simulator) :
  algorithm (simulate_from i pages s) = algorithm s.
Proof.
  revert i s. induction pages as [|p pages IH]; intros i s; simpl; [done|].
  by rewrite IH, processPage_algorithm.
Qed.

Lemma simulate_after_all_steps (s : Simulator) :
  simulate s = after_steps (length (referenceString s)) s.
Proof. unfold simulate, after_steps. by rewrite firstn_all. Qed.

(** ** Counters and history *)

Lemma simulate_from_counters (pages : list JsNumber) (i : nat) (s : Simulator) :
  let s' := simulate_from i pages s in
  (pageHits s' + pageFaults s' =
     pageHits s + pageFaults s + length pages)%nat ∧
  length (history s') = (length (history s) + length pages)%nat.
Proof.
  revert i s. induction pages as [|p pages IH]; intros i s; simpl.
  - lia.
  - destruct (IH (S i) (processPage s p i)) as [IH1 IH2].
    rewrite IH1, IH2.
    rewrite processPage_pageHits, processPage_pageFaults, processPage_history.
    rewrite length_app. simpl.
    destruct (includes (frames s) p); lia.
Qed.

Lemma simulate_history_length (s : Simulator) :
  length (history (simulate s)) =
  (length (history s) + length (referenceString s))%nat.
Proof.
  unfold simulate.
  by destruct (simulate_from_counters (referenceString s) 0 s) as [_ ->].
Qed.

(** C1.  At every point of a simulation the hit count plus the fault count
    is the number of step records written so far (which is the number of
    references processed), and when [simulate] returns the sum is the length
    of the parsed reference sequence. *)
Theorem hits_plus_faults_is_history_length
    (input : string) (numFrames : Z) (algorithm : string) :
  let s0 := constructor_ input numFrames algorithm in
  (∀ k : nat,
     let s := after_steps k s0 in
     (pageHits s + pageFaults s)%nat = length (history s) ∧
     length (history s) = (k `min` length (referenceString s0))%nat) ∧
  (pageHits (simulate s0) + pageFaults (simulate s0))%nat =
    length (referenceString (simulate s0)) ∧
  length (history (simulate s0)) = length (referenceString (simulate s0)).
Proof.
  intros s0. split; [|split].
  - intros k s. subst s. unfold after_steps.
    destruct (simulate_from_counters (take k (referenceString s0)) 0 s0)
      as [H1 H2].
    rewrite H1, H2, length_take. simpl. lia.
  - unfold simulate. rewrite simulate_from_referenceString.
    destruct (simulate_from_counters (referenceString s0) 0 s0) as [H1 _].
    rewrite H1. simpl. lia.
  - unfold simulate. rewrite simulate_from_referenceString.
    destruct (simulate_from_counters (referenceString s0) 0 s0) as [_ H2].
    rewrite H2. simpl. lia.
Qed.

(** ** The frame bound *)

Lemma processPage_frames_bounded (s : Simulator) (p : JsNumber) (i : nat) :
  0 ≤ numFrames s →
  frames_bounded (numFrames s) s →
  frames_bounded (numFrames s) (processPage s p i).
Proof.
  intros HF [Hlen Hhist].
  assert (Hnew : Z.of_nat (length (frames (processPage s p i))) ≤ numFrames s).
  { rewrite processPage_frames.
    destruct (includes (frames s) p); [done|].
    destruct (Z.ltb_spec (Z.of_nat (length (frames s))) (numFrames s)).
    - rewrite length_app. simpl. lia.
    - by rewrite store_frame_length. }
  split; [done|].
  rewrite processPage_history. apply Forall_app. split; [done|].
  by constructor.
Qed.

Lemma simulate_from_frames_bounded (pages : list JsNumber) (i : nat)
    (s : Simulator) :
  0 ≤ numFrames s →
  frames_bounded (numFrames s) s →
  frames_bounded (numFrames s) (simulate_from i pages s).
Proof.
  revert i s. induction pages as [|p pages IH]; intros i s HF Hb; simpl; [done|].
  rewrite <- (processPage_numFrames s p i).
  apply IH; rewrite processPage_numFrames; [done|].
  by apply processPage_frames_bounded.
Qed.

(** C2.  With a frame count [F >= 1], at every point of the simulation the
    live frames array holds at most [F] pages, and so does the frames
    snapshot of every step record written so far. *)
Theorem frames_never_exceed_frame_count
    (input : string) (F : Z) (algorithm : string) (k : nat) :
  1 ≤ F →
  let s := after_steps k (constructor_ input F algorithm) in
  Z.of_nat (length (frames s)) ≤ F ∧
  ∀ e, e ∈ history s → Z.of_nat (length (Entry.frames e)) ≤ F.
Proof.
  intros HF s.
  assert (Hb : frames_bounded F s).
  { subst s. unfold after_steps.
    apply (simulate_from_frames_bounded _ 0 (constructor_ input F algorithm)).
    - simpl. lia.
    - split; simpl; [lia|constructor]. }
  destruct Hb as [H1 H2]. split; [done|].
  intros e He. rewrite Forall_forall in H2. by apply H2.
Qed.

Lemma frames_never_exceed_frame_count_witness :
  let s := after_steps 7 (constructor_ "1,2,3,4,1,2,5,1,2,3,4,5" 3 "lru") in
  Z.of_nat (length (frames s)) ≤ 3 ∧
  ∀ e, e ∈ history s → Z.of_nat (length (Entry.frames e)) ≤ 3.
Proof.
  apply (frames_never_exceed_frame_count "1,2,3,4,1,2,5,1,2,3,4,5" 3 "lru" 7).
  lia.
Defined.

(** ** Belady's anomaly under FIFO *)

(** C5.  FIFO on the reference string 1,2,3,4,1,2,5,1,2,3,4,5 faults 9 times
    with 3 frames and 10 times with 4 frames. *)
Theorem fifo_belady_anomaly :
  pageFaults (simulate (constructor_ "1,2,3,4,1,2,5,1,2,3,4,5" 3 "fifo")) = 9%nat ∧
  pageFaults (simulate (constructor_ "1,2,3,4,1,2,5,1,2,3,4,5" 4 "fifo")) = 10%nat.
Proof. split; vm_compute; reflexivity. Qed.

(** ** Construction never throws *)

Lemma trim_start_chars_head (l : list ascii) :
  match trim_start_chars l with
  | [] => True
  | c :: _ => is_white_space c = false
  end.
Proof.
  induction l as [|c l IH]; simpl; [done|].
  destruct (is_white_space c) eqn:Hc; [done|]. simpl. done.
Qed.

Lemma trim_start_chars_suffix (l : list ascii) :
  ∃ pre, l = pre ++ trim_start_chars l.
Proof.
  induction l as [|c l [pre IH]]; simpl.
  - by exists [].
  - destruct (is_white_space c).
    + exists (c :: pre). simpl. by f_equal.
    + by exists [].
Qed.

Lemma trim_start_chars_fixed (l : list ascii) :
  match l with [] => True | c :: _ => is_white_space c = false end →
  trim_start_chars l = l.
Proof. destruct l as [|c l]; simpl; [done|]. by intros ->. Qed.

Lemma trim_chars_head (t : list ascii) :
  match trim_chars t with
  | [] => True
  | c :: _ => is_white_space c = false
  end.
Proof.
  unfold trim_chars.
  pose proof (trim_start_chars_head t) as Hhead.
  destruct (trim_start_chars_suffix (rev (trim_start_chars t))) as [pre Hpre].
  apply (f_equal (@rev ascii)) in Hpre.
  rewrite rev_involutive, rev_app_distr in Hpre.
  destruct (rev (trim_start_chars (rev (trim_start_chars t)))) as [|c l];
    [done|].
  simpl in Hpre. by rewrite Hpre in Hhead.
Qed.

Lemma trim_start_trim_chars (t : list ascii) :
  trim_start_chars (trim_chars t) = trim_chars t.
Proof. apply trim_start_chars_fixed, trim_chars_head. Qed.

Lemma digit_value_not_decimal (c : ascii) :
  is_decimal_digit c = false → digit_value 10 c = None.
Proof.
  unfold is_decimal_digit, digit_value. intros ->.
  destruct ((97 <=? char_code c) && (char_code c <=? 122)) eqn:H1.
  - apply andb_true_iff in H1 as [H1 H2].
    apply Z.leb_le in H1. apply Z.leb_le in H2.
    destruct (Z.ltb_spec (char_code c - 87) 10); [lia|done].
  - destruct ((65 <=? char_code c) && (char_code c <=? 90)) eqn:H2; [|done].
    apply andb_true_iff in H2 as [H2 H3].
    apply Z.leb_le in H2. apply Z.leb_le in H3.
    destruct (Z.ltb_spec (char_code c - 55) 10); [lia|done].
Qed.

Lemma digit_value_decimal (c : ascii) :
  is_decimal_digit c = true → digit_value 10 c = Some (char_code c - 48).
Proof.
  unfold is_decimal_digit, digit_value. intros H. rewrite H.
  apply andb_true_iff in H as [H1 H2].
  apply Z.leb_le in H1. apply Z.leb_le in H2.
  destruct (Z.ltb_spec (char_code c - 48) 10); [done|lia].
Qed.

Lemma parse_digits_acc_Some (radix a : Z) (l : list ascii) :
  is_Some (parse_digits radix (Some a) l).
Proof.
  revert a. induction l as [|c l IH]; intros a; simpl; [by eexists|].
  destruct (digit_value radix c); [apply IH|by eexists].
Qed.

(** What [parseInt] sees after white space and sign: radix ten unless the
    text opens with [0x] or [0X]. *)
Lemma parseInt_chars_trimmed (t : list ascii) :
  parseInt_chars (trim_chars t) =
  let s := trim_chars t in
  let sign := match s with
              | c :: _ => if Ascii.eqb c "-"%char then -1 else 1
              | [] => 1
              end in
  let s := strip_sign s in
  let '(radix, s) :=
    match s with
    | c0 :: cx :: s' =>
        if Ascii.eqb c0 "0"%char && (Ascii.eqb cx "x"%char || Ascii.eqb cx "X"%char)
        then (16, s') else (10, s)
    | _ => (10, s)
    end in
  match parse_digits radix None s with
  | Some v => Int (sign * v)
  | None => NaN
  end.
Proof.
  unfold parseInt_chars. rewrite trim_start_trim_chars.
  destruct (trim_chars t) as [|c l]; [done|]. simpl.
  destruct (Ascii.eqb c "-"%char); [done|].
  destruct (Ascii.eqb c "+"%char); done.
Qed.

Lemma parseInt_no_leading_digit (t : list ascii) :
  has_leading_digit t = false → parseInt_chars (trim_chars t) = NaN.
Proof.
  unfold has_leading_digit. rewrite parseInt_chars_trimmed. simpl.
  destruct (strip_sign (trim_chars t)) as [|c0 l]; [done|].
  intros Hc0.
  assert (Ascii.eqb c0 "0"%char = false) as Hz.
  { destruct (Ascii.eqb_spec c0 "0"%char) as [->|]; [|done].
    by vm_compute in Hc0. }
  assert (parse_digits 10 None (c0 :: l) = None) as Hp.
  { simpl. by rewrite digit_value_not_decimal. }
  destruct l as [|cx l]; [by rewrite Hp|].
  rewrite Hz. simpl andb. cbv iota. by rewrite Hp.
Qed.

Lemma parse_digits_decimal (l : list ascii) (acc : Z) :
  forallb is_decimal_digit l = true →
  parse_digits 10 (Some acc) l =
  Some (fold_left (fun acc c => acc * 10 + (char_code c - 48)) l acc).
Proof.
  revert acc. induction l as [|c l IH]; intros acc Hall; simpl; [done|].
  simpl in Hall. apply andb_true_iff in Hall as [Hc Hl].
  rewrite (digit_value_decimal _ Hc). simpl. by apply IH.
Qed.

Lemma parseInt_integer_token (t : list ascii) :
  is_integer_token t = true →
  parseInt_chars (trim_chars t) = Int (token_value t).
Proof.
  unfold is_integer_token, token_value. rewrite parseInt_chars_trimmed.
  cbv zeta.
  destruct (strip_sign (trim_chars t)) as [|c0 l]; [done|].
  intros Hall.
  assert (parse_digits 10 None (c0 :: l) =
          Some (fold_left (fun acc c => acc * 10 + (char_code c - 48))
                  (c0 :: l) 0)) as Hv.
  { pose proof Hall as Hall'. simpl in Hall'.
    apply andb_true_iff in Hall' as [Hc0 Hl].
    simpl. rewrite (digit_value_decimal _ Hc0). simpl.
    by apply parse_digits_decimal. }
  destruct l as [|cx l]; [by rewrite Hv|].
  assert (Ascii.eqb cx "x"%char || Ascii.eqb cx "X"%char = false) as Hx.
  { simpl in Hall. apply andb_true_iff in Hall as [_ Hl].
    apply andb_true_iff in Hl as [Hcx _].
    destruct (Ascii.eqb_spec cx "x"%char) as [->|]; [by vm_compute in Hcx|].
    destruct (Ascii.eqb_spec cx "X"%char) as [->|]; [by vm_compute in Hcx|].
    done. }
  rewrite Hx, andb_false_r. by rewrite Hv.
Qed.




(** ** Frame counts below one and unknown selectors *)

Lemma initializeAlgorithm_unknown (algorithm : string) (refs : list JsNumber) :
  ¬ known_algorithm algorithm → initializeAlgorithm algorithm refs = DsEmpty.
Proof.
  unfold known_algorithm, initializeAlgorithm. intros Hk.
  repeat match goal with
  | |- context [String.eqb algorithm ?x] =>
      destruct (String.eqb_spec algorithm x) as [->|_];
        [exfalso; apply Hk; set_solver|]
  end.
  done.
Qed.

(** With no frame to give out, nothing ever becomes resident. *)
Lemma simulate_from_no_frames (pages : list JsNumber) (i : nat) (s : Simulator) :
  numFrames s < 1 → frames s = [] →
  let s' := simulate_from i pages s in
  frames s' = [] ∧ pageHits s' = pageHits s ∧
  pageFaults s' = (pageFaults s + length pages)%nat.
Proof.
  revert i s. induction pages as [|p pages IH]; intros i s HF Hfs; simpl.
  - split; [done|]. split; [done|lia].
  - assert (Hfs' : frames (processPage s p i) = []).
    { apply nil_length_inv. rewrite processPage_frames, Hfs.
      change (includes [] p) with false. cbv iota.
      destruct (Z.ltb_spec (Z.of_nat (length (@nil JsNumber))) (numFrames s));
        [simpl in *; lia|].
      by rewrite store_frame_length. }
    destruct (IH (S i) (processPage s p i)) as (H1 & H2 & H3);
      [by rewrite processPage_numFrames|done|].
    rewrite H1, H2, H3.
    rewrite processPage_pageHits, processPage_pageFaults, Hfs. simpl.
    split; [done|]. split; [done|lia].
Qed.

Lemma processPage_DsEmpty (s : Simulator) (p : JsNumber) (i : nat) :
  dataStructures s = DsEmpty → dataStructures (processPage s p i) = DsEmpty.
Proof.
  intros H. rewrite processPage_dataStructures, H. simpl.
  by repeat case_match.
Qed.

Lemma simulate_from_DsEmpty (pages : list JsNumber) (i : nat) (s : Simulator) :
  dataStructures s = DsEmpty →
  dataStructures (simulate_from i pages s) = DsEmpty.
Proof.
  revert i s. induction pages as [|p pages IH]; intros i s H; simpl; [done|].
  by apply IH, processPage_DsEmpty.
Qed.

(** C8 as the specification states it fails: a frame count of 0 and the
    selector [random] are both accepted. *)
Lemma invalid_configuration_counterexample :
  (0 < 1 ∧
   new_PageReplacementSimulator "1,2,3" 0 "fifo" ≠
     Throw "InvalidConfigurationError" ∧
   ∃ s, new_PageReplacementSimulator "1,2,3" 0 "fifo" = Normal s ∧
        numFrames s = 0) ∧
  (¬ known_algorithm "random" ∧
   new_PageReplacementSimulator "1,2,3" 3 "random" ≠
     Throw "InvalidConfigurationError" ∧
   ∃ s, new_PageReplacementSimulator "1,2,3" 3 "random" = Normal s ∧
        algorithm s = "random").
Proof.
  split; (split; [|split]).
  - lia.
  - discriminate.
  - eexists. split; reflexivity.
  - unfold known_algorithm. intros H.
    repeat (apply elem_of_cons in H as [H|H]; [discriminate H|]).
    by apply elem_of_nil in H.
  - discriminate.
  - eexists. split; reflexivity.
Qed.

(** C8, amended.  Construction completes normally for every frame count and
    every algorithm selector, and the engine keeps both as given.  With a
    frame count below 1 no page ever becomes resident: the frame set stays
    empty and every reference is counted as a fault, at the end of the
    simulation and after every number of steps.  With a selector other than
    fifo, lru, optimal and clock no policy state is allocated, before,
    during or after the simulation. *)
Theorem construction_accepts_every_configuration
    (input : string) (F : Z) (selector : string) :
  ∃ s, new_PageReplacementSimulator input F selector = Normal s ∧
       numFrames s = F ∧ algorithm s = selector ∧
       (F < 1 →
          frames (simulate s) = [] ∧ pageHits (simulate s) = 0%nat ∧
          pageFaults (simulate s) = length (referenceString s) ∧
          ∀ k : nat,
            frames (after_steps k s) = [] ∧
            pageHits (after_steps k s) = 0%nat ∧
            pageFaults (after_steps k s)
            = Nat.min k (length (referenceString s))) ∧
       (¬ known_algorithm selector →
          dataStructures s = DsEmpty ∧
          dataStructures (simulate s) = DsEmpty ∧
          ∀ k : nat, dataStructures (after_steps k s) = DsEmpty).
Proof.
  eexists. split; [reflexivity|]. split; [done|]. split; [done|]. split.
  - intros HF. unfold simulate.
    destruct (simulate_from_no_frames
                (referenceString (constructor_ input F selector)) 0
                (constructor_ input F selector)) as (H1 & H2 & H3);
      [done|done|].
    rewrite H1, H2, H3. do 3 (split; [done|]).
    intros k. unfold after_steps.
    destruct (simulate_from_no_frames
                (take k (referenceString (constructor_ input F selector))) 0
                (constructor_ input F selector)) as (K1 & K2 & K3);
      [done|done|].
    rewrite K1, K2, K3, length_take. done.
  - intros Hk.
    assert (dataStructures (constructor_ input F selector) = DsEmpty) as H0.
    { simpl. by apply initializeAlgorithm_unknown. }
    split; [done|]. unfold simulate, after_steps.
    split; [by apply simulate_from_DsEmpty|].
    intros k. by apply simulate_from_DsEmpty.
Qed.

Lemma construction_accepts_every_configuration_witness :
  ∃ s, new_PageReplacementSimulator "1,2,1" 0 "random" = Normal s ∧
       numFrames s = 0 ∧ algorithm s = "random" ∧
       frames (simulate s) = [] ∧ pageHits (simulate s) = 0%nat ∧
       pageFaults (simulate s) = 3%nat ∧
       dataStructures (simulate s) = DsEmpty.
Proof.
  destruct (construction_accepts_every_configuration "1,2,1" 0 "random")
    as (s & Hnew & HF & Halg & Hlow & Hunknown).
  destruct Hlow as (Hfr & Hhits & Hfaults & _); [lia|].
  destruct Hunknown as (_ & Hds & _).
  { unfold known_algorithm. intros H.
    repeat (apply elem_of_cons in H as [H|H]; [discriminate H|]).
    by apply elem_of_nil in H. }
  exists s. do 5 (split; [done|]). split; [|done].
  rewrite Hfaults. injection Hnew as <-. reflexivity.
Defined.

(** ** The empty reference input *)

(** C9 fails on the engine: [split] turns the empty input into one empty
    token, which [parseInt] reads as [NaN]; whatever the frame count and the
    selector, the simulation then records one step and counts one fault. *)
Theorem empty_input_is_one_NaN_reference (F : Z) (selector : string) :
  let s0 := constructor_ "" F selector in
  let s := simulate s0 in
  referenceString s0 = [NaN] ∧
  pageFaults s = 1%nat ∧ pageHits s = 0%nat ∧
  length (history s) = 1%nat ∧
  getStatistics s = Statistics.mk 1 0 (RatioFixed2 0) 1.
Proof.
  intros s0 s. split; [reflexivity|].
  assert (Hf : pageFaults s = 1%nat).
  { subst s s0. unfold simulate. simpl referenceString. simpl simulate_from.
    by rewrite processPage_pageFaults. }
  assert (Hh : pageHits s = 0%nat).
  { subst s s0. unfold simulate. simpl referenceString. simpl simulate_from.
    by rewrite processPage_pageHits. }
  split; [done|]. split; [done|]. split.
  - subst s. by rewrite simulate_history_length.
  - unfold getStatistics. rewrite Hf, Hh. reflexivity.
Qed.

(** ** The clock scan *)

Lemma advance_pointer_nat (zn n : nat) :
  (0 < n)%nat →
  advance_pointer (Int (Z.of_nat zn)) n = Int (Z.of_nat ((zn + 1) mod n)).
Proof.
  intros Hn. destruct n as [|n']; [lia|]. unfold advance_pointer. f_equal.
  rewrite Z.rem_mod_nonneg by lia.
  rewrite Nat2Z.inj_mod. f_equal. lia.
Qed.

Lemma frame_at_nat (fs : list JsNumber) (zn : nat) :
  frame_at fs (Int (Z.of_nat zn)) = fs !! zn.
Proof.
  unfold frame_at. destruct (Z.leb_spec 0 (Z.of_nat zn)); [|lia].
  by rewrite Nat2Z.id.
Qed.

Lemma selectClockPage_loop_mono (fs : list JsNumber) (fuel fuel' : nat)
    (flags : gmap JsNumber bool) (ptr : JsNumber) r :
  selectClockPage_loop fuel fs flags ptr = Some r → (fuel ≤ fuel')%nat →
  selectClockPage_loop fuel' fs flags ptr = Some r.
Proof.
  revert fuel' flags ptr. induction fuel as [|fuel IH]; intros fuel' flags ptr;
    simpl; [done|].
  intros Hr Hle. destruct fuel' as [|fuel'']; [lia|]. simpl.
  destruct (frame_at fs ptr) as [q|]; [|done].
  destruct (default false (flags !! q)); [|done].
  apply IH; [done|lia].
Qed.

Lemma selectClockPage_loop_set (fuel : nat) (fs : list JsNumber)
    (flags : gmap JsNumber bool) (zn : nat) (q : JsNumber) :
  fs !! zn = Some q → default false (flags !! q) = true →
  selectClockPage_loop (S fuel) fs flags (Int (Z.of_nat zn)) =
  selectClockPage_loop fuel fs (<[q := false]> flags)
    (Int (Z.of_nat ((zn + 1) mod length fs))).
Proof.
  intros Hq Hflag.
  assert (0 < length fs)%nat by (apply lookup_lt_Some in Hq; lia).
  change (selectClockPage_loop (S fuel) fs flags (Int (Z.of_nat zn))) with
    (match frame_at fs (Int (Z.of_nat zn)) with
     | Some page =>
         if default false (flags !! page)
         then selectClockPage_loop fuel fs (<[page := false]> flags)
                (advance_pointer (Int (Z.of_nat zn)) (length fs))
         else Some (Some page, flags,
                    advance_pointer (Int (Z.of_nat zn)) (length fs))
     | None => Some (None, flags,
                     advance_pointer (Int (Z.of_nat zn)) (length fs))
     end).
  by rewrite frame_at_nat, Hq, Hflag, advance_pointer_nat.
Qed.

Lemma selectClockPage_loop_clear (fuel : nat) (fs : list JsNumber)
    (flags : gmap JsNumber bool) (zn : nat) (q : JsNumber) :
  fs !! zn = Some q → default false (flags !! q) = false →
  selectClockPage_loop (S fuel) fs flags (Int (Z.of_nat zn)) =
  Some (Some q, flags, Int (Z.of_nat ((zn + 1) mod length fs))).
Proof.
  intros Hq Hflag.
  assert (0 < length fs)%nat by (apply lookup_lt_Some in Hq; lia).
  change (selectClockPage_loop (S fuel) fs flags (Int (Z.of_nat zn))) with
    (match frame_at fs (Int (Z.of_nat zn)) with
     | Some page =>
         if default false (flags !! page)
         then selectClockPage_loop fuel fs (<[page := false]> flags)
                (advance_pointer (Int (Z.of_nat zn)) (length fs))
         else Some (Some page, flags,
                    advance_pointer (Int (Z.of_nat zn)) (length fs))
     | None => Some (None, flags,
                     advance_pointer (Int (Z.of_nat zn)) (length fs))
     end).
  by rewrite frame_at_nat, Hq, Hflag, advance_pointer_nat.
Qed.

Section ClockScan.
Variable fs : list JsNumber.
Let n := length fs.

(** The scan started at slot [zn], when the [c] slots before it are known
    to be clear: it inspects [k] set flags, [k] at most [n - c], and then
    stops at a clear one. *)
Lemma clock_scan_from (d : nat) :
  ∀ (c : nat) (flags : gmap JsNumber bool) (zn : nat),
  (c + d = n)%nat → (zn < n)%nat →
  (∀ j, (1 ≤ j ≤ c)%nat →
     ∃ q, fs !! ((zn + n - j) mod n)%nat = Some q ∧
          default false (flags !! q) = false) →
  ∃ (k : nat) (victim : JsNumber) (flags' : gmap JsNumber bool),
    (k ≤ d)%nat ∧
    selectClockPage_loop k fs flags (Int (Z.of_nat zn)) = None ∧
    selectClockPage_loop (S k) fs flags (Int (Z.of_nat zn)) =
      Some (Some victim, flags', Int (Z.of_nat ((zn + k + 1) mod n))) ∧
    fs !! ((zn + k) mod n)%nat = Some victim ∧
    default false (flags' !! victim) = false ∧
    (∀ j, (j < k)%nat →
       ∃ q, fs !! ((zn + j) mod n)%nat = Some q ∧
            flags !! q = Some true ∧ flags' !! q = Some false) ∧
    (∀ q, (∀ j, (j < k)%nat → fs !! ((zn + j) mod n)%nat ≠ Some q) →
       flags' !! q = flags !! q) ∧
    (∀ q, flags !! q = Some false → flags' !! q = Some false).
Proof.
  induction d as [|d IH]; intros c flags zn Hcd Hzn Hclear.
  - destruct (Hclear n) as (q & Hq & Hflag); [lia|].
    replace (zn + n - n)%nat with zn in Hq by lia.
    rewrite Nat.mod_small in Hq by done.
    exists 0%nat, q, flags. split; [lia|]. split; [done|].
    rewrite Nat.add_0_r. split.
    { by rewrite (selectClockPage_loop_clear _ _ _ _ q). }
    rewrite Nat.mod_small by done.
    split; [done|]. split; [done|]. split; [intros j; lia|]. done.
  - destruct (lookup_lt_is_Some_2 fs zn) as [q Hq]; [done|].
    destruct (default false (flags !! q)) eqn:Hflag.
    + assert (flags !! q = Some true) as Hset.
      { destruct (flags !! q) as [[]|]; simpl in Hflag; congruence. }
      set (flags1 := <[q := false]> flags).
      set (zn1 := ((zn + 1) mod n)%nat).
      assert (Hzn1 : (zn1 < n)%nat) by (apply Nat.mod_upper_bound; lia).
      assert (Hshift : ∀ a, ((zn1 + a) mod n = (zn + 1 + a) mod n)%nat).
      { intros a. unfold zn1. apply Nat.Div0.add_mod_idemp_l. }
      destruct (IH (S c) flags1 zn1) as
        (k & victim & flags' & Hk & Hnone & Hsome & Hvic & Hvclear
           & Hinsp & Hrest & Hmono); [lia|done| |].
      { intros j Hj.
        replace (zn1 + n - j)%nat with (zn1 + (n - j))%nat by lia.
        rewrite Hshift.
        destruct (decide (j = 1%nat)) as [->|Hj1].
        - replace (zn + 1 + (n - 1))%nat with (zn + 1 * n)%nat by lia.
          rewrite Nat.Div0.mod_add, Nat.mod_small by done.
          exists q. split; [done|]. unfold flags1.
          by rewrite lookup_insert_eq.
        - destruct (Hclear (j - 1)%nat) as (q' & Hq' & Hc'); [lia|].
          replace (zn + 1 + (n - j))%nat with (zn + n - (j - 1))%nat by lia.
          exists q'. split; [done|]. unfold flags1.
          destruct (decide (q = q')) as [->|Hne].
          + by rewrite lookup_insert_eq.
          + by rewrite lookup_insert_ne. }
      exists (S k), victim, flags'. split; [lia|].
      assert (Hstep : ∀ fuel,
        selectClockPage_loop (S fuel) fs flags (Int (Z.of_nat zn)) =
        selectClockPage_loop fuel fs flags1 (Int (Z.of_nat zn1))).
      { intros fuel. by rewrite (selectClockPage_loop_set _ _ _ _ q). }
      split; [by rewrite Hstep|]. split.
      { rewrite Hstep, Hsome.
        replace (zn1 + k + 1)%nat with (zn1 + (k + 1))%nat by lia.
        rewrite Hshift.
        by replace (zn + S k + 1)%nat with (zn + 1 + (k + 1))%nat by lia. }
      split.
      { rewrite <- Hvic, Hshift.
        by replace (zn + S k)%nat with (zn + 1 + k)%nat by lia. }
      split; [done|]. split; [|split].
      * intros j Hj. destruct j as [|j].
        { rewrite Nat.add_0_r, Nat.mod_small by done.
          exists q. split; [done|]. split; [done|].
          apply Hmono. unfold flags1. by rewrite lookup_insert_eq. }
        destruct (Hinsp j) as (q' & Hq' & Hset' & Hclr'); [lia|].
        exists q'. rewrite Hshift in Hq'.
        replace (zn + S j)%nat with (zn + 1 + j)%nat by lia.
        split; [done|]. split; [|done].
        unfold flags1 in Hset'.
        destruct (decide (q = q')) as [->|Hne].
        { by rewrite lookup_insert_eq in Hset'. }
        by rewrite lookup_insert_ne in Hset'.
      * intros q' Hnot.
        assert (q ≠ q') as Hne.
        { intros ->. apply (Hnot 0%nat); [lia|].
          by rewrite Nat.add_0_r, Nat.mod_small. }
        rewrite Hrest.
        { unfold flags1. by rewrite lookup_insert_ne. }
        intros j Hj. rewrite Hshift.
        replace (zn + 1 + j)%nat with (zn + S j)%nat by lia.
        apply Hnot. lia.
      * intros q' Hq'. apply Hmono. unfold flags1.
        destruct (decide (q = q')) as [->|Hne].
        { by rewrite lookup_insert_eq. }
        by rewrite lookup_insert_ne.
    + exists 0%nat, q, flags. split; [lia|]. split; [done|].
      rewrite Nat.add_0_r. split.
      { by rewrite (selectClockPage_loop_clear _ _ _ _ q). }
      rewrite Nat.mod_small by done.
      split; [done|]. split; [done|]. split; [intros j; lia|]. done.
Qed.

(** The loop always ends within [n + 1] inspections. *)
Lemma selectClockPage_loop_total (flags : gmap JsNumber bool)
    (ptr : JsNumber) :
  is_Some (selectClockPage_loop (S n) fs flags ptr).
Proof.
  destruct ptr as [|z]; [by eexists|].
  destruct (Z.leb_spec 0 z) as [Hz|Hz].
  - destruct (decide (Z.to_nat z < n)%nat) as [Hlt|Hge].
    + destruct (clock_scan_from n 0 flags (Z.to_nat z))
        as (k & v & fl & Hk & _ & Hsome & _); [lia|done|intros j; lia|].
      rewrite Z2Nat.id in Hsome by done.
      eexists. eapply selectClockPage_loop_mono; [exact Hsome|lia].
    + simpl. unfold frame_at. destruct (Z.leb_spec 0 z); [|lia].
      rewrite lookup_ge_None_2 by (fold n; lia). by eexists.
  - simpl. unfold frame_at. destruct (Z.leb_spec 0 z); [lia|]. by eexists.
Qed.

Lemma selectClockPage_of_loop (fuel : nat) (flags : gmap JsNumber bool)
    (ptr : JsNumber) r :
  selectClockPage_loop fuel fs flags ptr = Some r →
  selectClockPage fs flags ptr = r.
Proof.
  intros Hr. unfold selectClockPage. fold n.
  destruct (selectClockPage_loop_total flags ptr) as [r' Hr'].
  rewrite Hr'. simpl.
  destruct (Nat.le_ge_cases fuel (S n)) as [Hle|Hge].
  - pose proof (selectClockPage_loop_mono _ _ _ _ _ _ Hr Hle). congruence.
  - pose proof (selectClockPage_loop_mono _ _ _ _ _ _ Hr' Hge). congruence.
Qed.
End ClockScan.

(** ** Invariants of the frame set *)

Lemma NoDup_list_insert (l : list JsNumber) (k : nat) (p : JsNumber) :
  NoDup l → p ∉ l → NoDup (<[k := p]> l).
Proof.
  revert k. induction l as [|x l IH]; intros k Hnd Hp; [done|].
  apply NoDup_cons in Hnd as [Hx Hnd].
  apply not_elem_of_cons in Hp as [Hpx Hp].
  destruct k as [|k]; simpl.
  - apply NoDup_cons. done.
  - apply NoDup_cons. split; [|by apply IH].
    intros Hin. apply list_elem_of_lookup in Hin as [j Hj].
    destruct (decide (j = k)) as [->|Hne].
    + destruct (decide (k < length l)%nat).
      * rewrite list_lookup_insert_eq in Hj by done. congruence.
      * rewrite list_insert_ge in Hj by lia.
        apply Hx. apply list_elem_of_lookup. eauto.
    + rewrite list_lookup_insert_ne in Hj by done.
      apply Hx. apply list_elem_of_lookup. eauto.
Qed.

Lemma elem_of_list_insert_iff (l : list JsNumber) (k : nat) (p v x : JsNumber) :
  NoDup l → l !! k = Some v →
  x ∈ <[k := p]> l ↔ x = p ∨ (x ∈ l ∧ x ≠ v).
Proof.
  intros Hnd Hk.
  assert (Hlt : (k < length l)%nat) by (by eapply lookup_lt_Some).
  split.
  - intros Hin. apply list_elem_of_lookup in Hin as [j Hj].
    destruct (decide (j = k)) as [->|Hne].
    + rewrite list_lookup_insert_eq in Hj by done. left. congruence.
    + rewrite list_lookup_insert_ne in Hj by done. right.
      split; [apply list_elem_of_lookup; eauto|].
      intros ->. apply Hne. by eapply NoDup_lookup.
  - intros [->|[Hin Hne]].
    + by apply list_elem_of_insert.
    + apply list_elem_of_lookup in Hin as [j Hj].
      apply list_elem_of_lookup. exists j.
      rewrite list_lookup_insert_ne; [done|]. intros ->. congruence.
Qed.

Lemma indexOf_from_Some (fs : list JsNumber) (i : nat) (z : Z) :
  Int z ∈ fs →
  ∃ k, indexOf_from i fs (Int z) = Some (i + k)%nat ∧ fs !! k = Some (Int z) ∧
       ∀ j, (j < k)%nat → fs !! j ≠ Some (Int z).
Proof.
  revert i. induction fs as [|x fs IH]; intros i Hin.
  - by apply elem_of_nil in Hin.
  - simpl. destruct (strict_eqb x (Int z)) eqn:Heq.
    + apply strict_eqb_int in Heq as ->. exists 0%nat.
      split; [f_equal; lia|]. split; [done|]. intros j; lia.
    + apply elem_of_cons in Hin as [<-|Hin].
      { simpl in Heq. by rewrite Z.eqb_refl in Heq. }
      destruct (IH (S i) Hin) as (k & Hk & Hlook & Hfirst).
      exists (S k). split; [rewrite Hk; f_equal; lia|]. split; [done|].
      intros [|j] Hj; simpl.
      * intros [= ->]. simpl in Heq. by rewrite Z.eqb_refl in Heq.
      * apply Hfirst. lia.
Qed.

(** A victim that is an integer page of the frame set is found by
    [indexOf], at its first (and, without duplicates, only) slot. *)
Lemma indexOf_resident (fs : list JsNumber) (v : JsNumber) :
  is_int v → v ∈ fs →
  ∃ k, indexOf fs (Some v) = Some k ∧ fs !! k = Some v ∧
       ∀ j, (j < k)%nat → fs !! j ≠ Some v.
Proof.
  intros Hint Hin. destruct v as [|z]; [done|].
  destruct (indexOf_from_Some fs 0 z Hin) as (k & Hk & ?).
  exists k. by split.
Qed.

Lemma frames_inv_init (refs : list JsNumber) (F : Z) (alg : string) :
  0 ≤ F → frames_inv F 0 (make_simulator refs F alg).
Proof.
  intros HF. split; simpl; [done|constructor|constructor|lia|constructor].
Qed.

Lemma processPage_frames_inv (F : Z) (i : nat) (s : Simulator) (p : JsNumber) :
  is_int p → frames_inv F i s → frames_inv F (S i) (processPage s p i).
Proof.
  intros Hp [HF Hnd Hint Hlen Hsteps]. split.
  - by rewrite processPage_numFrames.
  - rewrite processPage_frames.
    destruct (includes (frames s) p) eqn:Hinc; [done|].
    apply includes_false in Hinc.
    destruct (_ <? _).
    + apply NoDup_app. split; [done|]. split; [|apply NoDup_singleton].
      intros x Hx Hxp. apply list_elem_of_singleton in Hxp. by subst.
    + destruct (indexOf _ _); simpl; [|done]. by apply NoDup_list_insert.
  - rewrite processPage_frames.
    destruct (includes (frames s) p); [done|].
    destruct (_ <? _).
    + apply Forall_app. split; [done|]. by constructor.
    + destruct (indexOf _ _); simpl; [|done]. by apply Forall_insert.
  - rewrite processPage_frames.
    destruct (includes (frames s) p); [done|].
    destruct (Z.ltb_spec (Z.of_nat (length (frames s))) (numFrames s)).
    + rewrite length_app. simpl. lia.
    + by rewrite store_frame_length.
  - unfold steps_below. rewrite processPage_history.
    apply Forall_app. split.
    + eapply Forall_impl; [exact Hsteps|]. simpl. intros; lia.
    + constructor; [simpl; lia|constructor].
Qed.

(** A fault on a full frame set whose victim is an integer resident page
    overwrites the victim's slot. *)
Lemma processPage_replaces (F : Z) (i : nat) (s : Simulator)
    (p v : JsNumber) :
  frames_inv F i s →
  includes (frames s) p = false →
  ¬ Z.of_nat (length (frames s)) < F →
  (selectPageToReplace (dataStructures s) (frames s) i).1 = Some v →
  v ∈ frames s →
  ∃ k, frames s !! k = Some v ∧
       (∀ j, (j < k)%nat → frames s !! j ≠ Some v) ∧
       frames (processPage s p i) = <[k := p]> (frames s).
Proof.
  intros [HF Hnd Hint Hlen Hsteps] Hinc Hfull Hv Hin.
  assert (is_int v) as Hvint by (rewrite Forall_forall in Hint; by apply Hint).
  destruct (indexOf_resident _ _ Hvint Hin) as (k & Hix & Hk & Hfirst).
  exists k. split; [done|]. split; [done|].
  rewrite processPage_frames, Hinc.
  destruct (Z.ltb_spec (Z.of_nat (length (frames s))) (numFrames s)); [lia|].
  by rewrite Hv, Hix.
Qed.

(** ** Times of insertion and of last access, read off the history *)

Lemma last_step_where_snoc (f : Entry.t → bool) (h : list Entry.t)
    (e : Entry.t) :
  last_step_where f (h ++ [e]) =
  if f e then Some (Entry.step e) else last_step_where f h.
Proof.
  unfold last_step_where. rewrite List.filter_app. simpl.
  destruct (f e).
  - by rewrite last_snoc.
  - by rewrite app_nil_r.
Qed.

Lemma last_step_where_below (f : Entry.t → bool) (h : list Entry.t)
    (i t : nat) :
  steps_below i h → last_step_where f h = Some t → (t < i)%nat.
Proof.
  unfold last_step_where, steps_below. intros Hall Hlast.
  destruct (last (List.filter f h)) as [e|] eqn:He; [|done].
  simpl in Hlast. injection Hlast as <-.
  apply last_Some_elem_of in He. apply list_elem_of_In in He.
  apply List.filter_In in He as [He _]. apply list_elem_of_In in He.
  rewrite Forall_forall in Hall. by apply Hall.
Qed.

Lemma StronglySorted_impl_elem (R R' : JsNumber → JsNumber → Prop)
    (l : list JsNumber) :
  (∀ a b, a ∈ l → b ∈ l → R a b → R' a b) →
  StronglySorted R l → StronglySorted R' l.
Proof.
  induction l as [|x l IH]; intros Himp Hs; [constructor|].
  apply StronglySorted_inv in Hs as [Hs Hx]. constructor.
  - apply IH; [|done]. intros a b Ha Hb. apply Himp; by right.
  - rewrite Forall_forall in Hx. apply Forall_forall. intros b Hb.
    apply Himp; [by left|by right|]. by apply Hx.
Qed.

Lemma StronglySorted_list_filter (R : JsNumber → JsNumber → Prop)
    (f : JsNumber → bool) (l : list JsNumber) :
  StronglySorted R l → StronglySorted R (List.filter f l).
Proof.
  induction l as [|x l IH]; intros Hs; simpl; [constructor|].
  apply StronglySorted_inv in Hs as [Hs Hx].
  destruct (f x); [|by apply IH].
  constructor; [by apply IH|].
  rewrite Forall_forall in Hx. apply Forall_forall. intros b Hb.
  apply Hx. apply list_elem_of_In in Hb. apply List.filter_In in Hb as [Hb _].
  by apply list_elem_of_In.
Qed.

Lemma NoDup_list_filter (f : JsNumber → bool) (l : list JsNumber) :
  NoDup l → NoDup (List.filter f l).
Proof.
  induction l as [|x l IH]; intros Hnd; simpl; [constructor|].
  apply NoDup_cons in Hnd as [Hx Hnd].
  destruct (f x); [|by apply IH].
  apply NoDup_cons. split; [|by apply IH].
  intros Hin. apply Hx. apply list_elem_of_In in Hin.
  apply List.filter_In in Hin as [Hin _]. by apply list_elem_of_In.
Qed.

Lemma elem_of_list_filter_ne (l : list JsNumber) (p x : JsNumber) :
  is_int p →
  x ∈ List.filter (fun q => negb (strict_eqb q p)) l ↔ x ∈ l ∧ x ≠ p.
Proof.
  intros Hp. destruct p as [|z]; [done|].
  rewrite list_elem_of_In, List.filter_In, <- list_elem_of_In.
  rewrite negb_true_iff.
  split; intros [H1 H2]; (split; [done|]).
  - intros ->. simpl in H2. by rewrite Z.eqb_refl in H2.
  - destruct (strict_eqb x (Int z)) eqn:Heq; [|done].
    by apply strict_eqb_int in Heq.
Qed.

(** Appending the page referenced at step [i] to a list in time order keeps
    the list in time order. *)
Lemma time_order_snoc (t t' : JsNumber → option nat) (l : list JsNumber)
    (p : JsNumber) (i : nat) :
  (∀ x, x ≠ p → t' x = t x) → t' p = Some i →
  (∀ x ta, t x = Some ta → (ta < i)%nat) →
  p ∉ l →
  StronglySorted (earlier t) l → Forall (fun a => is_Some (t a)) l →
  StronglySorted (earlier t') (l ++ [p]) ∧
  Forall (fun a => is_Some (t' a)) (l ++ [p]).
Proof.
  intros Hother Hp Hbelow Hnotin Hsorted Htimes.
  rewrite Forall_forall in Htimes.
  assert (∀ x, x ∈ l → x ≠ p) as Hne by (intros x Hx ->; done).
  split.
  - apply StronglySorted_app_2.
    + intros x1 x2 Hx1 Hx2. apply list_elem_of_singleton in Hx2 as ->.
      destruct (Htimes x1 Hx1) as [ta Hta].
      exists ta, i. rewrite Hother by auto. split; [done|]. split; [done|].
      by eapply Hbelow.
    + eapply StronglySorted_impl_elem; [|exact Hsorted].
      intros a b Ha Hb (ta & tb & H1 & H2 & H3). exists ta, tb.
      rewrite !Hother by auto. done.
    + repeat constructor.
  - apply Forall_app. split.
    + apply Forall_forall. intros x Hx. rewrite Hother by auto. auto.
    + constructor; [by rewrite Hp|constructor].
Qed.

(** ** FIFO: the insertion queue *)

Lemma inserted_at_step (s : Simulator) (p x : JsNumber) (i : nat) :
  inserted_at (history (processPage s p i)) x =
  if negb (includes (frames s) p) && bool_decide (p = x)
  then Some i else inserted_at (history s) x.
Proof.
  unfold inserted_at. by rewrite processPage_history, last_step_where_snoc.
Qed.

Lemma last_access_step (s : Simulator) (p x : JsNumber) (i : nat) :
  last_access (history (processPage s p i)) x =
  if bool_decide (p = x) then Some i else last_access (history s) x.
Proof.
  unfold last_access. by rewrite processPage_history, last_step_where_snoc.
Qed.

Lemma full_frames_nonempty (F : Z) (s : Simulator) :
  1 ≤ F → ¬ Z.of_nat (length (frames s)) < F → ∃ x, x ∈ frames s.
Proof.
  intros HF Hfull. destruct (frames s) as [|x l]; [simpl in Hfull; lia|].
  exists x. by left.
Qed.

Lemma processPage_fifo_inv (F : Z) (i : nat) (s : Simulator) (p : JsNumber) :
  1 ≤ F → is_int p → frames_inv F i s → fifo_inv s →
  fifo_inv (processPage s p i).
Proof.
  intros HF Hp Hinv (q & Hds & Hndq & Hmem & Hsorted & Htimes).
  pose proof Hinv as [HnF Hnd Hint Hlen Hsteps].
  unfold fifo_inv.
  rewrite processPage_dataStructures, Hds.
  destruct (includes (frames s) p) eqn:Hinc.
  - (* hit: the queue is left alone *)
    exists q. split; [reflexivity|]. split; [done|].
    rewrite processPage_frames, Hinc. split; [done|].
    assert (∀ x, inserted_at (history (processPage s p i)) x =
                 inserted_at (history s) x) as Hsame.
    { intros x. by rewrite inserted_at_step, Hinc. }
    split.
    + eapply StronglySorted_impl_elem; [|exact Hsorted].
      intros a b _ _ (ta & tb & ?). exists ta, tb. by rewrite !Hsame.
    + eapply Forall_impl; [exact Htimes|]. intros a. by rewrite Hsame.
  - (* fault: the page is queued, after the head has left if it was evicted *)
    pose proof Hinc as Hnotin. apply includes_false in Hnotin.
    assert (Hnew : ∃ q0,
      (if Z.of_nat (length (frames s)) <? numFrames s
       then updateDataStructures (DsFifo q) p false
       else updateDataStructures
              (selectPageToReplace (DsFifo q) (frames s) i).2 p false)
      = DsFifo (q0 ++ [p]) ∧
      NoDup q0 ∧ (p ∉ q0) ∧
      StronglySorted (earlier (inserted_at (history s))) q0 ∧
      Forall (fun a => is_Some (inserted_at (history s) a)) q0 ∧
      ∀ x, x ∈ q0 ++ [p] ↔ x ∈ frames (processPage s p i)).
    { destruct (Z.ltb_spec (Z.of_nat (length (frames s))) (numFrames s))
        as [Hfree|Hfull].
      - exists q. split; [reflexivity|]. split; [done|].
        split; [by rewrite Hmem|]. split; [done|]. split; [done|].
        intros x. rewrite processPage_frames, Hinc.
        destruct (Z.ltb_spec (Z.of_nat (length (frames s))) (numFrames s));
          [|lia].
        rewrite !elem_of_app, Hmem. done.
      - assert (¬ Z.of_nat (length (frames s)) < F) as Hfull' by lia.
        destruct (full_frames_nonempty F s HF Hfull') as [y Hy].
        destruct q as [|v q'].
        { apply Hmem in Hy. by apply elem_of_nil in Hy. }
        apply NoDup_cons in Hndq as [Hvq Hndq'].
        apply StronglySorted_inv in Hsorted as [Hsorted' _].
        apply Forall_cons in Htimes as [_ Htimes'].
        destruct (processPage_replaces F i s p v Hinv Hinc Hfull')
          as (k & Hk & _ & Hfr).
        { by rewrite Hds. }
        { apply Hmem. by left. }
        exists q'. split; [reflexivity|]. split; [done|].
        split.
        { intros Hpq. apply Hnotin, Hmem. by right. }
        split; [done|]. split; [done|].
        intros x. rewrite Hfr, (elem_of_list_insert_iff _ _ _ v) by done.
        rewrite elem_of_app, list_elem_of_singleton, <- Hmem, elem_of_cons.
        split.
        + intros [Hx| ->]; [|by left]. right.
          split; [by right|]. intros ->. done.
        + intros [->|[[->|Hx] Hne]]; [by right|done|by left]. }
    destruct Hnew as (q0 & -> & Hnd0 & Hp0 & Hs0 & Ht0 & Hmem0).
    exists (q0 ++ [p]). split; [done|]. split.
    { apply NoDup_app. split; [done|]. split; [|apply NoDup_singleton].
      intros x Hx Hxp. apply list_elem_of_singleton in Hxp. by subst. }
    split; [done|].
    apply (time_order_snoc (inserted_at (history s)) _ _ _ i); try done.
    + intros x Hx. rewrite inserted_at_step.
      rewrite bool_decide_eq_false_2 by done. by rewrite andb_false_r.
    + rewrite inserted_at_step, Hinc. by rewrite bool_decide_eq_true_2.
    + intros x ta. by apply last_step_where_below.
Qed.

(** ** LRU: the recency list *)

Lemma processPage_lru_inv (F : Z) (i : nat) (s : Simulator) (p : JsNumber) :
  1 ≤ F → is_int p → frames_inv F i s → lru_inv s →
  lru_inv (processPage s p i).
Proof.
  intros HF Hp Hinv (l & Hds & Hndl & Hmem & Hsorted & Htimes).
  pose proof Hinv as [HnF Hnd Hint Hlen Hsteps].
  unfold lru_inv.
  rewrite processPage_dataStructures, Hds.
  set (keep := fun q => negb (strict_eqb q p)).
  assert (Hnew : ∃ l0,
    (if includes (frames s) p
     then updateDataStructures (DsLru l) p true
     else if Z.of_nat (length (frames s)) <? numFrames s
          then updateDataStructures (DsLru l) p false
          else updateDataStructures
                 (selectPageToReplace (DsLru l) (frames s) i).2 p false)
    = DsLru (List.filter keep l0 ++ [p]) ∧
    NoDup l0 ∧
    StronglySorted (earlier (last_access (history s))) l0 ∧
    Forall (fun a => is_Some (last_access (history s) a)) l0 ∧
    ∀ x, x ∈ List.filter keep l0 ++ [p] ↔ x ∈ frames (processPage s p i)).
  { destruct (includes (frames s) p) eqn:Hinc.
    - exists l. split; [reflexivity|]. split; [done|]. split; [done|].
      split; [done|].
      intros x. rewrite processPage_frames, Hinc.
      apply includes_true in Hinc.
      rewrite elem_of_app, list_elem_of_singleton.
      unfold keep. rewrite elem_of_list_filter_ne by done. rewrite Hmem.
      destruct (decide (x = p)) as [->|Hne]; tauto.
    - pose proof Hinc as Hinc'. apply includes_false in Hinc.
      destruct (Z.ltb_spec (Z.of_nat (length (frames s))) (numFrames s))
        as [Hfree|Hfull].
      + exists l. split; [reflexivity|]. split; [done|]. split; [done|].
        split; [done|].
        intros x. rewrite processPage_frames, Hinc'.
        destruct (Z.ltb_spec (Z.of_nat (length (frames s))) (numFrames s));
          [|lia].
        rewrite !elem_of_app, list_elem_of_singleton.
        unfold keep. rewrite elem_of_list_filter_ne by done. rewrite Hmem.
        destruct (decide (x = p)) as [->|Hne]; tauto.
      + assert (¬ Z.of_nat (length (frames s)) < F) as Hfull' by lia.
        destruct (full_frames_nonempty F s HF Hfull') as [y Hy].
        destruct l as [|v l'].
        { apply Hmem in Hy. by apply elem_of_nil in Hy. }
        apply NoDup_cons in Hndl as [Hvl Hndl'].
        apply StronglySorted_inv in Hsorted as [Hsorted' _].
        apply Forall_cons in Htimes as [_ Htimes'].
        destruct (processPage_replaces F i s p v Hinv Hinc' Hfull')
          as (k & Hk & _ & Hfr).
        { by rewrite Hds. }
        { apply Hmem. by left. }
        exists l'. split; [reflexivity|]. split; [done|]. split; [done|].
        split; [done|].
        intros x. rewrite Hfr.
        rewrite (elem_of_list_insert_iff _ _ _ v) by done.
        rewrite elem_of_app, list_elem_of_singleton.
        unfold keep. rewrite elem_of_list_filter_ne by done.
        rewrite <- Hmem, elem_of_cons.
        split.
        * intros [[Hx Hne]| ->]; [|by left]. right.
          split; [by right|]. intros ->. done.
        * intros [->|[[->|Hx] Hne]]; [by right|done|].
          destruct (decide (x = p)) as [->|]; [by right|by left]. }
  destruct Hnew as (l0 & -> & Hnd0 & Hs0 & Ht0 & Hmem0).
  assert (p ∉ List.filter keep l0) as Hp0.
  { unfold keep. rewrite elem_of_list_filter_ne by done. tauto. }
  exists (List.filter keep l0 ++ [p]). split; [done|]. split.
  { apply NoDup_app. split; [by apply NoDup_list_filter|].
    split; [|apply NoDup_singleton].
    intros x Hx Hxp. apply list_elem_of_singleton in Hxp. by subst. }
  split; [done|].
  apply (time_order_snoc (last_access (history s)) _ _ _ i); try done.
  - intros x Hx. rewrite last_access_step.
    by rewrite bool_decide_eq_false_2.
  - rewrite last_access_step. by rewrite bool_decide_eq_true_2.
  - intros x ta. by apply last_step_where_below.
  - by apply StronglySorted_list_filter.
  - apply Forall_forall. intros x Hx. rewrite Forall_forall in Ht0.
    apply Ht0. apply list_elem_of_In in Hx.
    apply List.filter_In in Hx as [Hx _]. by apply list_elem_of_In.
Qed.

Lemma initializeAlgorithm_fifo (refs : list JsNumber) :
  initializeAlgorithm "fifo" refs = DsFifo [].
Proof. reflexivity. Qed.

Lemma initializeAlgorithm_lru (refs : list JsNumber) :
  initializeAlgorithm "lru" refs = DsLru [].
Proof. reflexivity. Qed.

Lemma initializeAlgorithm_optimal (refs : list JsNumber) :
  initializeAlgorithm "optimal" refs = DsOptimal (calculateFutureReferences refs).
Proof. reflexivity. Qed.

Lemma initializeAlgorithm_clock (refs : list JsNumber) :
  initializeAlgorithm "clock" refs = DsClock ∅ (Int 0).
Proof. reflexivity. Qed.

Lemma simulate_from_fifo_inv (F : Z) (pages : list JsNumber) (i : nat)
    (s : Simulator) :
  1 ≤ F → Forall is_int pages → frames_inv F i s → fifo_inv s →
  frames_inv F (i + length pages) (simulate_from i pages s) ∧
  fifo_inv (simulate_from i pages s).
Proof.
  intros HF Hint Hinv Hfifo.
  apply (simulate_from_invariant is_int
           (fun i s => frames_inv F i s ∧ fifo_inv s)); [|done|done].
  intros j s' p Hp [H1 H2]. split.
  - by apply processPage_frames_inv.
  - by eapply processPage_fifo_inv.
Qed.

Lemma simulate_from_lru_inv (F : Z) (pages : list JsNumber) (i : nat)
    (s : Simulator) :
  1 ≤ F → Forall is_int pages → frames_inv F i s → lru_inv s →
  frames_inv F (i + length pages) (simulate_from i pages s) ∧
  lru_inv (simulate_from i pages s).
Proof.
  intros HF Hint Hinv Hlru.
  apply (simulate_from_invariant is_int
           (fun i s => frames_inv F i s ∧ lru_inv s)); [|done|done].
  intros j s' p Hp [H1 H2]. split.
  - by apply processPage_frames_inv.
  - by eapply processPage_lru_inv.
Qed.

Lemma fifo_inv_init (refs : list JsNumber) (F : Z) :
  fifo_inv (make_simulator refs F "fifo").
Proof.
  exists []. simpl. split; [done|]. split; [constructor|].
  split; [done|]. split; constructor.
Qed.

Lemma lru_inv_init (refs : list JsNumber) (F : Z) :
  lru_inv (make_simulator refs F "lru").
Proof.
  exists []. simpl. split; [done|]. split; [constructor|].
  split; [done|]. split; constructor.
Qed.

(** C10.  For a frame count of at least 1 and a reference sequence of
    integers, after every processed step: under FIFO the insertion queue
    holds exactly the resident pages, each once, in the order in which they
    were brought in; under LRU the recency list holds exactly the resident
    pages, each once, in the order of their latest access, so that its head
    is the least recently accessed resident page. *)
Theorem policy_lists_hold_resident_pages
    (input : string) (F : Z) (k : nat) :
  1 ≤ F → Forall is_int (parse_reference_string input) →
  (let s := after_steps k (constructor_ input F "fifo") in
   ∃ queue, dataStructures s = DsFifo queue ∧
     NoDup queue ∧ (∀ x, x ∈ queue ↔ x ∈ frames s) ∧
     StronglySorted (earlier (inserted_at (history s))) queue ∧
     Forall (fun a => is_Some (inserted_at (history s) a)) queue) ∧
  (let s := after_steps k (constructor_ input F "lru") in
   ∃ recencyList, dataStructures s = DsLru recencyList ∧
     NoDup recencyList ∧ (∀ x, x ∈ recencyList ↔ x ∈ frames s) ∧
     StronglySorted (earlier (last_access (history s))) recencyList ∧
     Forall (fun a => is_Some (last_access (history s) a)) recencyList ∧
     ∀ v rest, recencyList = v :: rest →
       ∀ y, y ∈ frames s → y ≠ v → earlier (last_access (history s)) v y).
Proof.
  intros HF Hint. split.
  - intros s. subst s. unfold after_steps.
    apply simulate_from_fifo_inv with (F := F); [done| | |].
    + by apply Forall_take.
    + apply frames_inv_init. lia.
    + apply fifo_inv_init.
  - intros s.
    assert (lru_inv s) as (l & Hds & Hnd & Hmem & Hsorted & Htimes).
    { subst s. unfold after_steps.
      apply simulate_from_lru_inv with (F := F); [done| | |].
      + by apply Forall_take.
      + apply frames_inv_init. lia.
      + apply lru_inv_init. }
    exists l. do 5 (split; [done|]).
    intros v rest -> y Hy Hne.
    apply StronglySorted_inv in Hsorted as [_ Hv].
    rewrite Forall_forall in Hv. apply Hv.
    apply Hmem in Hy. apply elem_of_cons in Hy as [?|?]; done.
Qed.

Lemma policy_lists_hold_resident_pages_witness :
  (let s := after_steps 6 (constructor_ "7,0,1,2,0,3,0,4" 3 "fifo") in
   ∃ queue, dataStructures s = DsFifo queue ∧
     NoDup queue ∧ (∀ x, x ∈ queue ↔ x ∈ frames s) ∧
     StronglySorted (earlier (inserted_at (history s))) queue ∧
     Forall (fun a => is_Some (inserted_at (history s) a)) queue) ∧
  (let s := after_steps 6 (constructor_ "7,0,1,2,0,3,0,4" 3 "lru") in
   ∃ recencyList, dataStructures s = DsLru recencyList ∧
     NoDup recencyList ∧ (∀ x, x ∈ recencyList ↔ x ∈ frames s) ∧
     StronglySorted (earlier (last_access (history s))) recencyList ∧
     Forall (fun a => is_Some (last_access (history s) a)) recencyList ∧
     ∀ v rest, recencyList = v :: rest →
       ∀ y, y ∈ frames s → y ≠ v → earlier (last_access (history s)) v y).
Proof.
  apply (policy_lists_hold_resident_pages "7,0,1,2,0,3,0,4" 3 6).
  - lia.
  - vm_compute. repeat constructor.
Defined.

(** ** Clock: pointer and scan *)

(** The scan of a full frame set, started at a pointer inside it. *)
Lemma clock_scan_full (fs : list JsNumber) (flags : gmap JsNumber bool)
    (zn : nat) :
  (zn < length fs)%nat →
  ∃ (m : nat) (victim : JsNumber) (flags' : gmap JsNumber bool),
    (m ≤ length fs)%nat ∧
    selectClockPage_loop m fs flags (Int (Z.of_nat zn)) = None ∧
    selectClockPage_loop (S m) fs flags (Int (Z.of_nat zn)) =
      Some (Some victim, flags',
            Int (Z.of_nat ((zn + m + 1) mod length fs))) ∧
    selectClockPage fs flags (Int (Z.of_nat zn)) =
      (Some victim, flags', Int (Z.of_nat ((zn + m + 1) mod length fs))) ∧
    fs !! ((zn + m) mod length fs)%nat = Some victim ∧
    default false (flags' !! victim) = false ∧
    (∀ j, (j < m)%nat →
       ∃ q, fs !! ((zn + j) mod length fs)%nat = Some q ∧
            flags !! q = Some true ∧ flags' !! q = Some false) ∧
    (∀ q, (∀ j, (j < m)%nat → fs !! ((zn + j) mod length fs)%nat ≠ Some q) →
       flags' !! q = flags !! q).
Proof.
  intros Hzn.
  destruct (clock_scan_from fs (length fs) 0 flags zn)
    as (m & victim & flags' & Hm & Hnone & Hsome & Hvic & Hclear & Hinsp
          & Hrest & _); [lia|done|intros j; lia|].
  exists m, victim, flags'. split; [done|]. split; [done|]. split; [done|].
  split; [by eapply selectClockPage_of_loop|]. done.
Qed.

Lemma processPage_clock_inv (F : Z) (s : Simulator) (p : JsNumber) (i : nat) :
  1 ≤ F → clock_inv F s → clock_inv F (processPage s p i).
Proof.
  intros HF (HnF & Hlen & flags & zn & Hds & Hzn).
  split; [by rewrite processPage_numFrames|]. split.
  { rewrite processPage_frames.
    destruct (includes (frames s) p); [done|].
    destruct (Z.ltb_spec (Z.of_nat (length (frames s))) (numFrames s)).
    - rewrite length_app. simpl. lia.
    - by rewrite store_frame_length. }
  rewrite processPage_dataStructures, Hds.
  destruct (includes (frames s) p).
  { eexists _, zn. split; [reflexivity|done]. }
  destruct (Z.ltb_spec (Z.of_nat (length (frames s))) (numFrames s)).
  { eexists _, zn. split; [reflexivity|done]. }
  assert (zn < length (frames s))%nat as Hin by lia.
  destruct (clock_scan_full (frames s) flags zn Hin)
    as (m & victim & flags' & _ & _ & _ & Hsel & _).
  unfold selectPageToReplace. rewrite Hsel.
  eexists _, _. split; [reflexivity|].
  assert ((zn + m + 1) mod length (frames s) < length (frames s))%nat
    by (apply Nat.mod_upper_bound; lia).
  lia.
Qed.

Lemma clock_inv_init (refs : list JsNumber) (F : Z) :
  1 ≤ F → clock_inv F (make_simulator refs F "clock").
Proof.
  intros HF. split; [done|]. split; [simpl; lia|].
  exists ∅, 0%nat. split; [done|]. simpl. lia.
Qed.

Lemma simulate_from_clock_inv (F : Z) (pages : list JsNumber) (i : nat)
    (s : Simulator) :
  1 ≤ F → clock_inv F s → clock_inv F (simulate_from i pages s).
Proof.
  intros HF. revert i s.
  induction pages as [|p pages IH]; intros i s Hinv; simpl; [done|].
  by apply IH, processPage_clock_inv.
Qed.

(** C4.  At a point of a Clock simulation where the frame set is full, the
    eviction scan started at the rotating pointer inspects [m] pages whose
    flag is set, clearing each and advancing modulo [F], and then a page
    whose flag is clear: that page is the victim, the pointer is left one
    slot past it modulo [F], and the [m + 1] inspections are at most [2F].
    This is the selection every fault on the full frame set performs. *)
Theorem clock_scan_evicts_first_clear_page
    (input : string) (F : Z) (k : nat) :
  1 ≤ F →
  let s := after_steps k (constructor_ input F "clock") in
  Z.of_nat (length (frames s)) = F →
  ∃ (flags : gmap JsNumber bool) (zn : nat),
    dataStructures s = DsClock flags (Int (Z.of_nat zn)) ∧
    (zn < length (frames s))%nat ∧
    ∃ (m : nat) (victim : JsNumber) (flags' : gmap JsNumber bool),
      let slot j := ((zn + j) mod length (frames s))%nat in
      (∀ j, (j < m)%nat →
         ∃ q, frames s !! slot j = Some q ∧
              flags !! q = Some true ∧ flags' !! q = Some false) ∧
      (∀ q, (∀ j, (j < m)%nat → frames s !! slot j ≠ Some q) →
         flags' !! q = flags !! q) ∧
      frames s !! slot m = Some victim ∧
      default false (flags' !! victim) = false ∧
      selectClockPage_loop m (frames s) flags (Int (Z.of_nat zn)) = None ∧
      selectClockPage_loop (S m) (frames s) flags (Int (Z.of_nat zn)) =
        Some (Some victim, flags', Int (Z.of_nat (slot (m + 1)%nat))) ∧
      Z.of_nat (S m) ≤ 2 * F ∧
      ∀ i, selectPageToReplace (dataStructures s) (frames s) i =
           (Some victim, DsClock flags' (Int (Z.of_nat (slot (m + 1)%nat)))).
Proof.
  intros HF s Hfull.
  assert (clock_inv F s) as (_ & _ & flags & zn & Hds & Hzn).
  { subst s. unfold after_steps.
    by apply simulate_from_clock_inv, clock_inv_init. }
  exists flags, zn. split; [done|].
  assert (zn < length (frames s))%nat as Hin by lia.
  split; [done|].
  destruct (clock_scan_full (frames s) flags zn Hin)
    as (m & victim & flags' & Hm & Hnone & Hsome & Hsel & Hvic & Hclear
          & Hinsp & Hrest).
  exists m, victim, flags'. simpl.
  replace (zn + (m + 1))%nat with (zn + m + 1)%nat by lia.
  do 6 (split; [done|]). split; [lia|].
  intros i. rewrite Hds. unfold selectPageToReplace. by rewrite Hsel.
Qed.

Lemma clock_scan_evicts_first_clear_page_witness :
  let s := after_steps 3 (constructor_ "7,0,1,2,0,3" 3 "clock") in
  ∃ (flags : gmap JsNumber bool) (zn : nat),
    dataStructures s = DsClock flags (Int (Z.of_nat zn)) ∧
    (zn < length (frames s))%nat ∧
    ∃ (m : nat) (victim : JsNumber) (flags' : gmap JsNumber bool),
      let slot j := ((zn + j) mod length (frames s))%nat in
      (∀ j, (j < m)%nat →
         ∃ q, frames s !! slot j = Some q ∧
              flags !! q = Some true ∧ flags' !! q = Some false) ∧
      (∀ q, (∀ j, (j < m)%nat → frames s !! slot j ≠ Some q) →
         flags' !! q = flags !! q) ∧
      frames s !! slot m = Some victim ∧
      default false (flags' !! victim) = false ∧
      selectClockPage_loop m (frames s) flags (Int (Z.of_nat zn)) = None ∧
      selectClockPage_loop (S m) (frames s) flags (Int (Z.of_nat zn)) =
        Some (Some victim, flags', Int (Z.of_nat (slot (m + 1)%nat))) ∧
      Z.of_nat (S m) ≤ 2 * 3 ∧
      ∀ i, selectPageToReplace (dataStructures s) (frames s) i =
           (Some victim, DsClock flags' (Int (Z.of_nat (slot (m + 1)%nat)))).
Proof.
  apply (clock_scan_evicts_first_clear_page "7,0,1,2,0,3" 3 3).
  - lia.
  - vm_compute. reflexivity.
Defined.

(** ** Optimal: the next occurrence of a page *)

Lemma ext_gtb_true (a b : ExtNat) : ext_gtb a b = true ↔ ext_lt b a.
Proof. destruct a, b; simpl; first [apply Nat.ltb_lt | by split]. Qed.

Lemma ext_gtb_false (a b : ExtNat) : ext_gtb a b = false ↔ ext_le a b.
Proof. destruct a, b; simpl; first [apply Nat.ltb_ge | by split]. Qed.

Lemma ext_le_refl (a : ExtNat) : ext_le a a.
Proof. ext_cases. Qed.

Lemma ext_lt_le (a b : ExtNat) : ext_lt a b → ext_le a b.
Proof. ext_cases. Qed.

Lemma ext_le_trans (a b c : ExtNat) : ext_le a b → ext_le b c → ext_le a c.
Proof. ext_cases. Qed.

Lemma ext_lt_le_trans (a b c : ExtNat) : ext_lt a b → ext_le b c → ext_lt a c.
Proof. ext_cases. Qed.

Lemma ext_le_lt_trans (a b c : ExtNat) : ext_le a b → ext_lt b c → ext_lt a c.
Proof. ext_cases. Qed.

Lemma ext_lt_irrefl (a : ExtNat) : ¬ ext_lt a a.
Proof. ext_cases. Qed.

Lemma first_occurrence_Fin (p : JsNumber) (l : list JsNumber) (d : nat) :
  first_occurrence p l = Fin d ↔
  l !! d = Some p ∧ ∀ j, (j < d)%nat → l !! j ≠ Some p.
Proof.
  revert d. induction l as [|x l IH]; intros d; simpl.
  - split; [done|]. intros [H _]. done.
  - destruct (decide (x = p)) as [->|Hne].
    + split.
      * intros [= <-]. split; [done|]. intros j; lia.
      * intros [Hd Hfirst]. destruct d as [|d]; [done|].
        exfalso. apply (Hfirst 0%nat); [lia|done].
    + destruct d as [|d].
      * split.
        { destruct (first_occurrence p l); done. }
        intros [[= ?] _]. done.
      * specialize (IH d). split.
        { intros H. destruct (first_occurrence p l) as [d'|] eqn:E; [|done].
          simpl in H. injection H as ->.
          destruct IH as [[H1 H2] _]; [done|]. split; [exact H1|].
          intros [|j] Hj; simpl; [congruence|]. apply H2. lia. }
        intros [H1 H2]. destruct IH as [_ IH]. rewrite IH; [done|].
        split; [exact H1|]. intros j Hj. apply (H2 (S j)). lia.
Qed.

Lemma first_occurrence_Infinity (p : JsNumber) (l : list JsNumber) :
  first_occurrence p l = Infinity ↔ p ∉ l.
Proof.
  induction l as [|x l IH]; simpl.
  - split; [intros _; apply not_elem_of_nil|done].
  - rewrite not_elem_of_cons. destruct (decide (x = p)) as [->|Hne].
    + split; [done|]. intros [? _]. done.
    + destruct (first_occurrence p l); simpl.
      * split; [done|]. intros [_ H]. by apply IH in H.
      * split; [|done]. intros _. split; [done|]. by apply IH.
Qed.

(** [next_occurrence] is what the words say. *)
Lemma next_occurrence_Fin (refs : list JsNumber) (i j : nat) (p : JsNumber) :
  next_occurrence refs i p = Fin j ↔
  (i < j)%nat ∧ refs !! j = Some p ∧
  ∀ j', (i < j')%nat → (j' < j)%nat → refs !! j' ≠ Some p.
Proof.
  unfold next_occurrence. split.
  - destruct (first_occurrence p (drop (S i) refs)) as [d|] eqn:E; [|done].
    intros [= <-]. apply first_occurrence_Fin in E as [H1 H2].
    rewrite lookup_drop in H1. split; [lia|]. split; [done|].
    intros j' Hlo Hhi. specialize (H2 (j' - S i)%nat).
    rewrite lookup_drop in H2.
    replace (S i + (j' - S i))%nat with j' in H2 by lia. apply H2. lia.
  - intros (Hij & Hj & Hfirst).
    assert (first_occurrence p (drop (S i) refs) = Fin (j - S i)) as ->.
    { apply first_occurrence_Fin. rewrite lookup_drop.
      replace (S i + (j - S i))%nat with j by lia. split; [done|].
      intros j' Hj'. rewrite lookup_drop. apply Hfirst; lia. }
    f_equal. lia.
Qed.

Lemma next_occurrence_Infinity (refs : list JsNumber) (i : nat) (p : JsNumber) :
  next_occurrence refs i p = Infinity ↔
  ∀ j, (i < j)%nat → refs !! j ≠ Some p.
Proof.
  unfold next_occurrence. split.
  - destruct (first_occurrence p (drop (S i) refs)) as [d|] eqn:E; [done|].
    intros _ j Hj Hlook. apply first_occurrence_Infinity in E. apply E.
    apply list_elem_of_lookup. exists (j - S i)%nat.
    rewrite lookup_drop. by replace (S i + (j - S i))%nat with j by lia.
  - intros Hnone.
    assert (first_occurrence p (drop (S i) refs) = Infinity) as ->; [|done].
    apply first_occurrence_Infinity. intros Hin.
    apply list_elem_of_lookup in Hin as [d Hd]. rewrite lookup_drop in Hd.
    apply (Hnone (S i + d)%nat); [lia|done].
Qed.

Lemma calculateFutureReferences_from_lookup (pages : list JsNumber) :
  ∀ (i : nat) (m : gmap JsNumber (list nat)) (p : JsNumber),
  default [] (calculateFutureReferences_from i pages m !! p) =
  default [] (m !! p) ++ occurrences_from i pages p.
Proof.
  induction pages as [|x rest IH]; intros i m p; simpl.
  - by rewrite app_nil_r.
  - rewrite IH. destruct (decide (x = p)) as [->|Hne].
    + rewrite lookup_insert_eq. simpl. by rewrite <- app_assoc.
    + by rewrite lookup_insert_ne.
Qed.

Lemma find_occurrences_from (p : JsNumber) (cur : nat)
    (pages : list JsNumber) :
  ∀ b : nat,
  List.find (fun idx => Nat.ltb cur idx) (occurrences_from b pages p) =
  match first_occurrence p (drop (S cur - b) pages) with
  | Fin d => Some (b `max` S cur + d)%nat
  | Infinity => None
  end.
Proof.
  induction pages as [|x rest IH]; intros b.
  - by rewrite drop_nil.
  - simpl occurrences_from. destruct (decide (cur < b)%nat) as [Hlt|Hge].
    + replace (S cur - b)%nat with 0%nat by lia.
      rewrite drop_0. simpl first_occurrence.
      destruct (decide (x = p)) as [->|Hne].
      * simpl. destruct (Nat.ltb_spec cur b); [|lia]. f_equal. lia.
      * simpl. rewrite IH. replace (S cur - S b)%nat with 0%nat by lia.
        rewrite drop_0. destruct (first_occurrence p rest); simpl; [|done].
        f_equal. lia.
    + replace (S cur - b)%nat with (S (S cur - S b))%nat by lia.
      rewrite skipn_cons.
      assert (List.find (fun idx => Nat.ltb cur idx)
                ((if decide (x = p) then [b] else [])
                   ++ occurrences_from (S b) rest p) =
              List.find (fun idx => Nat.ltb cur idx)
                (occurrences_from (S b) rest p)) as ->.
      { destruct (decide (x = p)); [|done]. simpl.
        destruct (Nat.ltb_spec cur b); [lia|done]. }
      rewrite IH.
      destruct (first_occurrence p (drop (S cur - S b) rest)); [|done].
      f_equal. lia.
Qed.

(** The table lookup of [selectOptimalPage] computes the next occurrence. *)
Lemma next_index_is_next_occurrence (refs : list JsNumber) (cur : nat)
    (p : JsNumber) :
  next_index (default [] (calculateFutureReferences refs !! p)) cur =
  next_occurrence refs cur p.
Proof.
  unfold calculateFutureReferences, next_index, next_occurrence.
  rewrite calculateFutureReferences_from_lookup, lookup_empty. simpl.
  rewrite find_occurrences_from. rewrite Nat.sub_0_r.
  destruct (first_occurrence p (drop (S cur) refs)); done.
Qed.

Lemma next_occurrence_after (refs : list JsNumber) (cur : nat) (p : JsNumber) :
  ext_lt (Fin cur) (next_occurrence refs cur p).
Proof.
  unfold next_occurrence.
  destruct (first_occurrence p (drop (S cur) refs)); simpl; [lia|done].
Qed.

Lemma selectOptimalPage_loop_first_max (refs : list JsNumber) (cur : nat)
    (rest : list JsNumber) :
  ∀ best : JsNumber,
  selectOptimalPage_loop rest (calculateFutureReferences refs) cur
    (Some best) (next_occurrence refs cur best) =
  Some (first_max (next_occurrence refs cur) best rest).
Proof.
  induction rest as [|q rest IH]; intros best; simpl; [done|].
  rewrite next_index_is_next_occurrence.
  destruct (ext_gtb _ _); apply IH.
Qed.

Lemma selectOptimalPage_first_max (refs : list JsNumber) (cur : nat)
    (q0 : JsNumber) (rest : list JsNumber) :
  selectOptimalPage (q0 :: rest) (calculateFutureReferences refs) cur =
  Some (first_max (next_occurrence refs cur) q0 rest).
Proof.
  unfold selectOptimalPage. simpl.
  rewrite next_index_is_next_occurrence.
  assert (ext_gtb (next_occurrence refs cur q0) (Fin cur) = true) as ->.
  { apply ext_gtb_true, next_occurrence_after. }
  apply selectOptimalPage_loop_first_max.
Qed.

Lemma first_max_spec (nx : JsNumber → ExtNat) (l : list JsNumber) :
  ∀ best : JsNumber,
  ∃ k : nat,
    (best :: l) !! k = Some (first_max nx best l) ∧
    (∀ j q, (best :: l) !! j = Some q →
       ext_le (nx q) (nx (first_max nx best l))) ∧
    (∀ j q, (j < k)%nat → (best :: l) !! j = Some q →
       ext_lt (nx q) (nx (first_max nx best l))).
Proof.
  induction l as [|q rest IH]; intros best; simpl.
  - exists 0%nat. split; [done|]. split.
    + intros [|j] x; simpl; [|done]. intros [= ->]. apply ext_le_refl.
    + intros j x; lia.
  - destruct (ext_gtb (nx q) (nx best)) eqn:Hgt.
    + apply ext_gtb_true in Hgt.
      destruct (IH q) as (k & Hk & Hall & Hbefore).
      assert (ext_le (nx q) (nx (first_max nx q rest))) as Hq
        by (by apply (Hall 0%nat)).
      exists (S k). split; [done|]. split.
      * intros [|j] x; simpl.
        { intros [= ->]. eapply ext_lt_le, ext_lt_le_trans; eauto. }
        apply Hall.
      * intros [|j] x Hj; simpl.
        { intros [= ->]. eapply ext_lt_le_trans; eauto. }
        apply Hbefore. lia.
    + apply ext_gtb_false in Hgt.
      destruct (IH best) as (k & Hk & Hall & Hbefore).
      assert (ext_le (nx best) (nx (first_max nx best rest))) as Hb
        by (by apply (Hall 0%nat)).
      destruct k as [|k].
      * exists 0%nat. split; [done|]. split; [|intros j x; lia].
        intros [|[|j]] x; simpl.
        { intros [= ->]. done. }
        { intros [= ->]. eapply ext_le_trans; eauto. }
        apply (Hall (S j)).
      * exists (S (S k)). split; [done|]. split.
        { intros [|[|j]] x; simpl.
          - intros [= ->]. done.
          - intros [= ->]. eapply ext_le_trans; eauto.
          - apply (Hall (S j)). }
        intros [|[|j]] x Hj; simpl.
        { intros [= ->]. apply (Hbefore 0%nat); [lia|done]. }
        { intros [= ->]. eapply ext_le_lt_trans; [exact Hgt|].
          apply (Hbefore 0%nat); [lia|done]. }
        apply (Hbefore (S j)). lia.
Qed.

(** The victim [selectOptimalPage] returns for a non-empty frame set: the
    first page, in frame order, whose next occurrence is the farthest. *)
Lemma selectOptimalPage_spec (refs : list JsNumber) (cur : nat)
    (fs : list JsNumber) :
  fs ≠ [] →
  ∃ (k : nat) (victim : JsNumber),
    selectOptimalPage fs (calculateFutureReferences refs) cur = Some victim ∧
    fs !! k = Some victim ∧
    (∀ j q, fs !! j = Some q →
       ext_le (next_occurrence refs cur q) (next_occurrence refs cur victim)) ∧
    (∀ j q, (j < k)%nat → fs !! j = Some q →
       ext_lt (next_occurrence refs cur q) (next_occurrence refs cur victim)).
Proof.
  intros Hne. destruct fs as [|q0 rest]; [done|].
  destruct (first_max_spec (next_occurrence refs cur) rest q0)
    as (k & Hk & Hall & Hbefore).
  exists k, (first_max (next_occurrence refs cur) q0 rest).
  split; [apply selectOptimalPage_first_max|]. done.
Qed.

Lemma after_steps_S (s0 : Simulator) (k : nat) (p : JsNumber) :
  referenceString s0 !! k = Some p →
  after_steps (S k) s0 = processPage (after_steps k s0) p k.
Proof.
  intros Hk. unfold after_steps.
  rewrite (take_S_r _ _ _ Hk), simulate_from_app. simpl.
  rewrite length_take. apply lookup_lt_Some in Hk.
  by replace (k `min` length (referenceString s0))%nat with k by lia.
Qed.

Lemma processPage_optimal (s : Simulator) (p : JsNumber) (i : nat)
    (fr : gmap JsNumber (list nat)) :
  dataStructures s = DsOptimal fr →
  dataStructures (processPage s p i) = DsOptimal fr.
Proof.
  intros H. rewrite processPage_dataStructures, H.
  by repeat case_match.
Qed.

Lemma simulate_from_optimal (pages : list JsNumber) (i : nat) (s : Simulator)
    (fr : gmap JsNumber (list nat)) :
  dataStructures s = DsOptimal fr →
  dataStructures (simulate_from i pages s) = DsOptimal fr.
Proof.
  revert i s. induction pages as [|p pages IH]; intros i s H; simpl; [done|].
  by apply IH, processPage_optimal.
Qed.

(** One fault of the Optimal policy on a full frame set of integer pages. *)
Lemma processPage_optimal_evicts (refs : list JsNumber) (F : Z) (i : nat)
    (s : Simulator) (p : JsNumber) :
  1 ≤ F → frames_inv F i s →
  dataStructures s = DsOptimal (calculateFutureReferences refs) →
  p ∉ frames s → Z.of_nat (length (frames s)) = F →
  ∀ cur : nat,
  ∃ (slot : nat) (victim : JsNumber),
    selectPageToReplace (dataStructures s) (frames s) cur =
      (Some victim, dataStructures s) ∧
    frames s !! slot = Some victim ∧
    (∀ j q, frames s !! j = Some q →
       ext_le (next_occurrence refs cur q) (next_occurrence refs cur victim)) ∧
    (∀ j q, (j < slot)%nat → frames s !! j = Some q →
       ext_lt (next_occurrence refs cur q) (next_occurrence refs cur victim)) ∧
    (cur = i → frames (processPage s p i) = <[slot := p]> (frames s)).
Proof.
  intros HF Hinv Hds Hp Hfull cur.
  assert (frames s ≠ []) as Hne.
  { intros E. rewrite E in Hfull. simpl in Hfull. lia. }
  destruct (selectOptimalPage_spec refs cur (frames s) Hne)
    as (slot & victim & Hsel & Hslot & Hall & Hbefore).
  exists slot, victim. split.
  { rewrite Hds. simpl. by rewrite Hsel. }
  do 3 (split; [done|]). intros ->.
  destruct (processPage_replaces F i s p victim Hinv) as (k' & Hk' & _ & Hfr).
  - by apply includes_false.
  - lia.
  - rewrite Hds. simpl. by rewrite Hsel.
  - apply list_elem_of_lookup. eauto.
  - rewrite Hfr. f_equal.
    eapply NoDup_lookup; [apply (inv_NoDup _ _ _ Hinv)|done..].
Qed.

(** C3.  At a fault of an Optimal simulation on a full frame set (frame
    count at least 1, integer pages), the page evicted is the resident page
    whose next occurrence after the current step is the farthest, a page
    that does not recur counting as infinitely far; among several such
    pages it is the first in frame order.  The faulting page takes the
    victim's slot. *)
Theorem optimal_evicts_farthest_next_use
    (input : string) (F : Z) (k : nat) (p : JsNumber) :
  1 ≤ F →
  let s0 := constructor_ input F "optimal" in
  let refs := referenceString s0 in
  let s := after_steps k s0 in
  Forall is_int refs →
  refs !! k = Some p → p ∉ frames s → Z.of_nat (length (frames s)) = F →
  ∃ (slot : nat) (victim : JsNumber),
    selectPageToReplace (dataStructures s) (frames s) k =
      (Some victim, dataStructures s) ∧
    frames s !! slot = Some victim ∧
    (∀ j q, frames s !! j = Some q →
       ext_le (next_occurrence refs k q) (next_occurrence refs k victim)) ∧
    (∀ j q, (j < slot)%nat → frames s !! j = Some q →
       ext_lt (next_occurrence refs k q) (next_occurrence refs k victim)) ∧
    frames (after_steps (S k) s0) = <[slot := p]> (frames s) ∧
    pageFaults (after_steps (S k) s0) = S (pageFaults s).
Proof.
  intros HF s0 refs s Hint Hk Hp Hfull.
  assert (Hlt : (k < length refs)%nat) by (by eapply lookup_lt_Some).
  assert (frames_inv F k s) as Hinv.
  { subst s. unfold after_steps.
    replace k with (0 + length (take k (referenceString s0)))%nat at 1
      by (rewrite length_take; fold refs; lia).
    apply (simulate_from_invariant is_int (frames_inv F)).
    - intros. by apply processPage_frames_inv.
    - by apply Forall_take.
    - apply frames_inv_init. lia. }
  assert (dataStructures s = DsOptimal (calculateFutureReferences refs))
    as Hds.
  { subst s. unfold after_steps. by apply simulate_from_optimal. }
  destruct (processPage_optimal_evicts refs F k s p HF Hinv Hds Hp Hfull k)
    as (slot & victim & Hsel & Hslot & Hall & Hbefore & Hfr).
  exists slot, victim. do 4 (split; [done|]).
  rewrite (after_steps_S s0 k p Hk). fold s. split; [by apply Hfr|].
  rewrite processPage_pageFaults.
  by rewrite (proj2 (includes_false _ _) Hp).
Qed.

Lemma optimal_evicts_farthest_next_use_witness :
  let s0 := constructor_ "7,0,1,2,0,3,0,4,2,3,0,3,2" 3 "optimal" in
  let refs := referenceString s0 in
  let s := after_steps 3 s0 in
  ∃ (slot : nat) (victim : JsNumber),
    selectPageToReplace (dataStructures s) (frames s) 3 =
      (Some victim, dataStructures s) ∧
    frames s !! slot = Some victim ∧
    (∀ j q, frames s !! j = Some q →
       ext_le (next_occurrence refs 3 q) (next_occurrence refs 3 victim)) ∧
    (∀ j q, (j < slot)%nat → frames s !! j = Some q →
       ext_lt (next_occurrence refs 3 q) (next_occurrence refs 3 victim)) ∧
    frames (after_steps 4 s0) = <[slot := Int 2]> (frames s) ∧
    pageFaults (after_steps 4 s0) = S (pageFaults s).
Proof.
  apply (optimal_evicts_farthest_next_use
           "7,0,1,2,0,3,0,4,2,3,0,3,2" 3 3 (Int 2)).
  - lia.
  - vm_compute. repeat constructor.
  - reflexivity.
  - apply includes_false. vm_compute. reflexivity.
  - vm_compute. reflexivity.
Defined.

(** ** Demand paging in the abstract, and the optimality of evicting the
    page used farthest in the future *)

Section DemandPaging.
Variable F : nat.
Implicit Types A B T X : gset JsNumber.

Lemma pick_outside A B :
  (size (A ∩ B) < size A)%nat → ∃ v, v ∈ A ∧ v ∉ B.
Proof.
  intros Hlt.
  destruct (size_pos_elem_of (A ∖ B)) as [v Hv].
  - rewrite size_difference_alt. lia.
  - exists v. set_solver.
Qed.

Lemma pick_outside_le A B r :
  (size B ≤ size A)%nat → r ∈ B → r ∉ A → ∃ v, v ∈ A ∧ v ∉ B.
Proof.
  intros Hle HrB HrA. apply pick_outside.
  assert (A ∩ B ⊂ B) as Hsub by set_solver.
  apply subset_size in Hsub. lia.
Qed.

Lemma pick_outside_lt A B :
  (size B < size A)%nat → ∃ v, v ∈ A ∧ v ∉ B.
Proof.
  intros Hlt. apply pick_outside.
  assert (A ∩ B ⊆ B) as Hsub by set_solver.
  apply subseteq_size in Hsub. lia.
Qed.

Lemma size_add X r : r ∉ X → size ({[r]} ∪ X) = S (size X).
Proof.
  intros Hr. rewrite size_union by set_solver. by rewrite size_singleton.
Qed.

Lemma size_swap X r v :
  r ∉ X → v ∈ X → size ({[r]} ∪ (X ∖ {[v]})) = size X.
Proof.
  intros Hr Hv. rewrite size_union by set_solver.
  rewrite size_singleton, size_difference by set_solver.
  rewrite size_singleton.
  assert ({[v]} ⊆ X) as Hs by set_solver.
  apply subseteq_size in Hs. rewrite size_singleton in Hs. lia.
Qed.

Lemma size_smaller X Y x : x ∈ X → Y ⊆ X ∖ {[x]} → (S (size Y) ≤ size X)%nat.
Proof.
  intros Hx Hsub. assert (Y ⊂ X) as Hs by set_solver.
  apply subset_size in Hs. lia.
Qed.

(** A strategy started from another resident set loses at most one fault
    per page it lacks. *)
Lemma run_transfer B rs n :
  demand_run F B rs n →
  ∀ A, (size A ≤ F)%nat → (size B ≤ F)%nat →
  ∃ m, demand_run F A rs m ∧ (m ≤ n + size (B ∖ A))%nat.
Proof.
  induction 1 as [B | B r rs n HrB Hrun IH | B r rs n HrB Hfree Hrun IH
                 | B r rs n u HrB Hfull Hu Hrun IH]; intros A HA HB.
  - exists 0%nat. split; [constructor|lia].
  - destruct (decide (r ∈ A)) as [HrA|HrA].
    + destruct (IH A HA HB) as (m & Hm & Hle).
      exists m. split; [by apply run_hit|done].
    + destruct (decide (size A < F)%nat) as [HAfree|HAfull].
      * destruct (IH ({[r]} ∪ A)) as (m & Hm & Hle);
          [rewrite size_add by done; lia|done|].
        exists (S m). split; [by apply run_load|].
        assert (S (size (B ∖ ({[r]} ∪ A))) ≤ size (B ∖ A))%nat
          by (apply (size_smaller _ _ r); set_solver).
        lia.
      * destruct (pick_outside_le A B r) as (v & HvA & HvB);
          [lia|done|done|].
        destruct (IH ({[r]} ∪ (A ∖ {[v]}))) as (m & Hm & Hle);
          [rewrite size_swap by done; lia|done|].
        exists (S m). split; [apply run_evict with v; (done || lia)|].
        assert (S (size (B ∖ ({[r]} ∪ (A ∖ {[v]})))) ≤ size (B ∖ A))%nat
          by (apply (size_smaller _ _ r); set_solver).
        lia.
  - assert (size ({[r]} ∪ B) ≤ F)%nat as HB'
      by (rewrite size_add by done; lia).
    destruct (decide (r ∈ A)) as [HrA|HrA].
    + destruct (IH A HA HB') as (m & Hm & Hle).
      exists m. split; [by apply run_hit|].
      assert (size (({[r]} ∪ B) ∖ A) ≤ size (B ∖ A))%nat
        by (apply subseteq_size; set_solver).
      lia.
    + destruct (decide (size A < F)%nat) as [HAfree|HAfull].
      * destruct (IH ({[r]} ∪ A)) as (m & Hm & Hle);
          [rewrite size_add by done; lia|done|].
        exists (S m). split; [by apply run_load|].
        assert (size (({[r]} ∪ B) ∖ ({[r]} ∪ A)) ≤ size (B ∖ A))%nat
          by (apply subseteq_size; set_solver).
        lia.
      * destruct (pick_outside_lt A B) as (v & HvA & HvB); [lia|].
        destruct (IH ({[r]} ∪ (A ∖ {[v]}))) as (m & Hm & Hle);
          [rewrite size_swap by done; lia|done|].
        exists (S m). split; [apply run_evict with v; (done || lia)|].
        assert (size (({[r]} ∪ B) ∖ ({[r]} ∪ (A ∖ {[v]})))
                  ≤ size (B ∖ A))%nat
          by (apply subseteq_size; set_solver).
        lia.
  - assert (size ({[r]} ∪ (B ∖ {[u]})) ≤ F)%nat as HB'
      by (rewrite size_swap by done; lia).
    destruct (decide (r ∈ A)) as [HrA|HrA].
    + destruct (IH A HA HB') as (m & Hm & Hle).
      exists m. split; [by apply run_hit|].
      assert (size (({[r]} ∪ (B ∖ {[u]})) ∖ A) ≤ size (B ∖ A))%nat
        by (apply subseteq_size; set_solver).
      lia.
    + destruct (decide (size A < F)%nat) as [HAfree|HAfull].
      * destruct (IH ({[r]} ∪ A)) as (m & Hm & Hle);
          [rewrite size_add by done; lia|done|].
        exists (S m). split; [by apply run_load|].
        assert (size (({[r]} ∪ (B ∖ {[u]})) ∖ ({[r]} ∪ A))
                  ≤ size (B ∖ A))%nat
          by (apply subseteq_size; set_solver).
        lia.
      * assert (∃ v, v ∈ A ∧ (v = u ∨ v ∉ B)) as (v & HvA & Hv).
        { destruct (decide (u ∈ A)) as [HuA|HuA]; [by eauto|].
          destruct (pick_outside_le A B u) as (v & ? & ?);
            [lia|done|done|]. eauto. }
        destruct (IH ({[r]} ∪ (A ∖ {[v]}))) as (m & Hm & Hle);
          [rewrite size_swap by done; lia|done|].
        exists (S m). split; [apply run_evict with v; (done || lia)|].
        assert (size (({[r]} ∪ (B ∖ {[u]})) ∖ ({[r]} ∪ (A ∖ {[v]})))
                  ≤ size (B ∖ A))%nat
          by (apply subseteq_size; set_solver).
        lia.
Qed.

Lemma first_occurrence_cons_ne (p r : JsNumber) (rs : list JsNumber) :
  r ≠ p → first_occurrence p (r :: rs) = ext_succ (first_occurrence p rs).
Proof. intros Hne. simpl. by destruct (decide (r = p)). Qed.

Lemma ext_le_succ (a b : ExtNat) :
  ext_le (ext_succ a) (ext_succ b) → ext_le a b.
Proof. destruct a, b; simpl; lia. Qed.

(** Holding the page that is needed sooner is never worse: if [p] does
    not occur later than [q] in the references to come, the resident set
    with [p] in place of [q] can be served with no more faults. *)
Lemma run_swap B rs n :
  demand_run F B rs n →
  ∀ T p q, B = T ∪ {[q]} → p ∉ T → q ∉ T → p ≠ q → (size T < F)%nat →
  ext_le (first_occurrence p rs) (first_occurrence q rs) →
  ∃ m, demand_run F (T ∪ {[p]}) rs m ∧ (m ≤ n)%nat.
Proof.
  induction 1 as [B | B r rs n HrB Hrun IH | B r rs n HrB Hfree Hrun IH
                 | B r rs n u HrB Hfull Hu Hrun IH];
    intros T p q -> HpT HqT Hpq HT Hocc.
  - exists 0%nat. split; [constructor|lia].
  - destruct (decide (r = q)) as [->|Hrq].
    { exfalso. simpl in Hocc. destruct (decide (q = q)); [|done].
      destruct (decide (q = p)); [by subst|].
      destruct (first_occurrence p rs); simpl in Hocc; [lia|done]. }
    assert (r ∈ T) as HrT by set_solver.
    assert (r ≠ p) as Hrp by (intros ->; done).
    rewrite !first_occurrence_cons_ne in Hocc by done.
    apply ext_le_succ in Hocc.
    destruct (IH T p q) as (m & Hm & Hle); try done.
    exists m. split; [|done]. apply run_hit; [set_solver|done].
  - assert (size (T ∪ {[q]}) = S (size T)) as HsB.
    { rewrite size_union by set_solver. rewrite size_singleton. lia. }
    assert (size (T ∪ {[p]}) = S (size T)) as HsA.
    { rewrite size_union by set_solver. rewrite size_singleton. lia. }
    destruct (decide (r = p)) as [->|Hrp].
    + destruct (run_transfer _ _ _ Hrun (T ∪ {[p]})) as (m & Hm & Hle).
      * lia.
      * rewrite size_add by done. lia.
      * exists m. split; [apply run_hit; [set_solver|done]|].
        assert (size (({[p]} ∪ (T ∪ {[q]})) ∖ (T ∪ {[p]})) ≤ 1)%nat.
        { rewrite <- (size_singleton (C:=gset JsNumber) q).
          apply subseteq_size. set_solver. }
        lia.
    + assert (r ≠ q) as Hrq by set_solver.
      rewrite !first_occurrence_cons_ne in Hocc by done.
      apply ext_le_succ in Hocc.
      destruct (IH ({[r]} ∪ T) p q) as (m & Hm & Hle);
        [set_solver|set_solver|set_solver|done
        |rewrite size_add by set_solver; lia|done|].
      exists (S m). split; [|lia].
      apply run_load; [set_solver|lia|].
      by replace ({[r]} ∪ (T ∪ {[p]})) with ({[r]} ∪ T ∪ {[p]})
        by set_solver.
  - assert (size (T ∪ {[q]}) = S (size T)) as HsB.
    { rewrite size_union by set_solver. rewrite size_singleton. lia. }
    assert (size (T ∪ {[p]}) = S (size T)) as HsA.
    { rewrite size_union by set_solver. rewrite size_singleton. lia. }
    destruct (decide (r = p)) as [->|Hrp].
    + destruct (run_transfer _ _ _ Hrun (T ∪ {[p]})) as (m & Hm & Hle).
      * lia.
      * rewrite size_swap by done. lia.
      * exists m. split; [apply run_hit; [set_solver|done]|].
        assert (size (({[p]} ∪ ((T ∪ {[q]}) ∖ {[u]})) ∖ (T ∪ {[p]}))
                  ≤ 1)%nat.
        { rewrite <- (size_singleton (C:=gset JsNumber) q).
          apply subseteq_size. set_solver. }
        lia.
    + assert (r ≠ q) as Hrq by set_solver.
      rewrite !first_occurrence_cons_ne in Hocc by done.
      apply ext_le_succ in Hocc.
      destruct (decide (u = q)) as [->|Huq].
      * exists (S n). split; [|lia].
        apply run_evict with p; [set_solver|lia|set_solver|].
        by replace ({[r]} ∪ ((T ∪ {[p]}) ∖ {[p]}))
          with ({[r]} ∪ ((T ∪ {[q]}) ∖ {[q]})) by set_solver.
      * assert (u ∈ T) as HuT by set_solver.
        destruct (IH ({[r]} ∪ (T ∖ {[u]})) p q) as (m & Hm & Hle);
          [set_solver|set_solver|set_solver|done
          |rewrite size_swap by set_solver; lia|done|].
        exists (S m). split; [|lia].
        apply run_evict with u; [set_solver|lia|set_solver|].
        by replace ({[r]} ∪ ((T ∪ {[p]}) ∖ {[u]}))
          with ({[r]} ∪ (T ∖ {[u]}) ∪ {[p]}) by set_solver.
Qed.
End DemandPaging.

(** ** The simulated policies as demand-paging strategies *)

Lemma resident_size (F : Z) (i : nat) (s : Simulator) :
  frames_inv F i s → size (resident s) = length (frames s).
Proof. intros Hinv. apply size_list_to_set, (inv_NoDup _ _ _ Hinv). Qed.

Lemma elem_of_resident (s : Simulator) (x : JsNumber) :
  x ∈ resident s ↔ x ∈ frames s.
Proof. apply elem_of_list_to_set. Qed.

(** The three ways a step changes the resident set. *)
Lemma processPage_resident_hit (s : Simulator) (p : JsNumber) (i : nat) :
  p ∈ frames s →
  resident (processPage s p i) = resident s ∧
  pageFaults (processPage s p i) = pageFaults s.
Proof.
  intros Hp. apply includes_true in Hp. unfold resident.
  by rewrite processPage_frames, processPage_pageFaults, Hp.
Qed.

Lemma processPage_resident_load (s : Simulator) (p : JsNumber) (i : nat) :
  p ∉ frames s → Z.of_nat (length (frames s)) < numFrames s →
  resident (processPage s p i) = {[p]} ∪ resident s ∧
  pageFaults (processPage s p i) = S (pageFaults s).
Proof.
  intros Hp Hfree. apply includes_false in Hp. unfold resident.
  rewrite processPage_frames, processPage_pageFaults, Hp.
  destruct (Z.ltb_spec (Z.of_nat (length (frames s))) (numFrames s)); [|lia].
  split; [|done]. rewrite list_to_set_snoc_L. apply union_comm_L.
Qed.

Lemma processPage_resident_evict (F : Z) (s : Simulator) (p v : JsNumber)
    (i k : nat) :
  frames_inv F i s → p ∉ frames s →
  frames s !! k = Some v →
  frames (processPage s p i) = <[k := p]> (frames s) →
  resident (processPage s p i) = {[p]} ∪ (resident s ∖ {[v]}) ∧
  pageFaults (processPage s p i) = S (pageFaults s).
Proof.
  intros Hinv Hp Hk Hfr. split.
  - unfold resident. rewrite Hfr. apply set_eq. intros x.
    rewrite elem_of_list_to_set.
    rewrite (elem_of_list_insert_iff _ _ _ v)
      by (done || apply (inv_NoDup _ _ _ Hinv)).
    rewrite elem_of_union, elem_of_singleton, elem_of_difference,
      elem_of_list_to_set, elem_of_singleton. done.
  - apply includes_false in Hp.
    by rewrite processPage_pageFaults, Hp.
Qed.

Section PolicyRuns.
Variable F : Z.
Variable Inv : nat → Simulator → Prop.
Hypothesis HF : 1 ≤ F.
Hypothesis Inv_frames : ∀ i s, Inv i s → frames_inv F i s.
Hypothesis Inv_step :
  ∀ i s p, is_int p → Inv i s → Inv (S i) (processPage s p i).
Hypothesis Inv_victim :
  ∀ i s, Inv i s → Z.of_nat (length (frames s)) = F →
    ∃ v, (selectPageToReplace (dataStructures s) (frames s) i).1 = Some v ∧
         v ∈ frames s.

(** A policy whose victim is always a resident page runs as a
    demand-paging strategy: its faults are those of a [demand_run]. *)
Lemma policy_is_demand_run (pages : list JsNumber) :
  ∀ (i : nat) (s : Simulator),
  Forall is_int pages → Inv i s →
  ∃ n, demand_run (Z.to_nat F) (resident s) pages n ∧
       pageFaults (simulate_from i pages s) = (pageFaults s + n)%nat.
Proof.
  induction pages as [|p pages IH]; intros i s Hint Hinv.
  - exists 0%nat. split; [constructor|simpl; lia].
  - apply Forall_cons in Hint as [Hp Hint].
    pose proof (Inv_frames _ _ Hinv) as Hfr.
    pose proof (resident_size _ _ _ Hfr) as Hsize.
    pose proof (inv_length _ _ _ Hfr) as Hlen.
    pose proof (inv_numFrames _ _ _ Hfr) as HnF.
    destruct (IH (S i) (processPage s p i) Hint (Inv_step _ _ _ Hp Hinv))
      as (n & Hrun & Hfaults).
    simpl simulate_from. rewrite Hfaults.
    destruct (decide (p ∈ frames s)) as [Hin|Hout].
    + destruct (processPage_resident_hit s p i Hin) as [Hres Hpf].
      rewrite Hres in Hrun. rewrite Hpf.
      exists n. split; [|done].
      apply run_hit; [by apply elem_of_resident|done].
    + destruct (decide (Z.of_nat (length (frames s)) < F)) as [Hfree|Hfull].
      * destruct (processPage_resident_load s p i Hout) as [Hres Hpf];
          [lia|].
        rewrite Hres in Hrun. rewrite Hpf.
        exists (S n). split; [|lia].
        apply run_load; [by rewrite elem_of_resident|lia|done].
      * destruct (Inv_victim i s Hinv) as (v & Hsel & Hv); [lia|].
        destruct (processPage_replaces F i s p v Hfr) as (k & Hk & _ & Hrep);
          [by apply includes_false|done|done|done|].
        destruct (processPage_resident_evict F s p v i k Hfr Hout Hk Hrep)
          as [Hres Hpf].
        rewrite Hres in Hrun. rewrite Hpf.
        exists (S n). split; [|lia].
        apply run_evict with v;
          [by rewrite elem_of_resident|lia|by apply elem_of_resident|done].
Qed.
End PolicyRuns.

Lemma fifo_victim_resident (F : Z) (i : nat) (s : Simulator) :
  1 ≤ F → fifo_inv s → Z.of_nat (length (frames s)) = F →
  ∃ v, (selectPageToReplace (dataStructures s) (frames s) i).1 = Some v ∧
       v ∈ frames s.
Proof.
  intros HF (q & Hds & _ & Hmem & _) Hfull.
  destruct (full_frames_nonempty F s HF) as [y Hy]; [lia|].
  rewrite Hds. destruct q as [|v q'].
  - apply Hmem in Hy. by apply elem_of_nil in Hy.
  - exists v. split; [done|]. apply Hmem. by left.
Qed.

Lemma lru_victim_resident (F : Z) (i : nat) (s : Simulator) :
  1 ≤ F → lru_inv s → Z.of_nat (length (frames s)) = F →
  ∃ v, (selectPageToReplace (dataStructures s) (frames s) i).1 = Some v ∧
       v ∈ frames s.
Proof.
  intros HF (l & Hds & _ & Hmem & _) Hfull.
  destruct (full_frames_nonempty F s HF) as [y Hy]; [lia|].
  rewrite Hds. destruct l as [|v l'].
  - apply Hmem in Hy. by apply elem_of_nil in Hy.
  - exists v. split; [done|]. apply Hmem. by left.
Qed.

Lemma clock_victim_resident (F : Z) (i : nat) (s : Simulator) :
  1 ≤ F → clock_inv F s → Z.of_nat (length (frames s)) = F →
  ∃ v, (selectPageToReplace (dataStructures s) (frames s) i).1 = Some v ∧
       v ∈ frames s.
Proof.
  intros HF (_ & _ & flags & zn & Hds & Hzn) Hfull.
  assert (zn < length (frames s))%nat as Hin by lia.
  destruct (clock_scan_full (frames s) flags zn Hin)
    as (m & victim & flags' & _ & _ & _ & Hsel & Hvic & _).
  exists victim. rewrite Hds. unfold selectPageToReplace. rewrite Hsel.
  split; [done|]. apply list_elem_of_lookup. eauto.
Qed.

(** ** Optimal is at least as good as any demand-paging strategy *)

Lemma next_occurrence_le_first (refs : list JsNumber) (i : nat)
    (a b : JsNumber) :
  ext_le (next_occurrence refs i a) (next_occurrence refs i b) →
  ext_le (first_occurrence a (drop (S i) refs))
         (first_occurrence b (drop (S i) refs)).
Proof.
  unfold next_occurrence.
  destruct (first_occurrence a _), (first_occurrence b _); simpl; lia.
Qed.

Lemma optimal_beats_demand_run (refs : list JsNumber) (F : Z)
    (pages : list JsNumber) :
  1 ≤ F →
  ∀ (i : nat) (s : Simulator) (n : nat),
  Forall is_int pages → frames_inv F i s →
  dataStructures s = DsOptimal (calculateFutureReferences refs) →
  drop i refs = pages →
  demand_run (Z.to_nat F) (resident s) pages n →
  (pageFaults (simulate_from i pages s) ≤ pageFaults s + n)%nat.
Proof.
  intros HF. induction pages as [|p pages IH];
    intros i s n Hint Hfr Hds Hdrop Hrun.
  - simpl. lia.
  - apply Forall_cons in Hint as [Hp Hint].
    pose proof (resident_size _ _ _ Hfr) as Hsize.
    pose proof (inv_length _ _ _ Hfr) as Hlen.
    assert (refs !! i = Some p) as Hi.
    { rewrite <- (Nat.add_0_r i), <- lookup_drop, Hdrop. done. }
    assert (drop (S i) refs = pages) as Hdrop'.
    { rewrite (drop_S _ _ _ Hi) in Hdrop. by injection Hdrop. }
    pose proof (processPage_frames_inv F i s p Hp Hfr) as Hfr'.
    pose proof (processPage_optimal s p i _ Hds) as Hds'.
    simpl simulate_from.
    inversion Hrun as [ | X r rs n' HrX Hrun' | X r rs n' HrX Hfree Hrun'
                      | X r rs n' u HrX Hfull Hu Hrun']; subst;
      pose proof (inv_numFrames _ _ _ Hfr) as HnF.
    + apply elem_of_resident in HrX.
      destruct (processPage_resident_hit s p i HrX) as [Hres Hpf].
      rewrite <- Hres in Hrun'.
      specialize (IH (S i) _ _ Hint Hfr' Hds' eq_refl Hrun'). lia.
    + rewrite elem_of_resident in HrX.
      destruct (processPage_resident_load s p i HrX) as [Hres Hpf]; [lia|].
      rewrite <- Hres in Hrun'.
      specialize (IH (S i) _ _ Hint Hfr' Hds' eq_refl Hrun'). lia.
    + rewrite elem_of_resident in HrX.
      assert (Z.of_nat (length (frames s)) = F) as Hfull' by lia.
      destruct (processPage_optimal_evicts refs F i s p HF Hfr Hds HrX
                  Hfull' i)
        as (slot & victim & _ & Hslot & Hall & _ & Hrep).
      specialize (Hrep eq_refl).
      destruct (processPage_resident_evict F s p victim i slot Hfr HrX
                  Hslot Hrep) as [Hres Hpf].
      assert (victim ∈ resident s) as Hvic.
      { apply elem_of_resident, list_elem_of_lookup. eauto. }
      assert (p ∉ resident s) as HpX by (by rewrite elem_of_resident).
      destruct (decide (u = victim)) as [->|Hne].
      * rewrite <- Hres in Hrun'.
        specialize (IH (S i) _ _ Hint Hfr' Hds' eq_refl Hrun'). lia.
      * set (T := {[p]} ∪ (resident s ∖ {[u]} ∖ {[victim]})).
        destruct (run_swap (Z.to_nat F) _ _ _ Hrun' T u victim)
          as (m & Hm & Hle).
        { unfold T. apply set_eq. intros x.
          destruct (decide (x = victim)); set_solver. }
        { unfold T. set_solver. }
        { unfold T. set_solver. }
        { done. }
        { assert (size (T ∪ {[victim]}) = size (resident s)) as Hs.
          { replace (T ∪ {[victim]}) with ({[p]} ∪ (resident s ∖ {[u]})).
            - by apply size_swap.
            - unfold T. apply set_eq. intros x.
              destruct (decide (x = victim)); set_solver. }
          rewrite size_union in Hs by (unfold T; set_solver).
          rewrite size_singleton in Hs. lia. }
        { apply (next_occurrence_le_first refs i).
          apply elem_of_resident, list_elem_of_lookup in Hu as [j Hj].
          by apply (Hall j). }
        assert (T ∪ {[u]} = resident (processPage s p i)) as HT.
        { rewrite Hres. unfold T. apply set_eq. intros x.
          destruct (decide (x = u)); set_solver. }
        rewrite HT in Hm.
        specialize (IH (S i) _ _ Hint Hfr' Hds' eq_refl Hm). lia.
Qed.

(** C6.  For every frame count [F >= 1] and every reference sequence of
    integers, the Optimal simulation faults no more often than the FIFO,
    the LRU and the Clock simulation of the same sequence with the same
    frame count. *)
Theorem optimal_has_fewest_faults (input : string) (F : Z) :
  1 ≤ F → Forall is_int (parse_reference_string input) →
  let faults algorithm := pageFaults (simulate (constructor_ input F algorithm)) in
  (faults "optimal" ≤ faults "fifo")%nat ∧
  (faults "optimal" ≤ faults "lru")%nat ∧
  (faults "optimal" ≤ faults "clock")%nat.
Proof.
  intros HF Hint faults.
  set (refs := parse_reference_string input) in *.
  assert (Hopt : ∀ n, demand_run (Z.to_nat F) ∅ refs n →
                      (faults "optimal" ≤ n)%nat).
  { intros n Hrun. unfold faults, simulate.
    pose proof (optimal_beats_demand_run refs F refs HF 0
                  (make_simulator refs F "optimal") n Hint) as H.
    apply H; [apply frames_inv_init; lia|done|done|done]. }
  split; [|split]; apply Hopt.
  - destruct (policy_is_demand_run F
                (fun i s => frames_inv F i s ∧ fifo_inv s)) with
      (pages := refs) (i := 0%nat) (s := make_simulator refs F "fifo")
      as (n & Hrun & Hn); try done.
    + by intros i s [? ?].
    + intros i s p Hp [? ?]. split;
        [by apply processPage_frames_inv|by eapply processPage_fifo_inv].
    + intros i s [? ?] ?. by eapply fifo_victim_resident.
    + split; [apply frames_inv_init; lia|apply fifo_inv_init].
    + change (faults "fifo") with
        (pageFaults (simulate_from 0 refs (make_simulator refs F "fifo"))).
      rewrite Hn. exact Hrun.
  - destruct (policy_is_demand_run F
                (fun i s => frames_inv F i s ∧ lru_inv s)) with
      (pages := refs) (i := 0%nat) (s := make_simulator refs F "lru")
      as (n & Hrun & Hn); try done.
    + by intros i s [? ?].
    + intros i s p Hp [? ?]. split;
        [by apply processPage_frames_inv|by eapply processPage_lru_inv].
    + intros i s [? ?] ?. by eapply lru_victim_resident.
    + split; [apply frames_inv_init; lia|apply lru_inv_init].
    + change (faults "lru") with
        (pageFaults (simulate_from 0 refs (make_simulator refs F "lru"))).
      rewrite Hn. exact Hrun.
  - destruct (policy_is_demand_run F
                (fun i s => frames_inv F i s ∧ clock_inv F s)) with
      (pages := refs) (i := 0%nat) (s := make_simulator refs F "clock")
      as (n & Hrun & Hn); try done.
    + by intros i s [? ?].
    + intros i s p Hp [? ?]. split;
        [by apply processPage_frames_inv|by apply processPage_clock_inv].
    + intros i s [? ?] ?. by eapply clock_victim_resident.
    + split; [apply frames_inv_init; lia|by apply clock_inv_init].
    + change (faults "clock") with
        (pageFaults (simulate_from 0 refs (make_simulator refs F "clock"))).
      rewrite Hn. exact Hrun.
Qed.

Lemma optimal_has_fewest_faults_witness :
  let faults algorithm :=
    pageFaults (simulate
      (constructor_ "7,0,1,2,0,3,0,4,2,3,0,3,2,1,2,0,1,7,0,1" 3 algorithm)) in
  (faults "optimal" ≤ faults "fifo")%nat ∧
  (faults "optimal" ≤ faults "lru")%nat ∧
  (faults "optimal" ≤ faults "clock")%nat.
Proof.
  apply (optimal_has_fewest_faults
           "7,0,1,2,0,3,0,4,2,3,0,3,2,1,2,0,1,7,0,1" 3).
  - lia.
  - vm_compute. repeat constructor.
Defined.

(** The restriction to integer pages cannot be dropped.  [indexOf] does not
    find a [NaN] victim, so a fault that selects it stores nothing: on the
    input x,1,2,2,2,2 with two frames Optimal selects the [NaN] page at
    every fault on page 2 and faults six times, where FIFO faults four
    times. *)
Example NaN_victim_is_not_replaced :
  let run algorithm := simulate (constructor_ "x,1,2,2,2,2" 2 algorithm) in
  pageFaults (run "optimal") = 6%nat ∧ frames (run "optimal") = [NaN; Int 1] ∧
  pageFaults (run "fifo") = 4%nat ∧ frames (run "fifo") = [NaN; Int 2].
Proof. vm_compute. repeat split; reflexivity. Qed.

(** ** The shape of the data structures follows the selector *)

Lemma initializeAlgorithm_shape (algorithm : string) (refs : list JsNumber) :
  shape_matches algorithm (initializeAlgorithm algorithm refs).
Proof.
  unfold initializeAlgorithm.
  destruct (String.eqb_spec algorithm "fifo") as [->|H1]; [done|].
  destruct (String.eqb_spec algorithm "lru") as [->|H2]; [done|].
  destruct (String.eqb_spec algorithm "optimal") as [->|H3]; [done|].
  destruct (String.eqb_spec algorithm "clock") as [->|H4]; [done|].
  simpl. unfold known_algorithm. intros H.
  repeat (apply elem_of_cons in H as [H|H]; [done|]).
  by apply elem_of_nil in H.
Qed.

Lemma processPage_shape (s : Simulator) (p : JsNumber) (i : nat) :
  shape_matches (algorithm s) (dataStructures s) →
  shape_matches (algorithm (processPage s p i))
    (dataStructures (processPage s p i)).
Proof.
  rewrite processPage_algorithm, processPage_dataStructures.
  destruct (dataStructures s) as [q|l|fr|flags ptr|] eqn:Hds; intros Hshape.
  - by repeat case_match.
  - by repeat case_match.
  - by repeat case_match.
  - unfold selectPageToReplace.
    destruct (selectClockPage (frames s) flags ptr) as [[page fl] pt].
    by repeat case_match.
  - by repeat case_match.
Qed.

(** In every state a simulation reaches, the object [dataStructures] has
    the fields of the branch that [switch (this.algorithm)] takes. *)
Lemma dataStructures_shape (input : string) (F : Z) (selector : string)
    (k : nat) :
  let s := after_steps k (constructor_ input F selector) in
  shape_matches (algorithm s) (dataStructures s).
Proof.
  intros s. subst s. unfold after_steps.
  generalize (take k (referenceString (constructor_ input F selector))).
  intros pages.
  assert (∀ i s, shape_matches (algorithm s) (dataStructures s) →
            shape_matches (algorithm (simulate_from i pages s))
              (dataStructures (simulate_from i pages s))) as H.
  { induction pages as [|p pages IH]; intros i s Hs; simpl; [done|].
    by apply IH, processPage_shape. }
  apply H. simpl. apply initializeAlgorithm_shape.
Qed.

(** * Further properties *)

(** ** More on the reference parser *)

Lemma split_comma_chars_length (l : list ascii) :
  length (split_comma_chars l) = S (count_commas l).
Proof.
  induction l as [|c l IH]; simpl; [done|].
  destruct (Ascii.eqb c ","%char); simpl; [by rewrite IH|].
  destruct (split_comma_chars l) as [|t ts]; simpl in *; [lia|done].
Qed.

Lemma split_comma_chars_no_comma (l : list ascii) :
  count_commas l = 0%nat → split_comma_chars l = [l].
Proof.
  induction l as [|c l IH]; simpl; [done|].
  destruct (Ascii.eqb c ","%char); simpl; [lia|].
  intros H. by rewrite IH.
Qed.

(** X1.  The constructor's reference sequence has one entry more than the
    input has commas; so it is never empty, and an input without a comma
    (blank-separated numbers, say) is read as one single reference, the
    integer [parseInt] finds at its start. *)
Theorem reference_sequence_has_one_entry_per_comma_piece
    (input : string) (F : Z) (selector : string) :
  let refs := referenceString (constructor_ input F selector) in
  length refs = S (count_commas (list_ascii_of_string input)) ∧
  refs ≠ [] ∧
  (count_commas (list_ascii_of_string input) = 0%nat →
   refs = [parseInt_chars (trim_chars (list_ascii_of_string input))]).
Proof.
  intros refs. subst refs. simpl. unfold parse_reference_string.
  split; [|split].
  - by rewrite length_map, split_comma_chars_length.
  - intros H. apply (f_equal (@length JsNumber)) in H.
    rewrite length_map, split_comma_chars_length in H. done.
  - intros H. by rewrite split_comma_chars_no_comma.
Qed.

(** ** The future-reference table *)

Lemma elem_of_occurrences_from (p : JsNumber) (pages : list JsNumber) :
  ∀ (i j : nat),
  j ∈ occurrences_from i pages p ↔ (i ≤ j)%nat ∧ pages !! (j - i)%nat = Some p.
Proof.
  induction pages as [|x rest IH]; intros i j; simpl.
  - split; [intros H; by apply elem_of_nil in H|]. intros [_ H]. done.
  - rewrite elem_of_app, IH. destruct (decide (x = p)) as [->|Hne].
    + rewrite list_elem_of_singleton. split.
      * intros [->|[Hle Hl]].
        { split; [lia|]. by rewrite Nat.sub_diag. }
        split; [lia|]. by replace (j - i)%nat with (S (j - S i)) by lia.
      * intros [Hle Hl]. destruct (decide (j = i)) as [->|Hji]; [by left|].
        right. split; [lia|].
        by replace (j - i)%nat with (S (j - S i)) in Hl by lia.
    + split.
      * intros [H|[Hle Hl]]; [by apply elem_of_nil in H|].
        split; [lia|]. by replace (j - i)%nat with (S (j - S i)) by lia.
      * intros [Hle Hl]. right.
        destruct (decide (j = i)) as [->|Hji].
        { rewrite Nat.sub_diag in Hl. simpl in Hl. congruence. }
        split; [lia|].
        by replace (j - i)%nat with (S (j - S i)) in Hl by lia.
Qed.

Lemma occurrences_from_sorted (p : JsNumber) (pages : list JsNumber) :
  ∀ i : nat, StronglySorted lt (occurrences_from i pages p).
Proof.
  induction pages as [|x rest IH]; intros i; simpl; [constructor|].
  destruct (decide (x = p)); simpl; [|apply IH].
  constructor; [apply IH|].
  apply Forall_forall. intros j Hj.
  apply elem_of_occurrences_from in Hj as [Hj _]. lia.
Qed.

Lemma calculateFutureReferences_from_None (pages : list JsNumber) :
  ∀ (i : nat) (m : gmap JsNumber (list nat)) (p : JsNumber),
  calculateFutureReferences_from i pages m !! p = None ↔
  m !! p = None ∧ p ∉ pages.
Proof.
  induction pages as [|x rest IH]; intros i m p; simpl.
  - split; [intros H; split; [done|apply not_elem_of_nil]|by intros [? _]].
  - rewrite IH, not_elem_of_cons. destruct (decide (x = p)) as [->|Hne].
    + rewrite lookup_insert_eq. split; [by intros [? _]|]. by intros [_ [? _]].
    + rewrite lookup_insert_ne by done. split.
      * intros [? ?]. split; [done|]. split; [congruence|done].
      * intros [? [? ?]]. done.
Qed.

(** X2.  The table [calculateFutureReferences] builds has an entry exactly
    for the pages that occur in the reference sequence, and the entry of a
    page lists exactly the positions at which it occurs, in strictly
    ascending order. *)
Theorem future_references_table (refs : list JsNumber) (p : JsNumber) :
  let table := calculateFutureReferences refs in
  (table !! p = None ↔ p ∉ refs) ∧
  (∀ i : nat, i ∈ default [] (table !! p) ↔ refs !! i = Some p) ∧
  StronglySorted lt (default [] (table !! p)).
Proof.
  intros table. subst table. unfold calculateFutureReferences.
  split; [|split].
  - rewrite calculateFutureReferences_from_None, lookup_empty. tauto.
  - intros i. rewrite calculateFutureReferences_from_lookup, lookup_empty.
    simpl. rewrite elem_of_occurrences_from, Nat.sub_0_r.
    split; [by intros [_ ?]|]. intros ?. split; [lia|done].
  - rewrite calculateFutureReferences_from_lookup, lookup_empty. simpl.
    apply occurrences_from_sorted.
Qed.

(** ** The frame set, whatever the configuration *)

Lemma elem_of_store_frame (fs : list JsNumber) (ix : option nat)
    (p x : JsNumber) :
  x ∈ store_frame fs ix p → x = p ∨ x ∈ fs.
Proof.
  destruct ix as [k|]; simpl; [|by right].
  intros Hin. apply list_elem_of_lookup in Hin as [j Hj].
  destruct (decide (j = k)) as [->|Hne].
  - destruct (decide (k < length fs)%nat).
    + rewrite list_lookup_insert_eq in Hj by done. left. congruence.
    + rewrite list_insert_ge in Hj by lia. right.
      apply list_elem_of_lookup. eauto.
  - rewrite list_lookup_insert_ne in Hj by done. right.
    apply list_elem_of_lookup. eauto.
Qed.

Lemma processPage_frames_NoDup (s : Simulator) (p : JsNumber) (i : nat) :
  NoDup (frames s) → NoDup (frames (processPage s p i)).
Proof.
  intros Hnd. rewrite processPage_frames.
  destruct (includes (frames s) p) eqn:Hinc; [done|].
  apply includes_false in Hinc.
  destruct (_ <? _).
  - apply NoDup_app. split; [done|]. split; [|apply NoDup_singleton].
    intros x Hx Hxp. apply list_elem_of_singleton in Hxp. by subst.
  - destruct (indexOf _ _); simpl; [|done]. by apply NoDup_list_insert.
Qed.

Lemma processPage_frames_elem (s : Simulator) (p x : JsNumber) (i : nat) :
  x ∈ frames (processPage s p i) → x = p ∨ x ∈ frames s.
Proof.
  rewrite processPage_frames.
  destruct (includes (frames s) p); [by right|].
  destruct (_ <? _).
  - rewrite elem_of_app, list_elem_of_singleton. tauto.
  - apply elem_of_store_frame.
Qed.

Lemma simulate_from_frames_NoDup (pages : list JsNumber) :
  ∀ (i : nat) (s : Simulator),
  NoDup (frames s) → NoDup (frames (simulate_from i pages s)).
Proof.
  induction pages as [|p pages IH]; intros i s H; simpl; [done|].
  by apply IH, processPage_frames_NoDup.
Qed.

Lemma simulate_from_frames_elem (pages : list JsNumber) :
  ∀ (i : nat) (s : Simulator) (x : JsNumber),
  x ∈ frames (simulate_from i pages s) → x ∈ pages ∨ x ∈ frames s.
Proof.
  induction pages as [|p pages IH]; intros i s x; simpl; [by right|].
  intros H. apply IH in H as [H|H]; [left; by right|].
  apply processPage_frames_elem in H as [->|H]; [left; by left|by right].
Qed.

(** X3.  At every point of every simulation, whatever the frame count, the
    selector and the input, no page occupies two frames, and every resident
    page is one of the references processed so far. *)
Theorem frames_hold_distinct_referenced_pages
    (input : string) (F : Z) (selector : string) (k : nat) :
  let s0 := constructor_ input F selector in
  let s := after_steps k s0 in
  NoDup (frames s) ∧
  ∀ x, x ∈ frames s → x ∈ take k (referenceString s0).
Proof.
  intros s0 s. subst s. unfold after_steps. split.
  - apply simulate_from_frames_NoDup. constructor.
  - intros x Hx. apply simulate_from_frames_elem in Hx as [Hx|Hx]; [done|].
    by apply elem_of_nil in Hx.
Qed.

(** ** The history as a replay log *)

Lemma simulate_from_history_extends (pages : list JsNumber) :
  ∀ (i : nat) (s : Simulator),
  ∃ rest, history (simulate_from i pages s) = history s ++ rest.
Proof.
  induction pages as [|p pages IH]; intros i s; simpl.
  - exists []. by rewrite app_nil_r.
  - destruct (IH (S i) (processPage s p i)) as [rest Hrest].
    rewrite Hrest, processPage_history, <- app_assoc. by eexists.
Qed.

Lemma simulate_resumes (s0 : Simulator) (k : nat) :
  simulate s0 =
  simulate_from (k `min` length (referenceString s0))
    (drop k (referenceString s0)) (after_steps k s0).
Proof.
  unfold simulate, after_steps.
  rewrite <- (take_drop k (referenceString s0)) at 1.
  rewrite simulate_from_app, length_take. done.
Qed.

Lemma after_steps_history_length (s0 : Simulator) (k : nat) :
  history s0 = [] →
  length (history (after_steps k s0)) = (k `min` length (referenceString s0))%nat.
Proof.
  intros H0. unfold after_steps.
  destruct (simulate_from_counters (take k (referenceString s0)) 0 s0)
    as [_ H].
  simpl in H. rewrite H, H0, length_take. simpl. lia.
Qed.

(** X4.  The history is a replay log of the simulation: its entry [j]
    carries the step index [j], the [j]-th reference, whether that page was
    resident when it was referenced, and the frames and (JSON-copied) policy
    state the engine had right after step [j]; the history after [k] steps
    consists of the first [k] entries of the final history. *)
Theorem history_replays_the_simulation
    (input : string) (F : Z) (selector : string) :
  let s0 := constructor_ input F selector in
  (∀ (j : nat) (p : JsNumber), referenceString s0 !! j = Some p →
     history (simulate s0) !! j =
     Some (Entry.mk j p
             (includes (frames (after_steps j s0)) p)
             (frames (after_steps (S j) s0))
             (json_clone (dataStructures (after_steps (S j) s0))))) ∧
  (∀ k : nat, history (after_steps k s0) = take k (history (simulate s0))).
Proof.
  intros s0.
  assert (Hpre : ∀ k, ∃ rest,
            history (simulate s0) = history (after_steps k s0) ++ rest).
  { intros k. rewrite (simulate_resumes s0 k).
    apply simulate_from_history_extends. }
  split.
  - intros j p Hj.
    destruct (Hpre (S j)) as [rest Hrest]. rewrite Hrest.
    rewrite (after_steps_S s0 j p Hj), processPage_history.
    rewrite <- app_assoc.
    pose proof (lookup_lt_Some _ _ _ Hj) as Hlt.
    assert (length (history (after_steps j s0)) = j) as Hl
      by (rewrite after_steps_history_length by done; lia).
    rewrite lookup_app_r by lia. by rewrite Hl, Nat.sub_diag.
  - intros k. destruct (Hpre k) as [rest Hrest]. rewrite Hrest.
    destruct (decide (k ≤ length (referenceString s0))%nat) as [Hle|Hgt].
    + rewrite take_app_length'; [done|].
      rewrite after_steps_history_length by done. lia.
    + assert (rest = []) as ->.
      { apply (f_equal (@length Entry.t)) in Hrest.
        rewrite length_app, simulate_history_length in Hrest.
        rewrite after_steps_history_length in Hrest by done.
        change (length (history s0)) with 0%nat in Hrest.
        apply nil_length_inv. lia. }
      rewrite app_nil_r. rewrite take_ge; [done|].
      rewrite after_steps_history_length by done. lia.
Qed.

(** ** Statistics *)

Lemma simulate_from_pageFaults_mono (pages : list JsNumber) :
  ∀ (i : nat) (s : Simulator),
  (pageFaults s ≤ pageFaults (simulate_from i pages s))%nat.
Proof.
  induction pages as [|p pages IH]; intros i s; simpl; [done|].
  etrans; [|apply IH]. rewrite processPage_pageFaults.
  destruct (includes (frames s) p); lia.
Qed.

Lemma nearest_even_nonneg (num den : Z) :
  0 ≤ num → 0 < den → 0 ≤ nearest_even num den.
Proof.
  intros Hn Hd. unfold nearest_even.
  pose proof (Z.div_pos num den Hn Hd) as Hq.
  destruct (2 * (num mod den) <? den); [exact Hq|].
  destruct (den <? 2 * (num mod den)); [lia|].
  destruct (Z.even (num / den)); lia.
Qed.

Lemma nearest_even_le (num den N : Z) :
  0 < den → num ≤ N * den → nearest_even num den ≤ N.
Proof.
  intros Hd Hle. unfold nearest_even.
  pose proof (Z.div_mod num den ltac:(lia)) as Hdm.
  pose proof (Z.mod_pos_bound num den Hd) as Hr.
  set (q := num / den) in *. set (r := num mod den) in *.
  assert (q <= N) as HqN by nia.
  assert (q = N -> r = 0) as Hexact by nia.
  destruct (Z.ltb_spec (2 * r) den) as [H1|H1]; [exact HqN|].
  assert (q < N) by (destruct (Z.eq_dec q N) as [E|E]; [apply Hexact in E|]; lia).
  destruct (den <? 2 * r); [lia|].
  destruct (Z.even q); lia.
Qed.

Lemma binade_lower (a b : Z) :
  0 < a → 0 < b → 0 ≤ binade a b → b * 2 ^ binade a b ≤ a.
Proof.
  intros Ha Hb. unfold binade.
  pose proof (Z.log2_spec a Ha) as [Hla _].
  pose proof (Z.log2_spec b Hb) as [_ Hlb].
  pose proof (Z.log2_nonneg a) as Hna.
  pose proof (Z.log2_nonneg b) as Hnb.
  set (la := Z.log2 a) in *. set (lb := Z.log2 b) in *.
  destruct (Z.leb_spec 0 (la - lb)) as [Hd|Hd].
  - destruct (Z.leb_spec (b * 2 ^ (la - lb)) a) as [Hc|Hc]; [done|].
    intros He.
    assert (2 ^ la = 2 ^ Z.succ lb * 2 ^ (la - lb - 1)) as Hpow.
    { rewrite <- Z.pow_add_r by lia. f_equal. lia. }
    assert (0 < 2 ^ (la - lb - 1)) by (apply Z.pow_pos_nonneg; lia).
    nia.
  - destruct (b <=? a * 2 ^ (- (la - lb))); lia.
Qed.

Lemma to_double_mantissa_nonneg (a b : Z) :
  0 ≤ a → 0 < b → 0 ≤ mantissa (to_double a b).
Proof.
  intros Ha Hb. unfold to_double.
  destruct (a =? 0); [done|]. cbn [mantissa].
  destruct (Z.leb_spec 0 (52 - binade a b)).
  - apply nearest_even_nonneg; [|done].
    apply Z.mul_nonneg_nonneg; [done|]. apply Z.pow_nonneg. lia.
  - apply nearest_even_nonneg; [done|].
    apply Z.mul_pos_pos; [done|]. apply Z.pow_pos_nonneg; lia.
Qed.

Lemma to_double_le (a b N : Z) :
  0 ≤ a → 0 < b → 0 < N < 2 ^ 53 → a ≤ N * b →
  double_le (to_double a b) N.
Proof.
  intros Ha Hb HN Hle. unfold to_double, double_le.
  destruct (Z.eqb_spec a 0) as [->|Hne]; [cbn; lia|].
  cbn [mantissa exponent].
  pose proof (binade_lower a b ltac:(lia) Hb) as Hlow.
  set (e := binade a b) in *. clearbody e.
  destruct (Z.leb_spec 0 (52 - e)) as [Hk|Hk].
  - assert (0 < 2 ^ (52 - e)) as Hp by (apply Z.pow_pos_nonneg; lia).
    assert (nearest_even (a * 2 ^ (52 - e)) b <= N * 2 ^ (52 - e)) as Hm.
    { apply nearest_even_le; [done|]. nia. }
    destruct (Z.leb_spec 0 (e - 52)) as [He|He].
    + assert (e = 52) as -> by lia.
      change (2 ^ (52 - 52)) with 1 in *. lia.
    + replace (- (e - 52)) with (52 - e) by lia. exact Hm.
  - exfalso.
    assert (2 ^ 53 <= 2 ^ e) by (apply Z.pow_le_mono_r; lia).
    nia.
Qed.

Lemma double_times_le (x : Double) (M n : Z) :
  0 ≤ mantissa x → 0 ≤ n → 0 < M * n < 2 ^ 53 →
  double_le x M → double_le (double_times x n) (M * n).
Proof.
  intros Hm Hn HN Hx. unfold double_times. unfold double_le in Hx.
  destruct (Z.leb_spec 0 (exponent x)) as [He|He].
  - assert (0 < 2 ^ exponent x) by (apply Z.pow_pos_nonneg; lia).
    apply to_double_le; [nia|lia|done|nia].
  - assert (0 < 2 ^ (- exponent x)) by (apply Z.pow_pos_nonneg; lia).
    apply to_double_le; [nia|lia|done|nia].
Qed.

Lemma double_times_mantissa_nonneg (x : Double) (n : Z) :
  0 ≤ mantissa x → 0 ≤ n → 0 ≤ mantissa (double_times x n).
Proof.
  intros Hm Hn. unfold double_times.
  destruct (Z.leb_spec 0 (exponent x)) as [He|He].
  - assert (0 < 2 ^ exponent x) by (apply Z.pow_pos_nonneg; lia).
    apply to_double_mantissa_nonneg; [nia|lia].
  - assert (0 < 2 ^ (- exponent x)) by (apply Z.pow_pos_nonneg; lia).
    apply to_double_mantissa_nonneg; [nia|lia].
Qed.

Lemma toFixed2_bounds (x : Double) (N : Z) :
  0 ≤ mantissa x → 0 ≤ N → double_le x N →
  0 ≤ toFixed2 x ≤ 100 * N.
Proof.
  intros Hm HN Hx. unfold toFixed2. unfold double_le in Hx.
  destruct (Z.leb_spec 0 (exponent x)) as [He|He].
  - assert (0 < 2 ^ exponent x) by (apply Z.pow_pos_nonneg; lia).
    split.
    + apply Z.div_pos; nia.
    + apply Z.lt_succ_r, Z.div_lt_upper_bound; nia.
  - assert (0 < 2 ^ (- exponent x)) by (apply Z.pow_pos_nonneg; lia).
    split.
    + apply Z.div_pos; nia.
    + apply Z.lt_succ_r, Z.div_lt_upper_bound; nia.
Qed.

(** With 23 hits among 160 references the quotient is rounded to a double
    whose product by 100 lies just below 14.375, so the ratio is printed as
    14.37, where the exact ratio would round to 14.38. *)
Example hit_ratio_rounds_the_double :
  Statistics.hitRatio
    (getStatistics (mkSimulator [] 3 "fifo" [] 137 23 [] DsEmpty))
  = RatioFixed2 1437.
Proof. reflexivity. Qed.

(** The hundredths printed for [h] hits among [t] references. *)
Lemma hit_ratio_bounds (h t : Z) :
  0 ≤ h ≤ t → 0 < t →
  0 ≤ toFixed2 (double_times (to_double h t) 100) ≤ 10000.
Proof.
  intros Hh Ht.
  apply (toFixed2_bounds _ 100); [|lia|].
  - apply double_times_mantissa_nonneg; [|lia].
    apply to_double_mantissa_nonneg; lia.
  - apply (double_times_le _ 1 100); [|lia|done|].
    + apply to_double_mantissa_nonneg; lia.
    + apply to_double_le; [lia|lia|done|lia].
Qed.

(** X5.  Before [simulate] the statistics are all zero, with the number 0
    as hit ratio.  After [simulate] on a constructed engine the total is the
    number of input tokens (at least one), the first reference has faulted,
    and the hit ratio is never the number 0 again but a two-decimals text
    between 0.00 and 100.00. *)
Theorem statistics_before_and_after_simulate
    (input : string) (F : Z) (selector : string) :
  let s0 := constructor_ input F selector in
  let st := getStatistics (simulate s0) in
  getStatistics s0 = Statistics.mk 0 0 RatioZero 0 ∧
  Statistics.totalReferences st = length (tokens input) ∧
  (Statistics.pageFaults st + Statistics.pageHits st)%nat =
    Statistics.totalReferences st ∧
  (1 ≤ Statistics.pageFaults st)%nat ∧
  ∃ h, Statistics.hitRatio st = RatioFixed2 h ∧ 0 ≤ h ≤ 10000.
Proof.
  intros s0 st. split; [reflexivity|].
  assert (Hlen : length (referenceString s0) = length (tokens input)).
  { simpl. unfold parse_reference_string. by rewrite length_map. }
  destruct (simulate_from_counters (referenceString s0) 0 s0) as [Hsum _].
  fold (simulate s0) in Hsum.
  change (pageHits s0) with 0%nat in Hsum.
  change (pageFaults s0) with 0%nat in Hsum.
  assert (Hfirst : (1 ≤ pageFaults (simulate s0))%nat).
  { unfold simulate. destruct (referenceString s0) as [|p rest] eqn:E.
    - simpl in Hlen. unfold tokens in Hlen.
      rewrite split_comma_chars_length in Hlen. lia.
    - simpl. etrans; [|apply simulate_from_pageFaults_mono].
      rewrite processPage_pageFaults. simpl. lia. }
  subst st. unfold getStatistics.
  cbn [Statistics.totalReferences Statistics.pageFaults Statistics.pageHits
       Statistics.hitRatio].
  split; [lia|]. split; [done|]. split; [done|].
  destruct (Nat.ltb_spec 0 (pageFaults (simulate s0) + pageHits (simulate s0)))
    as [Hpos|Hzero]; [|lia].
  eexists. split; [reflexivity|].
  apply hit_ratio_bounds; lia.
Qed.

(** ** Optimal: the table is read-only *)

Lemma simulate_from_optimal_history (fr : gmap JsNumber (list nat))
    (pages : list JsNumber) :
  ∀ (i : nat) (s : Simulator),
  dataStructures s = DsOptimal fr →
  Forall (fun e => Entry.dataStructures e = JsonOptimal fr) (history s) →
  Forall (fun e => Entry.dataStructures e = JsonOptimal fr)
    (history (simulate_from i pages s)).
Proof.
  induction pages as [|p pages IH]; intros i s Hds Hh; simpl; [done|].
  apply IH; [by apply processPage_optimal|].
  rewrite processPage_history. apply Forall_app. split; [done|].
  constructor; [|constructor]. cbn [Entry.dataStructures].
  by rewrite (processPage_optimal s p i fr Hds).
Qed.

(** X6.  Under the Optimal policy the future-reference table is computed
    once and never changes: at every point of the simulation the policy
    state is the table of the whole reference sequence, and every history
    entry carries that same table. *)
Theorem optimal_table_is_read_only (input : string) (F : Z) (k : nat) :
  let s0 := constructor_ input F "optimal" in
  let table := calculateFutureReferences (referenceString s0) in
  let s := after_steps k s0 in
  dataStructures s = DsOptimal table ∧
  ∀ e, e ∈ history s → Entry.dataStructures e = JsonOptimal table.
Proof.
  intros s0 table s. subst s. unfold after_steps. split.
  - by apply simulate_from_optimal.
  - intros e He.
    assert (Forall (fun e => Entry.dataStructures e = JsonOptimal table)
              (history (simulate_from 0 (take k (referenceString s0)) s0)))
      as H.
    { apply simulate_from_optimal_history; [done|constructor]. }
    rewrite Forall_forall in H. by apply H.
Qed.

(** ** The referenced page becomes resident *)

Lemma processPage_page_resident (F : Z) (i : nat) (s : Simulator)
    (p : JsNumber) :
  1 ≤ F → frames_inv F i s → victim_resident F s →
  p ∈ frames (processPage s p i).
Proof.
  intros HF Hinv Hvic.
  pose proof (inv_length _ _ _ Hinv) as Hlen.
  pose proof (inv_numFrames _ _ _ Hinv) as HnF.
  destruct (decide (p ∈ frames s)) as [Hin|Hout].
  - rewrite processPage_frames.
    by rewrite (proj2 (includes_true _ _) Hin).
  - destruct (decide (Z.of_nat (length (frames s)) < F)) as [Hfree|Hfull].
    + rewrite processPage_frames.
      rewrite (proj2 (includes_false _ _) Hout).
      destruct (Z.ltb_spec (Z.of_nat (length (frames s))) (numFrames s));
        [|lia].
      apply elem_of_app. right. by apply list_elem_of_singleton.
    + destruct (Hvic ltac:(lia) i) as (v & Hsel & Hv).
      destruct (processPage_replaces F i s p v Hinv) as (k & Hk & _ & Hrep);
        [by apply includes_false|done|done|done|].
      rewrite Hrep. apply list_elem_of_insert. by eapply lookup_lt_Some.
Qed.

Lemma optimal_victim_resident (F : Z) (s : Simulator)
    (refs : list JsNumber) :
  1 ≤ F → dataStructures s = DsOptimal (calculateFutureReferences refs) →
  victim_resident F s.
Proof.
  intros HF Hds Hfull j.
  assert (frames s ≠ []) as Hne.
  { intros E. rewrite E in Hfull. simpl in Hfull. lia. }
  destruct (selectOptimalPage_spec refs j (frames s) Hne)
    as (k & v & Hsel & Hk & _).
  exists v. rewrite Hds. simpl. rewrite Hsel. split; [done|].
  apply list_elem_of_lookup. eauto.
Qed.

(** The states a simulation of one of the four policies reaches, for
    integer pages and at least one frame. *)
Lemma known_policy_reachable (input : string) (F : Z) (selector : string)
    (k : nat) :
  known_algorithm selector → 1 ≤ F →
  Forall is_int (parse_reference_string input) →
  let s := after_steps k (constructor_ input F selector) in
  frames_inv F (length (take k (parse_reference_string input))) s ∧
  victim_resident F s.
Proof.
  intros Hknown HF Hint s. subst s. unfold after_steps.
  change (referenceString (constructor_ input F selector))
    with (parse_reference_string input).
  change (constructor_ input F selector)
    with (make_simulator (parse_reference_string input) F selector).
  set (refs := parse_reference_string input) in *.
  assert (Forall is_int (take k refs)) as Hint' by (by apply Forall_take).
  assert (frames_inv F 0 (make_simulator refs F selector)) as Hinit
    by (apply frames_inv_init; lia).
  assert (frames_inv F (length (take k refs))
            (simulate_from 0 (take k refs) (make_simulator refs F selector)))
    as Hinv.
  { apply (simulate_from_invariant is_int (frames_inv F) ltac:(intros;
      by apply processPage_frames_inv) (take k refs) 0); done. }
  split; [done|].
  unfold known_algorithm in Hknown.
  repeat (apply elem_of_cons in Hknown as [->|Hknown]).
  - destruct (simulate_from_fifo_inv F (take k refs) 0
                (make_simulator refs F "fifo") HF Hint' Hinit
                (fifo_inv_init refs F)) as [_ H2].
    intros Hfull j. by eapply fifo_victim_resident.
  - destruct (simulate_from_lru_inv F (take k refs) 0
                (make_simulator refs F "lru") HF Hint' Hinit
                (lru_inv_init refs F)) as [_ H2].
    intros Hfull j. by eapply lru_victim_resident.
  - eapply optimal_victim_resident; [done|].
    by apply simulate_from_optimal.
  - intros Hfull j. eapply clock_victim_resident; [done| |done].
    by apply simulate_from_clock_inv, clock_inv_init.
  - by apply elem_of_nil in Hknown.
Qed.

(** X7.  Under each of the four policies, with at least one frame and
    integer pages, the page referenced at a step is resident right after
    that step (a hit leaves it in place, a fault loads it). *)
Theorem referenced_page_is_resident_after_its_step
    (input : string) (F : Z) (selector : string) (k : nat) (p : JsNumber) :
  known_algorithm selector → 1 ≤ F →
  Forall is_int (parse_reference_string input) →
  let s0 := constructor_ input F selector in
  referenceString s0 !! k = Some p →
  p ∈ frames (after_steps (S k) s0).
Proof.
  intros Hknown HF Hint s0 Hk.
  destruct (known_policy_reachable input F selector k Hknown HF Hint)
    as [Hinv Hvic].
  rewrite (after_steps_S s0 k p Hk).
  rewrite length_take in Hinv. apply lookup_lt_Some in Hk as Hlt.
  change (referenceString s0) with (parse_reference_string input) in Hlt.
  replace (k `min` length (parse_reference_string input))%nat with k
    in Hinv by lia.
  by eapply processPage_page_resident.
Qed.

Lemma referenced_page_is_resident_after_its_step_witness :
  Int 2 ∈ frames (after_steps 4 (constructor_ "7,0,1,2,0,3" 3 "clock")).
Proof.
  apply (referenced_page_is_resident_after_its_step
           "7,0,1,2,0,3" 3 "clock" 3 (Int 2)).
  - unfold known_algorithm. repeat constructor.
  - lia.
  - vm_compute. repeat constructor.
  - reflexivity.
Defined.

(** ** Distinct pages *)

Lemma note_pages_spec (l : list JsNumber) :
  ∀ seen, NoDup seen →
  NoDup (fold_left note_page l seen) ∧
  (∀ x, x ∈ fold_left note_page l seen ↔ x ∈ seen ∨ x ∈ l) ∧
  (length seen ≤ length (fold_left note_page l seen))%nat.
Proof.
  induction l as [|p l IH]; intros seen Hnd; simpl.
  - split; [done|]. split; [|done]. intros x. split; [by left|].
    intros [?|H]; [done|by apply elem_of_nil in H].
  - unfold note_page at 2 4 6. destruct (decide (p ∈ seen)) as [Hin|Hout].
    + destruct (IH seen Hnd) as (H1 & H2 & H3).
      split; [done|]. split; [|done].
      intros x. rewrite H2, elem_of_cons.
      split; [tauto|]. intros [?|[->|?]]; tauto.
    + destruct (IH (seen ++ [p])) as (H1 & H2 & H3).
      { apply NoDup_app. split; [done|]. split; [|apply NoDup_singleton].
        intros x Hx Hxp. apply list_elem_of_singleton in Hxp. by subst. }
      split; [done|]. split.
      * intros x. rewrite H2, elem_of_app, list_elem_of_singleton, elem_of_cons.
        tauto.
      * rewrite length_app in H3. simpl in H3. lia.
Qed.

Lemma distinct_pages_spec (l : list JsNumber) :
  NoDup (distinct_pages l) ∧ ∀ x, x ∈ distinct_pages l ↔ x ∈ l.
Proof.
  destruct (note_pages_spec l [] (NoDup_nil_2)) as (H1 & H2 & _).
  split; [done|]. intros x. rewrite H2. split; [|by right].
  intros [H|?]; [by apply elem_of_nil in H|done].
Qed.

Lemma simulate_from_enough_frames (pages : list JsNumber) :
  ∀ (i : nat) (s : Simulator),
  NoDup (frames s) →
  Z.of_nat (length (fold_left note_page pages (frames s))) ≤ numFrames s →
  let s' := simulate_from i pages s in
  frames s' = fold_left note_page pages (frames s) ∧
  (pageFaults s' + length (frames s) = pageFaults s + length (frames s'))%nat.
Proof.
  induction pages as [|p pages IH]; intros i s Hnd Hroom; simpl.
  - split; [done|lia].
  - simpl in Hroom. unfold note_page at 2. unfold note_page at 2 in Hroom.
    pose proof (processPage_frames s p i) as Hfr.
    pose proof (processPage_pageFaults s p i) as Hpf.
    destruct (decide (p ∈ frames s)) as [Hin|Hout].
    + rewrite (proj2 (includes_true _ _) Hin) in Hfr, Hpf.
      destruct (IH (S i) (processPage s p i)) as [H1 H2].
      * by rewrite Hfr.
      * by rewrite Hfr, processPage_numFrames.
      * rewrite Hfr in H1, H2. rewrite Hpf in H2. done.
    + rewrite (proj2 (includes_false _ _) Hout) in Hfr, Hpf.
      assert (NoDup (frames s ++ [p])) as Hnd'.
      { apply NoDup_app. split; [done|]. split; [|apply NoDup_singleton].
        intros x Hx Hxp. apply list_elem_of_singleton in Hxp. by subst. }
      destruct (note_pages_spec pages (frames s ++ [p]) Hnd')
        as (_ & _ & Hgrow).
      rewrite length_app in Hgrow. simpl in Hgrow.
      destruct (Z.ltb_spec (Z.of_nat (length (frames s))) (numFrames s));
        [|lia].
      destruct (IH (S i) (processPage s p i)) as [H1 H2].
      * by rewrite Hfr.
      * by rewrite Hfr, processPage_numFrames.
      * rewrite Hfr in H1, H2. rewrite Hpf in H2.
        rewrite length_app in H2. simpl in H2. split; [done|lia].
Qed.

(** X8.  When the frame count is at least the number of distinct pages of
    the reference sequence, nothing is ever evicted: under every selector
    (known or not) the final frame set is the list of distinct pages in
    order of first occurrence, and the faults are exactly one per distinct
    page. *)
Theorem enough_frames_one_fault_per_distinct_page
    (input : string) (F : Z) (selector : string) :
  let s0 := constructor_ input F selector in
  let pages := distinct_pages (referenceString s0) in
  Z.of_nat (length pages) ≤ F →
  (NoDup pages ∧ ∀ x, x ∈ pages ↔ x ∈ referenceString s0) ∧
  frames (simulate s0) = pages ∧
  pageFaults (simulate s0) = length pages.
Proof.
  intros s0 pages Hroom. split; [apply distinct_pages_spec|].
  destruct (simulate_from_enough_frames (referenceString s0) 0 s0)
    as [H1 H2]; [constructor|exact Hroom|].
  fold (simulate s0) in H1, H2.
  change (frames s0) with (@nil JsNumber) in H1, H2.
  change (pageFaults s0) with 0%nat in H2.
  split; [exact H1|]. rewrite H1 in H2.
  change (length (@nil JsNumber)) with 0%nat in H2.
  unfold pages, distinct_pages. lia.
Qed.

Lemma enough_frames_one_fault_per_distinct_page_witness :
  let s0 := constructor_ "1,2,1,3,2,x,3" 4 "none" in
  let pages := distinct_pages (referenceString s0) in
  (NoDup pages ∧ ∀ x, x ∈ pages ↔ x ∈ referenceString s0) ∧
  frames (simulate s0) = pages ∧
  pageFaults (simulate s0) = length pages.
Proof.
  apply (enough_frames_one_fault_per_distinct_page "1,2,1,3,2,x,3" 4 "none").
  vm_compute. discriminate.
Defined.

Lemma simulate_from_compulsory_faults (pages : list JsNumber) :
  ∀ (i : nat) (s : Simulator) (seen : list JsNumber),
  (∀ x, x ∈ frames s → x ∈ seen) →
  (length (fold_left note_page pages seen) + pageFaults s ≤
   pageFaults (simulate_from i pages s) + length seen)%nat.
Proof.
  induction pages as [|p pages IH]; intros i s seen Hsub; simpl; [lia|].
  pose proof (processPage_pageFaults s p i) as Hpf.
  unfold note_page at 2. destruct (decide (p ∈ seen)) as [Hin|Hout].
  - specialize (IH (S i) (processPage s p i) seen).
    assert (pageFaults s ≤ pageFaults (processPage s p i))%nat
      by (rewrite Hpf; destruct (includes (frames s) p); lia).
    etrans; [|apply IH].
    + lia.
    + intros x Hx. apply processPage_frames_elem in Hx as [->|Hx]; auto.
  - assert (p ∉ frames s) as Hnot by (intros H; by apply Hout, Hsub).
    rewrite (proj2 (includes_false _ _) Hnot) in Hpf.
    specialize (IH (S i) (processPage s p i) (seen ++ [p])).
    rewrite length_app in IH. change (length [p]) with 1%nat in IH.
    rewrite Hpf in IH.
    assert (∀ x, x ∈ frames (processPage s p i) → x ∈ seen ++ [p]) as Hsub'.
    { intros x Hx. rewrite elem_of_app, list_elem_of_singleton.
      apply processPage_frames_elem in Hx as [->|Hx]; auto. }
    specialize (IH Hsub'). lia.
Qed.

(** X9.  Whatever the frame count, the selector and the input, the first
    reference to each distinct page is a fault: a simulation never has
    fewer faults than the reference sequence has distinct pages. *)
Theorem faults_at_least_distinct_pages
    (input : string) (F : Z) (selector : string) :
  let s0 := constructor_ input F selector in
  (length (distinct_pages (referenceString s0)) ≤ pageFaults (simulate s0))%nat.
Proof.
  intros s0.
  pose proof (simulate_from_compulsory_faults (referenceString s0) 0 s0 [])
    as H.
  fold (simulate s0) in H. change (pageFaults s0) with 0%nat in H.
  change (length (@nil JsNumber)) with 0%nat in H.
  unfold distinct_pages.
  assert (∀ x, x ∈ frames s0 → x ∈ @nil JsNumber) as Hsub by done.
  specialize (H Hsub). lia.
Qed.

(** ** An unrecognized selector *)

Lemma processPage_frames_DsEmpty (s : Simulator) (p : JsNumber) (i : nat) :
  dataStructures s = DsEmpty →
  frames (processPage s p i) =
  if includes (frames s) p then frames s
  else if Z.of_nat (length (frames s)) <? numFrames s
       then frames s ++ [p] else frames s.
Proof. intros Hds. by rewrite processPage_frames, Hds. Qed.

Lemma simulate_from_unknown_selector (pages : list JsNumber) :
  ∀ (i : nat) (s : Simulator) (seen : list JsNumber),
  dataStructures s = DsEmpty → NoDup seen →
  frames s = take (Z.to_nat (numFrames s)) seen →
  frames (simulate_from i pages s) =
  take (Z.to_nat (numFrames s)) (fold_left note_page pages seen).
Proof.
  induction pages as [|p pages IH]; intros i s seen Hds Hnd Hfr; simpl;
    [done|].
  set (n := Z.to_nat (numFrames s)) in *.
  assert (Hnext : ∀ seen', NoDup seen' →
            frames (processPage s p i) = take n seen' →
            frames (simulate_from (S i) pages (processPage s p i)) =
            take n (fold_left note_page pages seen')).
  { intros seen' Hnd' Hfr'.
    rewrite (IH (S i) (processPage s p i) seen');
      rewrite ?processPage_numFrames; try done.
    by apply processPage_DsEmpty. }
  assert (Hsnoc : NoDup seen → p ∉ seen → NoDup (seen ++ [p])).
  { intros ? ?. apply NoDup_app. split; [done|].
    split; [|apply NoDup_singleton].
    intros x Hx Hxp. apply list_elem_of_singleton in Hxp. by subst. }
  rewrite processPage_frames_DsEmpty in Hnext by done.
  assert (Hlen : length (frames s) = (n `min` length seen)%nat)
    by (by rewrite Hfr, length_take).
  destruct (includes (frames s) p) eqn:Hinc.
  - apply includes_true in Hinc.
    assert (p ∈ seen) as Hseen.
    { rewrite Hfr in Hinc. by apply (subseteq_take n seen). }
    unfold note_page. destruct (decide (p ∈ seen)); [|done].
    by apply Hnext.
  - apply includes_false in Hinc.
    destruct (Z.ltb_spec (Z.of_nat (length (frames s))) (numFrames s))
      as [Hfree|Hfull].
    + assert (length seen < n)%nat as Hshort by lia.
      assert (frames s = seen) as Hall by (rewrite Hfr; apply take_ge; lia).
      unfold note_page. destruct (decide (p ∈ seen)) as [Hin|Hout];
        [by rewrite <- Hall in Hin|].
      apply Hnext; [by apply Hsnoc|].
      rewrite Hall. symmetry. apply take_ge. rewrite length_app. simpl. lia.
    + assert (n ≤ length seen)%nat as Hlong by lia.
      unfold note_page. destruct (decide (p ∈ seen)) as [Hin|Hout].
      * by apply Hnext.
      * apply Hnext; [by apply Hsnoc|].
        rewrite Hfr. symmetry. by apply take_app_le.
Qed.

(** X10.  With a selector other than fifo, lru, optimal and clock the
    engine never replaces a page: at every point the frame set is the first
    [F] distinct pages referenced so far, so once it is full it stays as it
    is (and with [F < 1] it stays empty). *)
Theorem unknown_selector_keeps_first_pages
    (input : string) (F : Z) (selector : string) (k : nat) :
  ¬ known_algorithm selector →
  let s0 := constructor_ input F selector in
  frames (after_steps k s0) =
  take (Z.to_nat F) (distinct_pages (take k (referenceString s0))).
Proof.
  intros Hunknown s0. unfold after_steps, distinct_pages.
  apply (simulate_from_unknown_selector _ 0 s0 []); [|constructor|].
  - by apply initializeAlgorithm_unknown.
  - by rewrite take_nil.
Qed.

Lemma unknown_selector_keeps_first_pages_witness :
  frames (after_steps 6 (constructor_ "1,2,3,1,4,5" 2 "FIFO")) =
  take 2 (distinct_pages (take 6
            (referenceString (constructor_ "1,2,3,1,4,5" 2 "FIFO")))).
Proof.
  apply (unknown_selector_keeps_first_pages "1,2,3,1,4,5" 2 "FIFO" 6).
  unfold known_algorithm. intros H.
  repeat (apply elem_of_cons in H as [H|H]; [discriminate H|]).
  by apply elem_of_nil in H.
Defined.

(** ** Clock: flags *)

Lemma selectClockPage_loop_keeps_keys (fs : list JsNumber) (fuel : nat) :
  ∀ (flags : gmap JsNumber bool) (ptr : JsNumber) v flags' ptr',
  selectClockPage_loop fuel fs flags ptr = Some (v, flags', ptr') →
  ∀ q, is_Some (flags !! q) → is_Some (flags' !! q).
Proof.
  induction fuel as [|fuel IH]; intros flags ptr v flags' ptr'; simpl;
    [done|].
  destruct (frame_at fs ptr) as [page|]; [|by intros [= _ <- _]].
  destruct (default false (flags !! page)); [|by intros [= _ <- _]].
  intros Hloop q Hq. eapply IH; [exact Hloop|].
  destruct (decide (page = q)) as [->|Hne].
  - rewrite lookup_insert_eq. by eexists.
  - by rewrite lookup_insert_ne.
Qed.

Lemma selectClockPage_keeps_keys (fs : list JsNumber)
    (flags : gmap JsNumber bool) (ptr : JsNumber) (q : JsNumber) :
  is_Some (flags !! q) → is_Some ((selectClockPage fs flags ptr).1.2 !! q).
Proof.
  intros Hq. unfold selectClockPage.
  destruct (selectClockPage_loop_total fs flags ptr) as [[[v fl] pt] Hr].
  rewrite Hr. simpl. by eapply selectClockPage_loop_keeps_keys.
Qed.

Lemma processPage_clock_flags (seen : list JsNumber) (last : option JsNumber)
    (s : Simulator) (p : JsNumber) (i : nat) :
  clock_flags_inv seen last s →
  clock_flags_inv (seen ++ [p]) (Some p) (processPage s p i).
Proof.
  intros (flags & ptr & Hds & Hkeys & _).
  assert (Hgen : ∀ fl pt, (∀ q, q ∈ seen → is_Some (fl !! q)) →
            ∃ flags' ptr',
              updateDataStructures (DsClock fl pt) p false =
                DsClock flags' ptr' ∧
              (∀ q, q ∈ seen ++ [p] → is_Some (flags' !! q)) ∧
              (∀ p', Some p = Some p' → flags' !! p' = Some true)).
  { intros fl pt Hk. eexists _, _. split; [reflexivity|]. split.
    - intros q Hq. apply elem_of_app in Hq as [Hq|Hq].
      + destruct (decide (p = q)) as [->|Hne].
        * rewrite lookup_insert_eq. by eexists.
        * rewrite lookup_insert_ne by done. by apply Hk.
      + apply list_elem_of_singleton in Hq as ->.
        rewrite lookup_insert_eq. by eexists.
    - intros p' [= <-]. by rewrite lookup_insert_eq. }
  unfold clock_flags_inv. rewrite processPage_dataStructures, Hds.
  destruct (includes (frames s) p); [by apply Hgen|].
  destruct (_ <? _); [by apply Hgen|].
  unfold selectPageToReplace.
  pose proof (fun q => selectClockPage_keeps_keys (frames s) flags ptr q)
    as Hkeep.
  destruct (selectClockPage (frames s) flags ptr) as [[v fl] pt].
  simpl in Hkeep. apply Hgen. intros q Hq. by apply Hkeep, Hkeys.
Qed.

Lemma simulate_from_clock_flags (pages : list JsNumber) :
  ∀ (i : nat) (s : Simulator) (seen : list JsNumber) (prev : option JsNumber),
  clock_flags_inv seen prev s →
  clock_flags_inv (seen ++ pages) (from_option Some prev (last pages))
    (simulate_from i pages s).
Proof.
  induction pages as [|p pages IH]; intros i s seen prev Hinv.
  - simpl. by rewrite app_nil_r.
  - apply (processPage_clock_flags _ _ _ p i) in Hinv.
    apply (IH (S i)) in Hinv. rewrite <- app_assoc in Hinv.
    rewrite last_cons. simpl simulate_from.
    by destruct (last pages).
Qed.

(** X11.  At every point of a Clock simulation with at least one frame the
    rotating pointer is a slot number below the frame count, every page
    referenced so far has a reference flag (set or cleared, never missing),
    and the flag of the page referenced last is set. *)
Theorem clock_pointer_and_flags (input : string) (F : Z) (k : nat) :
  1 ≤ F →
  let s0 := constructor_ input F "clock" in
  let s := after_steps k s0 in
  ∃ (flags : gmap JsNumber bool) (zn : nat),
    dataStructures s = DsClock flags (Int (Z.of_nat zn)) ∧
    Z.of_nat zn < F ∧
    (∀ q, q ∈ take k (referenceString s0) → is_Some (flags !! q)) ∧
    (∀ j p, S j = k → referenceString s0 !! j = Some p →
       flags !! p = Some true).
Proof.
  intros HF s0 s.
  assert (clock_inv F s) as (_ & _ & flags & zn & Hds & Hzn).
  { subst s. unfold after_steps.
    by apply simulate_from_clock_inv, clock_inv_init. }
  assert (clock_flags_inv ([] ++ take k (referenceString s0))
            (from_option Some None (last (take k (referenceString s0)))) s)
    as (flags' & ptr' & Hds' & Hkeys & Hlast).
  { subst s. unfold after_steps. apply simulate_from_clock_flags.
    exists ∅, (Int 0). split; [done|]. split; [|done].
    intros q Hq. by apply elem_of_nil in Hq. }
  rewrite Hds in Hds'. injection Hds' as <- _.
  exists flags, zn. split; [done|]. split; [done|]. split; [done|].
  intros j p <- Hj. apply Hlast.
  by rewrite (take_S_r _ _ _ Hj), last_snoc.
Qed.

Lemma clock_pointer_and_flags_witness :
  let s0 := constructor_ "7,0,1,2,0,3" 3 "clock" in
  let s := after_steps 5 s0 in
  ∃ (flags : gmap JsNumber bool) (zn : nat),
    dataStructures s = DsClock flags (Int (Z.of_nat zn)) ∧
    Z.of_nat zn < 3 ∧
    (∀ q, q ∈ take 5 (referenceString s0) → is_Some (flags !! q)) ∧
    (∀ j p, S j = 5%nat → referenceString s0 !! j = Some p →
       flags !! p = Some true).
Proof. apply (clock_pointer_and_flags "7,0,1,2,0,3" 3 5). lia. Defined.

(** ** LRU keeps the most recently used pages *)

Lemma list_filter_ne_id (l : list JsNumber) (p : JsNumber) :
  is_int p → p ∉ l →
  List.filter (fun q => negb (strict_eqb q p)) l = l.
Proof.
  intros Hp. destruct p as [|z]; [done|].
  induction l as [|x l IH]; intros Hnot; simpl; [done|].
  apply not_elem_of_cons in Hnot as [Hne Hnot].
  destruct (strict_eqb x (Int z)) eqn:E.
  - apply strict_eqb_int in E. congruence.
  - simpl. by rewrite IH.
Qed.

Lemma list_filter_ne_length (l : list JsNumber) (p : JsNumber) :
  is_int p → NoDup l → p ∈ l →
  S (length (List.filter (fun q => negb (strict_eqb q p)) l)) = length l.
Proof.
  intros Hp. induction l as [|x l IH]; intros Hnd Hin.
  - by apply elem_of_nil in Hin.
  - apply NoDup_cons in Hnd as [Hx Hnd]. simpl.
    apply elem_of_cons in Hin as [<-|Hin].
    + destruct p as [|z]; [done|]. simpl. rewrite Z.eqb_refl. simpl.
      by rewrite (list_filter_ne_id l (Int z)).
    + assert (x ≠ p) as Hne by (intros ->; done).
      destruct (strict_eqb x p) eqn:E.
      * destruct p as [|z]; [done|]. by apply strict_eqb_int in E.
      * simpl. by rewrite IH.
Qed.

Lemma NoDup_touch (stack : list JsNumber) (p : JsNumber) :
  is_int p → NoDup stack → NoDup (touch stack p).
Proof.
  intros Hp Hnd. unfold touch. apply NoDup_app.
  split; [by apply NoDup_list_filter|]. split; [|apply NoDup_singleton].
  intros x Hx Hxp. apply list_elem_of_singleton in Hxp as ->.
  apply elem_of_list_filter_ne in Hx; [|done]. by destruct Hx.
Qed.

Lemma same_members_length (l k : list JsNumber) :
  NoDup l → NoDup k → (∀ x, x ∈ l ↔ x ∈ k) → length l = length k.
Proof.
  intros Hl Hk Hmem. apply Permutation_length. by apply NoDup_Permutation.
Qed.

Lemma processPage_lru_stack (F : Z) (i : nat) (s : Simulator)
    (p : JsNumber) (stack : list JsNumber) :
  1 ≤ F → is_int p → frames_inv F i s → lru_inv s →
  lru_stack_inv F stack s →
  lru_stack_inv F (touch stack p) (processPage s p i).
Proof.
  intros HF Hp Hinv (l & Hds & Hndl & Hmem & _)
    (Hnd & older & l' & Hds' & Hstack & Hcut).
  rewrite Hds in Hds'. injection Hds' as <-.
  pose proof (inv_length _ _ _ Hinv) as Hlen.
  pose proof (inv_numFrames _ _ _ Hinv) as HnF.
  assert (length l = length (frames s)) as Hll
    by (apply same_members_length; [done|apply (inv_NoDup _ _ _ Hinv)|done]).
  split; [by apply NoDup_touch|].
  rewrite processPage_dataStructures, Hds.
  subst stack. apply NoDup_app in Hnd as (Hndo & Hdisj & _).
  unfold touch. rewrite List.filter_app.
  destruct (includes (frames s) p) eqn:Hinc.
  - apply includes_true in Hinc. apply Hmem in Hinc.
    assert (p ∉ older) as Hpo by (intros H; by eapply Hdisj).
    rewrite (list_filter_ne_id older p Hp Hpo).
    eexists older, _. split; [reflexivity|].
    split; [by rewrite <- app_assoc|].
    destruct Hcut as [?|Hcut]; [by left|right].
    rewrite length_app. simpl.
    pose proof (list_filter_ne_length l p Hp Hndl Hinc). lia.
  - apply includes_false in Hinc.
    assert (p ∉ l) as Hpl by (by rewrite Hmem).
    rewrite (list_filter_ne_id l p Hp Hpl).
    destruct (Z.ltb_spec (Z.of_nat (length (frames s))) (numFrames s))
      as [Hfree|Hfull].
    + destruct Hcut as [->|Hcut]; [|lia].
      exists [], (l ++ [p]). split.
      { simpl. by rewrite (list_filter_ne_id l p Hp Hpl). }
      split; [done|by left].
    + destruct l as [|v tl]; [simpl in Hll; lia|].
      assert (p ∉ tl) as Hptl by (intros H; apply Hpl; by right).
      exists (List.filter (fun q => negb (strict_eqb q p)) older ++ [v]),
        (tl ++ [p]).
      split.
      { simpl. by rewrite (list_filter_ne_id tl p Hp Hptl). }
      split; [by rewrite <- !app_assoc|].
      right. rewrite length_app. simpl in *. lia.
Qed.

Lemma processPage_lru_run (F : Z) (i : nat) (s : Simulator) (p : JsNumber)
    (stack : list JsNumber) :
  1 ≤ F → is_int p → lru_run_inv F i stack s →
  lru_run_inv F (S i) (touch stack p) (processPage s p i).
Proof.
  intros HF Hp (H1 & H2 & H3). split; [|split].
  - by apply processPage_frames_inv.
  - by eapply processPage_lru_inv.
  - by eapply processPage_lru_stack.
Qed.

Lemma simulate_from_lru_run (F : Z) (pages : list JsNumber) :
  1 ≤ F → Forall is_int pages →
  ∀ (i : nat) (s : Simulator) (stack : list JsNumber),
  lru_run_inv F i stack s →
  lru_run_inv F (i + length pages) (fold_left touch pages stack)
    (simulate_from i pages s).
Proof.
  intros HF. induction pages as [|p pages IH]; intros Hint i s stack Hinv;
    simpl.
  - by rewrite Nat.add_0_r.
  - apply Forall_cons in Hint as [Hp Hint].
    replace (i + S (length pages))%nat with (S i + length pages)%nat by lia.
    apply IH; [done|]. by apply processPage_lru_run.
Qed.

Lemma lru_run_inv_init (refs : list JsNumber) (F : Z) :
  1 ≤ F → lru_run_inv F 0 [] (make_simulator refs F "lru").
Proof.
  intros HF. split; [apply frames_inv_init; lia|].
  split; [apply lru_inv_init|].
  split; [constructor|]. exists [], []. split; [done|]. split; [done|].
  by left.
Qed.

Lemma recency_stack_spec (l : list JsNumber) :
  Forall is_int l →
  NoDup (recency_stack l) ∧ ∀ x, x ∈ recency_stack l ↔ x ∈ l.
Proof.
  unfold recency_stack.
  assert (∀ stack, Forall is_int l → NoDup stack →
            NoDup (fold_left touch l stack) ∧
            ∀ x, x ∈ fold_left touch l stack ↔ x ∈ stack ∨ x ∈ l) as H.
  { induction l as [|p l IH]; intros stack Hint Hnd; simpl.
    - split; [done|]. intros x. split; [by left|].
      intros [?|H]; [done|by apply elem_of_nil in H].
    - apply Forall_cons in Hint as [Hp Hint].
      destruct (IH (touch stack p) Hint (NoDup_touch _ _ Hp Hnd)) as [H1 H2].
      split; [done|]. intros x. rewrite H2. unfold touch.
      rewrite elem_of_app, list_elem_of_singleton, elem_of_cons.
      rewrite elem_of_list_filter_ne by done.
      destruct (decide (x = p)); tauto. }
  intros Hint. destruct (H [] Hint (NoDup_nil_2)) as [H1 H2].
  split; [done|]. intros x. rewrite H2. split; [|by right].
  intros [Hx|?]; [by apply elem_of_nil in Hx|done].
Qed.

(** X12.  At every point of an LRU simulation (at least one frame, integer
    pages) the recency list, and with it the frame set, consists of the [F]
    most recently referenced distinct pages: it is the most recent end of
    the recency order of all pages referenced so far. *)
Theorem lru_holds_most_recently_used_pages
    (input : string) (F : Z) (k : nat) :
  1 ≤ F → Forall is_int (parse_reference_string input) →
  let s0 := constructor_ input F "lru" in
  let s := after_steps k s0 in
  let stack := recency_stack (take k (referenceString s0)) in
  (NoDup stack ∧ ∀ x, x ∈ stack ↔ x ∈ take k (referenceString s0)) ∧
  ∃ recencyList,
    dataStructures s = DsLru recencyList ∧
    recencyList = drop (length stack - Z.to_nat F) stack ∧
    ∀ x, x ∈ frames s ↔ x ∈ recencyList.
Proof.
  intros HF Hint s0 s stack.
  assert (Forall is_int (take k (referenceString s0))) as Hint'
    by (by apply Forall_take).
  split; [by apply recency_stack_spec|].
  assert (lru_run_inv F (0 + length (take k (referenceString s0))) stack s)
    as (Hfr & (l & Hds & Hndl & Hmem & _) & (Hnd & older & l' & Hds' & Hst & Hcut)).
  { subst s stack. unfold after_steps, recency_stack.
    apply simulate_from_lru_run; [done|done|].
    by apply lru_run_inv_init. }
  rewrite Hds in Hds'. injection Hds' as <-.
  exists l. split; [done|]. split; [|intros x; by rewrite Hmem].
  assert (length l = length (frames s)) as Hll
    by (apply same_members_length; [done|apply (inv_NoDup _ _ _ Hfr)|done]).
  pose proof (inv_length _ _ _ Hfr) as Hlen.
  rewrite Hst, length_app.
  destruct Hcut as [->|Hcut].
  - simpl. replace (length l - Z.to_nat F)%nat with 0%nat by lia. done.
  - replace (length older + length l - Z.to_nat F)%nat
      with (length older) by lia.
    by rewrite drop_app_length.
Qed.

Lemma lru_holds_most_recently_used_pages_witness :
  let s0 := constructor_ "7,0,1,2,0,3,0,4" 3 "lru" in
  let s := after_steps 6 s0 in
  let stack := recency_stack (take 6 (referenceString s0)) in
  (NoDup stack ∧ ∀ x, x ∈ stack ↔ x ∈ take 6 (referenceString s0)) ∧
  ∃ recencyList,
    dataStructures s = DsLru recencyList ∧
    recencyList = drop (length stack - Z.to_nat 3) stack ∧
    ∀ x, x ∈ frames s ↔ x ∈ recencyList.
Proof.
  apply (lru_holds_most_recently_used_pages "7,0,1,2,0,3,0,4" 3 6).
  - lia.
  - vm_compute. repeat constructor.
Defined.

(** The recency list for fewer frames is part of the one for more. *)
Lemma lru_stack_inclusion (F F' : Z) (stack : list JsNumber)
    (s s' : Simulator) (i i' : nat) :
  F ≤ F' → lru_run_inv F i stack s → lru_run_inv F' i' stack s' →
  ∀ x, x ∈ frames s → x ∈ frames s'.
Proof.
  intros HFF (Hfr & (l & Hds & Hndl & Hmem & _) & (_ & o & l0 & Hds0 & Hst & Hcut))
    (Hfr' & (l' & Hds' & Hndl' & Hmem' & _)
       & (_ & o' & l0' & Hds0' & Hst' & Hcut')) x Hx.
  rewrite Hds in Hds0. injection Hds0 as <-.
  rewrite Hds' in Hds0'. injection Hds0' as <-.
  apply Hmem'. apply Hmem in Hx.
  assert (length l = length (frames s)) as Hll
    by (apply same_members_length; [done|apply (inv_NoDup _ _ _ Hfr)|done]).
  assert (length l' = length (frames s')) as Hll'
    by (apply same_members_length; [done|apply (inv_NoDup _ _ _ Hfr')|done]).
  pose proof (inv_length _ _ _ Hfr) as Hlen.
  pose proof (inv_length _ _ _ Hfr') as Hlen'.
  destruct Hcut' as [->|Hcut'].
  - simpl in Hst'. subst l'. rewrite Hst. apply elem_of_app. by right.
  - assert (length o' ≤ length o)%nat as Hoo.
    { apply (f_equal (@length JsNumber)) in Hst, Hst'.
      rewrite length_app in Hst, Hst'. lia. }
    assert (l = drop (length o) stack) as ->
      by (by rewrite Hst, drop_app_length).
    assert (l' = drop (length o') stack) as ->
      by (by rewrite Hst', drop_app_length).
    replace (length o) with (length o' + (length o - length o'))%nat in Hx
      by lia.
    rewrite <- drop_drop in Hx. by apply subseteq_drop in Hx.
Qed.

Lemma simulate_from_lru_monotone (F F' : Z) (pages : list JsNumber) :
  1 ≤ F → F ≤ F' → Forall is_int pages →
  ∀ (i i' : nat) (s s' : Simulator) (stack : list JsNumber),
  lru_run_inv F i stack s → lru_run_inv F' i' stack s' →
  (pageFaults (simulate_from i' pages s') + pageFaults s ≤
   pageFaults (simulate_from i pages s) + pageFaults s')%nat.
Proof.
  intros HF HFF. induction pages as [|p pages IH];
    intros Hint i i' s s' stack Hinv Hinv'; simpl; [lia|].
  apply Forall_cons in Hint as [Hp Hint].
  pose proof (processPage_lru_run F i s p stack HF Hp Hinv) as Hnext.
  pose proof (processPage_lru_run F' i' s' p stack ltac:(lia) Hp Hinv')
    as Hnext'.
  specialize (IH Hint _ _ _ _ _ Hnext Hnext').
  pose proof (lru_stack_inclusion F F' stack s s' i i' HFF Hinv Hinv' p)
    as Hincl.
  rewrite !processPage_pageFaults in IH.
  destruct (includes (frames s) p) eqn:E.
  - apply includes_true in E. apply Hincl in E. apply includes_true in E.
    rewrite E in IH. lia.
  - destruct (includes (frames s') p); lia.
Qed.

(** X13.  LRU shows no Belady anomaly: on the same reference sequence of
    integers, a run with more frames never faults more often than a run
    with fewer frames (at least one). *)
Theorem lru_more_frames_never_more_faults (input : string) (F F' : Z) :
  1 ≤ F → F ≤ F' → Forall is_int (parse_reference_string input) →
  (pageFaults (simulate (constructor_ input F' "lru")) ≤
   pageFaults (simulate (constructor_ input F "lru")))%nat.
Proof.
  intros HF HFF Hint.
  pose proof (simulate_from_lru_monotone F F' (parse_reference_string input)
                HF HFF Hint 0 0
                (make_simulator (parse_reference_string input) F "lru")
                (make_simulator (parse_reference_string input) F' "lru") []
                (lru_run_inv_init _ F HF)
                (lru_run_inv_init _ F' ltac:(lia))) as H.
  simpl in H. unfold simulate. simpl referenceString.
  unfold constructor_. lia.
Qed.

Lemma lru_more_frames_never_more_faults_witness :
  (pageFaults (simulate (constructor_ "1,2,3,4,1,2,5,1,2,3,4,5" 4 "lru")) ≤
   pageFaults (simulate (constructor_ "1,2,3,4,1,2,5,1,2,3,4,5" 3 "lru")))%nat.
Proof.
  apply (lru_more_frames_never_more_faults "1,2,3,4,1,2,5,1,2,3,4,5" 3 4).
  - lia.
  - lia.
  - vm_compute. repeat constructor.
Defined.

(** ** Printing numbers, as the trace and the canvas do *)

Lemma char_code_ascii_of_nat (n : nat) :
  (n < 256)%nat → char_code (ascii_of_nat n) = Z.of_nat n.
Proof. intros H. unfold char_code. by rewrite nat_ascii_embedding. Qed.

Lemma digit_char_code (d : Z) : 0 ≤ d < 10 → char_code (digit_char d) = 48 + d.
Proof.
  intros H. unfold digit_char. rewrite char_code_ascii_of_nat by lia. lia.
Qed.

Lemma digit_char_decimal (d : Z) :
  0 ≤ d < 10 → is_decimal_digit (digit_char d) = true.
Proof.
  intros H. unfold is_decimal_digit. rewrite digit_char_code by done.
  apply andb_true_iff. split; apply Z.leb_le; lia.
Qed.

Lemma decimal_digit_plain (c : ascii) :
  is_decimal_digit c = true →
  is_white_space c = false ∧ Ascii.eqb c ","%char = false ∧
  Ascii.eqb c "-"%char = false ∧ Ascii.eqb c "+"%char = false.
Proof.
  unfold is_decimal_digit, is_white_space. intros H.
  apply andb_true_iff in H as [H1 H2].
  apply Z.leb_le in H1. apply Z.leb_le in H2.
  split; [|split; [|split]].
  - repeat (apply orb_false_iff; split).
    + apply andb_false_iff. right. apply Z.leb_gt. lia.
    + apply Z.eqb_neq. lia.
    + apply Z.eqb_neq. lia.
  - destruct (Ascii.eqb_spec c ","%char) as [->|]; [|done].
    vm_compute in H1. done.
  - destruct (Ascii.eqb_spec c "-"%char) as [->|]; [|done].
    vm_compute in H1. done.
  - destruct (Ascii.eqb_spec c "+"%char) as [->|]; [|done].
    vm_compute in H1. done.
Qed.

Lemma decimal_digits_spec (fuel : nat) :
  ∀ (n : Z) (acc : list ascii),
  fuel ≠ 0%nat → 0 ≤ n < 2 ^ Z.of_nat fuel →
  ∃ D, decimal_digits fuel n acc = D ++ acc ∧ D ≠ [] ∧
       forallb is_decimal_digit D = true ∧
       fold_left decimal_step D 0 = n.
Proof.
  induction fuel as [|fuel IH]; intros n acc Hfuel Hn; [done|].
  simpl decimal_digits.
  assert (0 ≤ n mod 10 < 10) as Hmod by (apply Z.mod_pos_bound; lia).
  destruct (Z.ltb_spec n 10) as [Hsmall|Hbig].
  - exists [digit_char (n mod 10)]. split; [done|]. split; [done|].
    split; [simpl; by rewrite digit_char_decimal|].
    simpl. unfold decimal_step. rewrite digit_char_code by done.
    rewrite Z.mod_small by lia. lia.
  - assert (0 ≤ n / 10 < 2 ^ Z.of_nat fuel) as Hdiv.
    { split; [apply Z.div_pos; lia|].
      apply Z.div_lt_upper_bound; [lia|].
      rewrite Nat2Z.inj_succ, Z.pow_succ_r in Hn by lia. lia. }
    assert (fuel ≠ 0%nat) as Hfuel'.
    { intros ->. simpl in Hdiv.
      assert (1 ≤ n / 10) by (apply Z.div_le_lower_bound; lia). lia. }
    destruct (IH (n / 10) (digit_char (n mod 10) :: acc) Hfuel' Hdiv)
      as (D & HD & Hne & Hall & Hval).
    exists (D ++ [digit_char (n mod 10)]). split.
    { rewrite HD. by rewrite <- app_assoc. }
    split; [by destruct D|]. split.
    { rewrite forallb_app, Hall. simpl. by rewrite digit_char_decimal. }
    rewrite fold_left_app, Hval. simpl. unfold decimal_step.
    rewrite digit_char_code by done.
    pose proof (Z.div_mod n 10 ltac:(lia)). lia.
Qed.

Lemma decimal_digits_of_abs (z : Z) :
  ∃ D, decimal_digits (S (Z.to_nat (Z.log2 (Z.abs z)))) (Z.abs z) [] = D ∧
       D ≠ [] ∧ forallb is_decimal_digit D = true ∧
       fold_left decimal_step D 0 = Z.abs z.
Proof.
  destruct (decimal_digits_spec (S (Z.to_nat (Z.log2 (Z.abs z))))
              (Z.abs z) []) as (D & HD & Hne & Hall & Hval); [done| |].
  - split; [lia|]. rewrite Nat2Z.inj_succ, Z2Nat.id by apply Z.log2_nonneg.
    destruct (decide (Z.abs z = 0)) as [->|Hnz]; [done|].
    apply Z.log2_spec. lia.
  - exists D. rewrite HD, app_nil_r. done.
Qed.

(** Trimming a text that neither starts nor ends with white space, with or
    without one blank in front. *)
Lemma trim_chars_padded (first : ascii) (middle : list ascii) :
  is_white_space first = false →
  is_white_space (List.last (first :: middle) first) = false →
  trim_chars (first :: middle) = first :: middle ∧
  trim_chars (" "%char :: first :: middle) = first :: middle.
Proof.
  intros Hf Hl. set (body := first :: middle) in *.
  assert (trim_start_chars body = body) as Hts
    by (subst body; simpl; by rewrite Hf).
  assert (trim_start_chars (rev body) = rev body) as Htr.
  { apply trim_start_chars_fixed.
    destruct (rev body) as [|c r] eqn:E; [done|].
    assert (body = rev r ++ [c]) as Hb.
    { rewrite <- (rev_involutive body), E. done. }
    rewrite Hb, List.last_last in Hl. done. }
  unfold trim_chars. split.
  - by rewrite Hts, Htr, rev_involutive.
  - change (trim_start_chars (" "%char :: body)) with (trim_start_chars body).
    by rewrite Hts, Htr, rev_involutive.
Qed.

Lemma last_decimal_digit (D : list ascii) (d : ascii) :
  D ≠ [] → forallb is_decimal_digit D = true →
  is_decimal_digit (List.last D d) = true.
Proof.
  intros Hne Hall. rewrite forallb_forall in Hall. apply Hall.
  destruct D as [|c D]; [done|].
  destruct (exists_last (l := c :: D)) as (l' & a & E); [done|].
  rewrite E, List.last_last. apply in_or_app. right. by left.
Qed.

(** What is printed for a number is read back as that number, with or
    without a blank in front, and contains no comma. *)
Lemma parse_printed_number (n : JsNumber) :
  parseInt_chars (trim_chars (number_to_chars n)) = n ∧
  parseInt_chars (trim_chars (" "%char :: number_to_chars n)) = n ∧
  count_commas (number_to_chars n) = 0%nat.
Proof.
  destruct n as [|z]; [by vm_compute|].
  unfold number_to_chars.
  destruct (decimal_digits_of_abs z) as (D & -> & Hne & Hall & Hval).
  assert (count_commas D = 0%nat) as Hcommas.
  { clear Hval Hne. induction D as [|c D IH]; [done|]. simpl in *.
    apply andb_true_iff in Hall as [Hc HD].
    destruct (decimal_digit_plain c Hc) as (_ & -> & _). by apply IH. }
  assert (Hlast : ∀ x, is_white_space (List.last D x) = false).
  { intros x. by apply decimal_digit_plain, last_decimal_digit. }
  destruct D as [|d0 D']; [done|].
  assert (is_decimal_digit d0 = true) as Hd0.
  { simpl in Hall. by apply andb_true_iff in Hall as [? _]. }
  destruct (decimal_digit_plain d0 Hd0) as (Hws0 & _ & Hminus & Hplus).
  set (body := if z <? 0 then "-"%char :: d0 :: D' else d0 :: D').
  assert (Htrim : trim_chars body = body ∧
                  trim_chars (" "%char :: body) = body).
  { subst body. destruct (z <? 0).
    - apply trim_chars_padded; [done|].
      change (List.last ("-"%char :: d0 :: D') "-"%char)
        with (List.last (d0 :: D') "-"%char). apply Hlast.
    - apply trim_chars_padded; [done|]. apply Hlast. }
  assert (Hstrip : strip_sign body = d0 :: D').
  { subst body. destruct (z <? 0); [done|]. simpl.
    by rewrite Hminus, Hplus. }
  assert (Htok : ∀ t, trim_chars t = body →
            parseInt_chars (trim_chars t) = Int z).
  { intros t Ht. rewrite parseInt_integer_token.
    - f_equal. unfold token_value. rewrite Ht, Hstrip.
      fold decimal_step. rewrite Hval. subst body.
      destruct (Z.ltb_spec z 0).
      + change (Ascii.eqb "-"%char "-"%char) with true. cbv iota. lia.
      + rewrite Hminus. lia.
    - unfold is_integer_token. by rewrite Ht, Hstrip. }
  destruct Htrim as [Ht1 Ht2].
  split; [by apply Htok|]. split; [by apply Htok|].
  subst body. by destruct (z <? 0).
Qed.

Lemma count_commas_app (l1 l2 : list ascii) :
  count_commas (l1 ++ l2) = (count_commas l1 + count_commas l2)%nat.
Proof. induction l1 as [|c l1 IH]; simpl; [done|]. rewrite IH. lia. Qed.

Lemma split_comma_chars_app (t rest : list ascii) :
  count_commas t = 0%nat →
  split_comma_chars (t ++ ","%char :: rest) = t :: split_comma_chars rest.
Proof.
  induction t as [|c t IH]; intros Hc; simpl.
  - done.
  - simpl in Hc. destruct (Ascii.eqb c ","%char); [simpl in Hc; lia|].
    by rewrite IH.
Qed.

Lemma split_join_numbers (p : list ascii) (rest : list (list ascii)) :
  Forall (fun t => count_commas t = 0%nat) (p :: rest) →
  split_comma_chars (join_chars (list_ascii_of_string ", ") (p :: rest)) =
  p :: map (cons " "%char) rest.
Proof.
  revert p. induction rest as [|q rest IH]; intros p Hall.
  - simpl. apply split_comma_chars_no_comma.
    by apply Forall_cons in Hall as [? _].
  - apply Forall_cons in Hall as [Hp Hall].
    change (join_chars (list_ascii_of_string ", ") (p :: q :: rest))
      with (p ++ ","%char :: " "%char ::
              join_chars (list_ascii_of_string ", ") (q :: rest)).
    rewrite split_comma_chars_app by done. f_equal.
    change (split_comma_chars (" "%char ::
              join_chars (list_ascii_of_string ", ") (q :: rest)))
      with (match split_comma_chars
                    (join_chars (list_ascii_of_string ", ") (q :: rest)) with
            | [] => [[" "%char]]
            | t :: ts => (" "%char :: t) :: ts
            end).
    by rewrite IH.
Qed.

(** X14.  The reference string as the trace prints it ([join(", ")]) is
    read back by the constructor's parser as the same sequence, for every
    non-empty sequence of safe integers and [NaN]s: print and parse are a
    round trip. *)
Theorem printed_reference_string_parses_back (refs : list JsNumber) :
  refs ≠ [] → Forall safe_number refs →
  parse_reference_string (join_numbers refs) = refs.
Proof.
  intros Hne _. unfold parse_reference_string, join_numbers.
  rewrite list_ascii_of_string_of_list_ascii.
  destruct refs as [|n rest]; [done|].
  simpl map at 2. rewrite split_join_numbers.
  - simpl. destruct (parse_printed_number n) as (-> & _ & _). f_equal.
    rewrite map_map. induction rest as [|m rest IH]; [done|]. simpl.
    destruct (parse_printed_number m) as (_ & -> & _). f_equal.
    apply IH. done.
  - change (number_to_chars n :: map number_to_chars rest)
      with (map number_to_chars (n :: rest)).
    apply Forall_map, Forall_forall. intros m _.
    by destruct (parse_printed_number m) as (_ & _ & ?).
Qed.

Lemma printed_reference_string_parses_back_witness :
  parse_reference_string (join_numbers [Int 7; NaN; Int (-12); Int 0]) =
  [Int 7; NaN; Int (-12); Int 0].
Proof.
  apply (printed_reference_string_parses_back [Int 7; NaN; Int (-12); Int 0]).
  - discriminate.
  - repeat constructor.
Defined.

(** ** The canvas visualizer *)

Lemma filled_boxes_drawFrame_ops width frames numFrames hT hP i style rest :
  filled_boxes style
    (drawFrame_ops width frames numFrames hT hP i ++ rest)
  = frame_box width frames numFrames hT hP i
    :: filled_boxes "#94a3b8" rest.
Proof.
  unfold drawFrame_ops, frame_box.
  destruct (frames !! i); reflexivity.
Qed.

Lemma filled_boxes_frames_loop width frames numFrames hT hP l style rest :
  exists style',
    filled_boxes style
      (concat (map (drawFrame_ops width frames numFrames hT hP) l) ++ rest)
    = map (frame_box width frames numFrames hT hP) l
      ++ filled_boxes style' rest.
Proof.
  revert style. induction l as [|i l IH]; intros style.
  - exists style. reflexivity.
  - destruct (IH "#94a3b8") as [style' E].
    exists style'. cbn [map concat].
    rewrite <- app_assoc, filled_boxes_drawFrame_ops, E. reflexivity.
Qed.

Lemma filled_boxes_drawFrames_app width height frames numFrames hT hP style
    rest :
  exists style',
    filled_boxes style
      (drawFrames width height frames numFrames hT hP ++ rest)
    = background width height
      :: map (frame_box width frames numFrames hT hP)
           (seq 0 (Z.to_nat numFrames))
      ++ filled_boxes style' rest.
Proof.
  unfold drawFrames.
  destruct (filled_boxes_frames_loop width frames numFrames hT hP
              (seq 0 (Z.to_nat numFrames)) "#f1f5f9" rest) as [style' E].
  exists style'. rewrite <- app_assoc. cbn [app filled_boxes].
  rewrite E. reflexivity.
Qed.

Lemma filled_boxes_drawFrames width height frames numFrames hT hP style :
  filled_boxes style (drawFrames width height frames numFrames hT hP)
  = background width height
    :: map (frame_box width frames numFrames hT hP)
         (seq 0 (Z.to_nat numFrames)).
Proof.
  destruct (filled_boxes_drawFrames_app width height frames numFrames hT hP
              style []) as [style' E].
  rewrite app_nil_r in E. rewrite E. cbn [filled_boxes].
  rewrite app_nil_r. reflexivity.
Qed.

Lemma filled_boxes_reference_loop width count currentStep l k style :
  filled_boxes style
    (concat (imap (fun i => drawReference_ops width count currentStep (k + i))
               l))
  = map (reference_box width count currentStep) (seq k (length l)).
Proof.
  revert k style. induction l as [|p l IH]; intros k style.
  - reflexivity.
  - rewrite imap_cons. cbn [concat length seq map].
    unfold drawReference_ops at 1. cbn [app filled_boxes].
    rewrite Nat.add_0_r. f_equal.
    rewrite <- (IH (S k) colors.text).
    f_equal. f_equal. apply imap_ext. intros i x _. cbn.
    f_equal. lia.
Qed.

Lemma filled_boxes_drawReferenceString width referenceString currentStep
    style :
  filled_boxes style (drawReferenceString width referenceString currentStep)
  = map (reference_box width (displayCount referenceString) currentStep)
      (seq 0 (displayCount referenceString)).
Proof.
  unfold drawReferenceString. cbn [app filled_boxes].
  rewrite (filled_boxes_reference_loop width _ currentStep _ 0%nat).
  rewrite length_take. unfold displayCount.
  replace (Nat.min (Nat.min (length referenceString) 15)
             (length referenceString))
    with (Nat.min (length referenceString) 15) by lia.
  reflexivity.
Qed.

Lemma inject_Z_of_nat_S (i : nat) :
  (inject_Z (Z.of_nat (S i)) == inject_Z (Z.of_nat i) + 1)%Q.
Proof.
  rewrite Nat2Z.inj_succ. unfold Z.succ. rewrite inject_Z_plus. reflexivity.
Qed.

Lemma frame_x_S width numFrames i :
  (frame_x width numFrames (S i) == frame_x width numFrames i + 80 + 20)%Q.
Proof.
  unfold frame_x. rewrite inject_Z_of_nat_S.
  change (inject_Z (80 + 20)) with 100%Q. ring.
Qed.

Lemma frame_x_centred width i :
  (frame_x width (Z.of_nat (S i)) 0
   == inject_Z width - (frame_x width (Z.of_nat (S i)) i + 80))%Q.
Proof.
  unfold frame_x, frames_startX.
  rewrite inject_Z_plus, !inject_Z_mult. unfold Z.sub.
  rewrite inject_Z_plus, inject_Z_of_nat_S.
  change (inject_Z (80 + 20)) with 100%Q.
  change (inject_Z (Z.of_nat 0)) with 0%Q.
  change (inject_Z 80) with 80%Q. change (inject_Z 20) with 20%Q.
  change (inject_Z (- (1))) with (- (1))%Q.
  generalize (inject_Z width), (inject_Z (Z.of_nat i)). intros a b. field.
Qed.

Lemma reference_x_S width count i :
  (reference_x width count (S i) == reference_x width count i + 40 + 10)%Q.
Proof.
  unfold reference_x. rewrite inject_Z_of_nat_S.
  change (inject_Z (40 + 10)) with 50%Q. ring.
Qed.

Lemma reference_x_centred width i :
  (reference_x width (S i) 0
   == inject_Z width - (reference_x width (S i) i + 40))%Q.
Proof.
  unfold reference_x, reference_startX.
  rewrite inject_Z_plus, !inject_Z_mult. unfold Z.sub.
  rewrite inject_Z_plus, inject_Z_of_nat_S.
  change (inject_Z (40 + 10)) with 50%Q.
  change (inject_Z (Z.of_nat 0)) with 0%Q.
  change (inject_Z 40) with 40%Q. change (inject_Z 10) with 10%Q.
  change (inject_Z (- (1))) with (- (1))%Q.
  generalize (inject_Z width), (inject_Z (Z.of_nat i)). intros a b. field.
Qed.

Lemma lookup_map_seq {A : Type} (f : nat → A) (n i : nat) (x : A) :
  map f (seq 0 n) !! i = Some x ↔ (i < n)%nat ∧ x = f i.
Proof.
  change (map f (seq 0 n)) with (f <$> seq 0 n).
  rewrite list_lookup_fmap. split.
  - destruct (seq 0 n !! i) as [j|] eqn:E; [|done].
    apply lookup_seq in E as [-> ?]. simpl. intros [= <-]. done.
  - intros [Hi ->]. by rewrite (lookup_seq_lt _ _ _ Hi).
Qed.

Lemma last_map_seq {A : Type} (f : nat → A) (n : nat) :
  last (map f (seq 0 (S n))) = Some (f n).
Proof.
  rewrite last_lookup, length_map, length_seq. simpl pred.
  apply lookup_map_seq. split; [lia|done].
Qed.

(** X15 (drawFrames).  Whatever the arguments, [drawFrames] first fills the
    whole canvas with the background colour and then paints one box per
    frame, [max 0 numFrames] of them: each 80 wide and 100 high at height 80,
    each 20 to the right of the right edge of the one before, the row as a
    whole centred in the canvas (the margin left of the first box equals the
    margin right of the last one). *)
Theorem frame_row_is_centred_and_evenly_spaced
    (width height : Z) (frames : list JsNumber) (numFrames : Z)
    (highlightType : option string) (highlightPage : option JsNumber)
    (style : string) :
  ∃ boxes,
    filled_boxes style
      (drawFrames width height frames numFrames highlightType highlightPage)
    = background width height :: boxes
    ∧ Z.of_nat (length boxes) = Z.max 0 numFrames
    ∧ (∀ i b, boxes !! i = Some b →
         (box_y b == 80 ∧ box_w b == 80 ∧ box_h b == 100)%Q)
    ∧ (∀ i b b', boxes !! i = Some b → boxes !! S i = Some b' →
         (box_x b' == box_x b + box_w b + 20)%Q)
    ∧ (∀ b b', head boxes = Some b → last boxes = Some b' →
         (box_x b == inject_Z width - (box_x b' + box_w b'))%Q).
Proof.
  eexists. split; [apply filled_boxes_drawFrames|].
  split; [rewrite length_map, length_seq; lia|].
  split; [|split].
  - intros i b [_ ->]%lookup_map_seq. cbn. done.
  - intros i b b' [_ ->]%lookup_map_seq [_ ->]%lookup_map_seq. cbn.
    apply frame_x_S.
  - intros b b'. destruct (Z.to_nat numFrames) as [|k] eqn:E; [done|].
    rewrite head_lookup, last_map_seq.
    intros [_ ->]%lookup_map_seq [= <-]. cbn.
    replace numFrames with (Z.of_nat (S k)) by lia.
    apply frame_x_centred.
Qed.

Lemma highlight_is_true (highlightType : option string) (kind : string) :
  highlight_is highlightType kind = true ↔ highlightType = Some kind.
Proof.
  destruct highlightType as [t|]; simpl; [|done].
  rewrite String.eqb_eq. split; congruence.
Qed.

Lemma is_highlight_page_true (page : JsNumber)
    (highlightPage : option JsNumber) :
  is_highlight_page page highlightPage = true
  ↔ ∃ z, page = Int z ∧ highlightPage = Some (Int z).
Proof.
  destruct highlightPage as [h|]; simpl.
  - destruct page as [|x], h as [|y]; simpl;
      try (split; [done|intros (z & ? & ?); congruence]).
    rewrite Z.eqb_eq. split.
    + intros ->. by exists y.
    + intros (z & [= ->] & [= ->]). done.
  - split; [done|]. intros (z & _ & ?). done.
Qed.

Lemma frameColor_cases (page : option JsNumber)
    (highlightType : option string) (highlightPage : option JsNumber) :
  let same := ∃ z, page = Some (Int z) ∧ highlightPage = Some (Int z) in
  let color := frameColor page highlightType highlightPage in
  (color = colors.frameEmpty ↔ page = None)
  ∧ (color = colors.frameHit ↔ highlightType = Some "hit" ∧ same)
  ∧ (color = colors.frameFault ↔ highlightType = Some "fault" ∧ same)
  ∧ (color = colors.frameOccupied
     ↔ page ≠ None
       ∧ ¬ ((highlightType = Some "hit" ∨ highlightType = Some "fault")
            ∧ same)).
Proof.
  intros same color. subst same color.
  destruct page as [pg|]; simpl.
  2:{ repeat split; try done.
      - intros (_ & z & ? & _). done.
      - intros (_ & z & ? & _). done.
      - intros [? _]. done. }
  pose proof (highlight_is_true highlightType "hit") as Hhit.
  pose proof (highlight_is_true highlightType "fault") as Hfault.
  pose proof (is_highlight_page_true pg highlightPage) as Hpage.
  assert ((∃ z, Some pg = Some (Int z) ∧ highlightPage = Some (Int z))
          ↔ is_highlight_page pg highlightPage = true) as Hsame.
  { rewrite Hpage. split.
    - intros (z & [= ->] & ->). by exists z.
    - intros (z & -> & ->). by exists z. }
  rewrite Hsame. clear Hsame Hpage.
  destruct (highlight_is highlightType "hit") eqn:Eh;
    destruct (highlight_is highlightType "fault") eqn:Ef;
    destruct (is_highlight_page pg highlightPage) eqn:Ep; simpl;
    try (assert (highlightType = Some "hit") as -> by (by apply Hhit));
    try (assert (highlightType = Some "fault") as -> by (by apply Hfault));
    try discriminate Ef; try discriminate Eh;
    repeat split; try done; try (intros [? ?]; done);
    try (intros [? ?]; apply Hhit in H; done);
    try (intros [? ?]; apply Hfault in H; done);
    try (intros [[?|?] ?]; done); try (intros _ [[?|?] ?]); try tauto;
    try (intros [_ H]; apply H; split; [by left|done]);
    try (intros [_ H]; apply H; split; [by right|done]).
  all: try (apply Hhit in H; done); try (apply Hfault in H; done).
  intros [[E|E] _]; [apply Hhit in E|apply Hfault in E]; done.
Qed.

(** X16 (drawFrames).  The colour of the box of slot [i]: the empty colour
    exactly when the slot holds no page; the hit (fault) colour exactly when
    the highlight type is "hit" ("fault") and the slot holds the highlighted
    page, which strict equality only finds when it is a number other than
    NaN; the occupied colour in every other case. *)
Theorem frame_box_colours
    (width height : Z) (frames : list JsNumber) (numFrames : Z)
    (highlightType : option string) (highlightPage : option JsNumber)
    (style : string) (i : nat) (b : Box) :
  filled_boxes style
    (drawFrames width height frames numFrames highlightType highlightPage)
    !! S i = Some b →
  let same :=
    ∃ z, frames !! i = Some (Int z) ∧ highlightPage = Some (Int z) in
  (box_color b = colors.frameEmpty ↔ frames !! i = None)
  ∧ (box_color b = colors.frameHit ↔ highlightType = Some "hit" ∧ same)
  ∧ (box_color b = colors.frameFault ↔ highlightType = Some "fault" ∧ same)
  ∧ (box_color b = colors.frameOccupied
     ↔ frames !! i ≠ None
       ∧ ¬ ((highlightType = Some "hit" ∨ highlightType = Some "fault")
            ∧ same)).
Proof.
  rewrite filled_boxes_drawFrames. cbn [lookup list_lookup].
  intros [_ ->]%lookup_map_seq. cbn [frame_box box_color].
  apply frameColor_cases.
Qed.

Lemma frame_box_colours_witness :
  let b := mkBox colors.frameHit (inject_Z 720 / 2) (inject_Z 80)
             (inject_Z 80) (inject_Z 100) in
  filled_boxes "#000000"
    (drawFrames 800 400 [Int 7; Int 0] 3 (Some "hit") (Some (Int 0)))
    !! 2%nat = Some b
  ∧ (box_color b = colors.frameHit
     ↔ Some "hit" = Some "hit"
       ∧ ∃ z, [Int 7; Int 0] !! 1%nat = Some (Int z)
              ∧ Some (Int 0) = Some (Int z)).
Proof.
  intros b. split; [reflexivity|].
  apply (frame_box_colours 800 400 [Int 7; Int 0] 3 (Some "hit")
           (Some (Int 0)) "#000000" 1 b).
  reflexivity.
Defined.

(** X17 (drawFrames).  When the frames hold pairwise distinct pages, as the
    frames of the simulator always do, at most one box is painted in a
    highlight colour. *)
Theorem at_most_one_frame_is_highlighted
    (width height : Z) (frames : list JsNumber) (numFrames : Z)
    (highlightType : option string) (highlightPage : option JsNumber)
    (style : string) (i j : nat) (b b' : Box) :
  NoDup frames →
  filled_boxes style
    (drawFrames width height frames numFrames highlightType highlightPage)
    !! S i = Some b →
  filled_boxes style
    (drawFrames width height frames numFrames highlightType highlightPage)
    !! S j = Some b' →
  highlighted b → highlighted b' → i = j.
Proof.
  intros Hnd. rewrite filled_boxes_drawFrames. cbn [lookup list_lookup].
  intros [_ ->]%lookup_map_seq [_ ->]%lookup_map_seq.
  unfold highlighted. cbn [frame_box box_color].
  intros Hb Hb'.
  assert (∀ k, frameColor (frames !! k) highlightType highlightPage
               = colors.frameHit
             ∨ frameColor (frames !! k) highlightType highlightPage
               = colors.frameFault →
          ∃ z, frames !! k = Some (Int z) ∧ highlightPage = Some (Int z))
    as Hsame.
  { intros k.
    destruct (frameColor_cases (frames !! k) highlightType highlightPage)
      as (_ & Hh & Hf & _).
    intros [E|E]; [apply Hh in E|apply Hf in E]; tauto. }
  destruct (Hsame i Hb) as (z & Hi & Hz).
  destruct (Hsame j Hb') as (z' & Hj & Hz').
  assert (z' = z) as -> by congruence.
  exact (NoDup_lookup frames i j (Int z) Hnd Hi Hj).
Qed.

Lemma at_most_one_frame_is_highlighted_witness :
  let frames := frames (simulate (constructor_ "7,0,1,2,0" 3 "lru")) in
  let drawn := filled_boxes "#000000"
                 (drawFrames 800 400 frames 3 (Some "hit") (Some (Int 0))) in
  NoDup frames
  ∧ (∀ i j b b', drawn !! S i = Some b → drawn !! S j = Some b' →
       highlighted b → highlighted b' → i = j).
Proof.
  intros frames drawn.
  assert (NoDup frames) as Hnd.
  { vm_compute. repeat (constructor; [set_solver|]). constructor. }
  split; [exact Hnd|].
  intros i j b b'.
  exact (at_most_one_frame_is_highlighted 800 400 frames 3 (Some "hit")
           (Some (Int 0)) "#000000" i j b b' Hnd).
Defined.

Lemma filled_texts_drawFrame_ops width frames numFrames hT hP i style rest :
  filled_texts style
    (drawFrame_ops width frames numFrames hT hP i ++ rest)
  = frame_content width frames numFrames i
    :: frame_caption width numFrames i
    :: filled_texts "#94a3b8" rest.
Proof.
  unfold drawFrame_ops, frame_content, frame_caption.
  destruct (frames !! i); reflexivity.
Qed.

Lemma filled_texts_frames_loop width frames numFrames hT hP l style :
  filled_texts style
    (concat (map (drawFrame_ops width frames numFrames hT hP) l))
  = concat (map (fun i => [frame_content width frames numFrames i;
                           frame_caption width numFrames i]) l).
Proof.
  revert style. induction l as [|i l IH]; intros style; [done|].
  cbn [map concat]. rewrite filled_texts_drawFrame_ops, IH. done.
Qed.

Lemma lookup_concat_pairs {A : Type} (f g : nat → A) (n i : nat) :
  (i < n)%nat →
  concat (map (fun i => [f i; g i]) (seq 0 n)) !! (2 * i)%nat = Some (f i)
  ∧ concat (map (fun i => [f i; g i]) (seq 0 n)) !! S (2 * i) = Some (g i).
Proof.
  revert f g i. induction n as [|n IH]; intros f g i Hi; [lia|].
  rewrite <- cons_seq, <- fmap_S_seq. cbn [map concat app].
  destruct i as [|i]; [done|].
  replace (2 * S i)%nat with (S (S (2 * i))) by lia.
  cbn [lookup list_lookup].
  change (map (λ i0 : nat, [f i0; g i0]) (S <$> seq 0 n))
    with ((λ i0 : nat, [f i0; g i0]) <$> (S <$> seq 0 n)).
  rewrite <- list_fmap_compose.
  apply (IH (f ∘ S) (g ∘ S) i). lia.
Qed.

Lemma length_concat_pairs {A : Type} (f g : nat → A) (l : list nat) :
  length (concat (map (fun i => [f i; g i]) l)) = (2 * length l)%nat.
Proof. induction l as [|i l IH]; [done|]. cbn. lia. Qed.

Lemma number_to_chars_trimmed (n : JsNumber) :
  trim_chars (number_to_chars n) = number_to_chars n.
Proof.
  destruct n as [|z]; [by vm_compute|].
  unfold number_to_chars.
  destruct (decimal_digits_of_abs z) as (D & -> & Hne & Hall & _).
  assert (Hlast : ∀ x, is_white_space (List.last D x) = false).
  { intros x. by apply decimal_digit_plain, last_decimal_digit. }
  destruct D as [|d0 D']; [done|].
  assert (is_decimal_digit d0 = true) as Hd0.
  { simpl in Hall. by apply andb_true_iff in Hall as [? _]. }
  destruct (decimal_digit_plain d0 Hd0) as (Hws0 & _).
  destruct (z <? 0).
  - apply trim_chars_padded; [done|].
    change (List.last ("-"%char :: d0 :: D') "-"%char)
      with (List.last (d0 :: D') "-"%char). apply Hlast.
  - apply trim_chars_padded; [done|]. apply Hlast.
Qed.

Lemma parseInt_number_to_string (n : JsNumber) :
  parseInt (number_to_string n) = n.
Proof.
  unfold parseInt, number_to_string.
  rewrite list_ascii_of_string_of_list_ascii.
  rewrite <- (number_to_chars_trimmed n).
  apply parse_printed_number.
Qed.

Lemma number_to_string_not_dash (n : JsNumber) : number_to_string n ≠ "-".
Proof.
  intros E. pose proof (parseInt_number_to_string n) as Hp.
  rewrite E in Hp. destruct n as [|z]; [|by vm_compute in Hp].
  by vm_compute in E.
Qed.

(** X18 (drawFrames).  The texts written by [drawFrames] are the title and
    then, for each slot, its content and its caption.  The content of an
    occupied slot is the page's number in the text colour, which
    [Number.parseInt] reads back as that page when it is a safe integer or
    NaN; the content of an empty slot is a grey dash, which no page is ever
    shown as.  The content is centred in the slot's box, and the caption
    [Frame i] counts slots from 0. *)
Theorem frame_boxes_show_their_pages
    (width height : Z) (frames : list JsNumber) (numFrames : Z)
    (highlightType : option string) (highlightPage : option JsNumber)
    (style : string) :
  ∃ texts,
    filled_texts style
      (drawFrames width height frames numFrames highlightType highlightPage)
    = mkLabel "#f1f5f9" "Page Frames" (inject_Z width / 2)%Q (inject_Z 30)
      :: texts
    ∧ length texts = (2 * Z.to_nat numFrames)%nat
    ∧ ∀ i b,
        filled_boxes style
          (drawFrames width height frames numFrames highlightType
             highlightPage) !! S i = Some b →
        ∃ content caption,
          texts !! (2 * i)%nat = Some content
          ∧ texts !! S (2 * i) = Some caption
          ∧ (frames !! i = None →
             label_text content = "-" ∧ label_color content = "#64748b")
          ∧ (∀ p, frames !! i = Some p →
               label_text content = number_to_string p
               ∧ label_text content ≠ "-"
               ∧ label_color content = colors.text
               ∧ (safe_number p → parseInt (label_text content) = p))
          ∧ (label_x content == box_x b + box_w b / 2)%Q
          ∧ (label_y content == box_y b + box_h b / 2)%Q
          ∧ label_text caption
            = ("Frame " ++ number_to_string (Int (Z.of_nat i)))%string.
Proof.
  eexists. split.
  { unfold drawFrames. cbn [app filled_texts].
    rewrite filled_texts_frames_loop. reflexivity. }
  split; [by rewrite length_concat_pairs, length_seq|].
  intros i b. rewrite filled_boxes_drawFrames. cbn [lookup list_lookup].
  intros [Hi ->]%lookup_map_seq.
  destruct (lookup_concat_pairs (frame_content width frames numFrames)
              (frame_caption width numFrames) _ i Hi) as [Hc Hl].
  exists (frame_content width frames numFrames i),
    (frame_caption width numFrames i).
  split; [exact Hc|]. split; [exact Hl|].
  unfold frame_content, frame_box. cbn [box_x box_y box_w box_h].
  destruct (frames !! i) as [pg|]; cbn [label_text label_color label_x label_y].
  - split; [done|]. split.
    { intros p [= <-]. split; [done|].
      split; [apply number_to_string_not_dash|]. split; [done|].
      intros _. apply parseInt_number_to_string. }
    done.
  - split; [done|]. split; [done|]. done.
Qed.

Lemma filled_texts_reference_loop width count currentStep l k style :
  map label_text
    (filled_texts style
       (concat
          (imap (fun i => drawReference_ops width count currentStep (k + i))
             l)))
  = map number_to_string l.
Proof.
  revert k style. induction l as [|p l IH]; intros k style; [done|].
  rewrite imap_cons. cbn [concat map].
  unfold drawReference_ops at 1. cbn [app filled_texts map label_text].
  f_equal. rewrite <- (IH (S k) colors.text).
  f_equal. f_equal. f_equal. apply imap_ext. intros i x _. cbn.
  f_equal. lia.
Qed.

Lemma take_displayCount (referenceString : list JsNumber) :
  take (displayCount referenceString) referenceString
  = take 15 referenceString.
Proof.
  unfold displayCount.
  destruct (Nat.le_ge_cases (length referenceString) 15) as [H|H].
  - rewrite Nat.min_l by done. by rewrite !take_ge by lia.
  - by rewrite Nat.min_r by done.
Qed.

Lemma bgColor_cases (i : nat) (currentStep : Z) :
  (bgColor i currentStep = "#3b82f6" ↔ Z.of_nat i = currentStep)
  ∧ (bgColor i currentStep = "#475569" ↔ Z.of_nat i < currentStep)
  ∧ (bgColor i currentStep = "#334155" ↔ currentStep < Z.of_nat i).
Proof.
  unfold bgColor.
  destruct (Z.eqb_spec (Z.of_nat i) currentStep) as [E|E].
  { repeat split; try done; lia. }
  destruct (Z.ltb_spec (Z.of_nat i) currentStep) as [L|L].
  { repeat split; try done; lia. }
  repeat split; try done; lia.
Qed.

(** X19 (drawReferenceString).  The reference strip shows the first 15
    references and no more: one box and one number per reference, in order,
    the numbers as JavaScript prints them.  Box [i] has the current-step
    colour exactly when [i] is the current step, the completed colour
    exactly when [i] is below it and the pending colour exactly when [i] is
    above it; so from step 15 on every box has the completed colour and the
    current reference is not marked. *)
Theorem reference_strip_shows_first_fifteen
    (width : Z) (referenceString : list JsNumber) (currentStep : Z)
    (style : string) :
  let boxes :=
    filled_boxes style
      (drawReferenceString width referenceString currentStep) in
  let texts :=
    filled_texts style
      (drawReferenceString width referenceString currentStep) in
  length boxes = Nat.min (length referenceString) 15
  ∧ map label_text texts
    = "Reference String" :: map number_to_string (take 15 referenceString)
  ∧ (∀ i b, boxes !! i = Some b →
       (box_color b = "#3b82f6" ↔ Z.of_nat i = currentStep)
       ∧ (box_color b = "#475569" ↔ Z.of_nat i < currentStep)
       ∧ (box_color b = "#334155" ↔ currentStep < Z.of_nat i))
  ∧ (15 ≤ currentStep → ∀ b, b ∈ boxes → box_color b = "#475569").
Proof.
  intros boxes texts. subst boxes texts.
  rewrite filled_boxes_drawReferenceString.
  split; [by rewrite length_map, length_seq|].
  split.
  { unfold drawReferenceString. cbn [app filled_texts map label_text].
    f_equal.
    rewrite (filled_texts_reference_loop width _ currentStep _ 0%nat).
    by rewrite take_displayCount. }
  split.
  - intros i b [_ ->]%lookup_map_seq. cbn [reference_box box_color].
    apply bgColor_cases.
  - intros Hstep b [i [Hi ->]%lookup_map_seq]%list_elem_of_lookup.
    cbn [reference_box box_color]. apply bgColor_cases.
    unfold displayCount in Hi. lia.
Qed.

(** X20 (draw).  [draw] paints the background, then the frame row, then the
    reference strip, whatever fill style was in force before.  The strip's
    boxes are 40 by 40 at height 250, each 10 to the right of the one before
    and the strip centred in the canvas, and every frame box ends above
    every box of the strip. *)
Theorem draw_paints_frames_above_reference_strip
    (width height : Z) (frames : list JsNumber) (numFrames : Z)
    (referenceString : list JsNumber) (currentStep : Z)
    (highlightType : option string) (highlightPage : option JsNumber)
    (style : string) :
  ∃ row strip,
    filled_boxes style
      (draw width height frames numFrames referenceString currentStep
         highlightType highlightPage)
    = background width height :: row ++ strip
    ∧ filled_boxes style
        (drawFrames width height frames numFrames highlightType
           highlightPage)
      = background width height :: row
    ∧ filled_boxes style
        (drawReferenceString width referenceString currentStep)
      = strip
    ∧ (∀ b b', b ∈ row → b' ∈ strip → (box_y b + box_h b < box_y b')%Q)
    ∧ (∀ i b, strip !! i = Some b →
         (box_y b == 250 ∧ box_w b == 40 ∧ box_h b == 40)%Q)
    ∧ (∀ i b b', strip !! i = Some b → strip !! S i = Some b' →
         (box_x b' == box_x b + box_w b + 10)%Q)
    ∧ (∀ b b', head strip = Some b → last strip = Some b' →
         (box_x b == inject_Z width - (box_x b' + box_w b'))%Q).
Proof.
  destruct (filled_boxes_drawFrames_app width height frames numFrames
              highlightType highlightPage style
              (drawReferenceString width referenceString currentStep))
    as [style' E].
  eexists _, _. split.
  { unfold draw. rewrite E, filled_boxes_drawReferenceString. reflexivity. }
  split; [apply filled_boxes_drawFrames|].
  split; [apply filled_boxes_drawReferenceString|].
  split; [|split; [|split]].
  - intros b b' [i [_ ->]%lookup_map_seq]%list_elem_of_lookup
      [j [_ ->]%lookup_map_seq]%list_elem_of_lookup.
    cbn. done.
  - intros i b [_ ->]%lookup_map_seq. cbn. done.
  - intros i b b' [_ ->]%lookup_map_seq [_ ->]%lookup_map_seq. cbn.
    apply reference_x_S.
  - intros b b'.
    destruct (displayCount referenceString) as [|k] eqn:Ek; [done|].
    rewrite head_lookup, last_map_seq.
    intros [_ ->]%lookup_map_seq [= <-]. cbn.
    apply reference_x_centred.
Qed.
